(** * TTLCache: a shallow embedding of the expiring key/value store

    The development follows the Go sources:
    - [item.go]            (the entry: [newItem], [touch], [expired]),
    - [priority_queue.go]  (the expiration index on top of [container/heap]),
    - [cache.go]           (the store and its sweep loop).

    Go pointers [*Item] are addresses into an explicit memory, so that the
    key map and the expiration index share the entries they both point to. *)

From Stdlib Require Import ZArith Lia.
From stdpp Require Import base option list gmap strings.

Local Open Scope Z_scope.

(** Linear arithmetic extended with the truncating division of Go's [/]. *)
Ltac zlia := Z.to_euclidean_division_equations; lia.

(** ** Package [time] *)

(** A [time.Time] is an instant, counted in nanoseconds from the zero
    [Time] (January 1, year 1, 00:00 UTC); a [time.Duration] is a signed
    count of nanoseconds. *)
Definition Time := Z.
Definition Duration := Z.

Definition IsZero (t : Time) : bool := t =? 0.
Definition Before (t u : Time) : bool := t <? u.
Definition After (t u : Time) : bool := u <? t.
Definition Add (t : Time) (d : Duration) : Time := t + d.

Definition minDuration : Duration := - 2 ^ 63.
Definition maxDuration : Duration := 2 ^ 63 - 1.

(** [t.Sub(u)] saturates at the bounds of the 64-bit [Duration]. *)
Definition Sub (t u : Time) : Duration :=
  if t - u <? minDuration then minDuration
  else if maxDuration <? t - u then maxDuration
  else t - u.

(** [time.Until(t)], at the instant [now] the clock shows. *)
Definition Until (now t : Time) : Duration := Sub t now.

Definition Microsecond : Duration := 1000.
Definition Hour : Duration := 3600 * 1000000000.

(** ** Run-time faults and results *)

Inductive panic : Set :=
| IndexOutOfRange
| NilDereference.

Inductive result (A : Type) : Type :=
| Ok (a : A)
| Panic (p : panic)
| OutOfFuel.

Arguments Ok {A} a.
Arguments Panic {A} p.
Arguments OutOfFuel {A}.

Definition bind {A B : Type} (r : result A) (k : A -> result B) : result B :=
  match r with
  | Ok a => k a
  | Panic p => Panic p
  | OutOfFuel => OutOfFuel
  end.

Notation "'let*' x ':=' e 'in' k" := (bind e (fun x => k))
  (at level 10, x pattern, e at level 100, k at level 200).

(** [l[i]] for a Go [int] index: out of range is a run-time panic. *)
Definition index {A : Type} (l : list A) (i : Z) : result A :=
  if (i <? 0) || (Z.of_nat (length l) <=? i) then Panic IndexOutOfRange
  else match l !! Z.to_nat i with
       | Some x => Ok x
       | None => Panic IndexOutOfRange
       end.

(** Addresses of allocated [Item]s. *)
Abbreviation addr := nat (only parsing).

Section Items.

Context {V : Type}.

(** ** item.go *)

Record Item : Type := mkItem {
  key : string;
  Data : V;
  TTL : Duration;
  ExpireAt : Time;
  queueIndex : Z
}.

Definition set_Data (d : V) (it : Item) : Item :=
  mkItem (key it) d (TTL it) (ExpireAt it) (queueIndex it).
Definition set_TTL (d : Duration) (it : Item) : Item :=
  mkItem (key it) (Data it) d (ExpireAt it) (queueIndex it).
Definition set_ExpireAt (t : Time) (it : Item) : Item :=
  mkItem (key it) (Data it) (TTL it) t (queueIndex it).
Definition set_queueIndex (i : Z) (it : Item) : Item :=
  mkItem (key it) (Data it) (TTL it) (ExpireAt it) i.

Definition ItemNotExpire : Duration := -1.
Definition ItemExpireWithGlobalTTL : Duration := 0.

(** [item.touch()], where [now] is what [time.Now()] returns. *)
Definition touch (now : Time) (it : Item) : Item :=
  if 0 <? TTL it then set_ExpireAt (Add now (TTL it)) it else it.

(** [item.expired()], where [now] is what [time.Now()] returns. *)
Definition expired (now : Time) (it : Item) : bool :=
  if TTL it <=? 0 then false else Before (ExpireAt it) now.

(** [newItem(key, data, ttl)]: the struct literal leaves [ExpireAt] and
    [queueIndex] at their zero values, then the entry touches itself. *)
Definition newItem (now : Time) (k : string) (d : V) (ttl : Duration) : Item :=
  touch now (mkItem k d ttl 0 0).

(** The memory the [*Item] pointers live in. *)
Abbreviation memory := (list Item) (only parsing).

Definition deref (m : memory) (a : addr) : result Item :=
  match m !! a with
  | Some it => Ok it
  | None => Panic NilDereference
  end.

(** ** priority_queue.go *)

(** A [priorityQueue] is its slice of pointers [items]; the record carries
    the memory along, since [Swap], [Push] and [Pop] write the entries'
    [queueIndex] through the pointers. *)
Record pqueue : Type := mkPQ {
  mem : memory;
  items : list addr
}.

Definition Len (pq : pqueue) : Z := Z.of_nat (length (items pq)).

Definition Less (pq : pqueue) (i j : Z) : result bool :=
  let* a := index (items pq) i in
  let* x := deref (mem pq) a in
  if IsZero (ExpireAt x) then Ok false
  else
    let* b := index (items pq) j in
    let* y := deref (mem pq) b in
    if IsZero (ExpireAt y) then Ok true
    else Ok (Before (ExpireAt x) (ExpireAt y)).

(** [pq.items[i].queueIndex = i] *)
Definition record_position (m : memory) (q : list addr) (i : Z) : result memory :=
  let* a := index q i in
  let* x := deref m a in
  Ok (<[a := set_queueIndex i x]> m).

Definition Swap (pq : pqueue) (i j : Z) : result pqueue :=
  let* a := index (items pq) i in
  let* b := index (items pq) j in
  let q := <[Z.to_nat j := a]> (<[Z.to_nat i := b]> (items pq)) in
  let* m1 := record_position (mem pq) q i in
  let* m2 := record_position m1 q j in
  Ok (mkPQ m2 q).

Definition Push (pq : pqueue) (x : addr) : result pqueue :=
  let* it := deref (mem pq) x in
  Ok (mkPQ (<[x := set_queueIndex (Len pq) it]> (mem pq)) (items pq ++ [x])).

Definition Pop (pq : pqueue) : result (pqueue * addr) :=
  let n := Len pq in
  let* x := index (items pq) (n - 1) in
  let* it := deref (mem pq) x in
  Ok (mkPQ (<[x := set_queueIndex (-1) it]> (mem pq))
           (take (Z.to_nat (n - 1)) (items pq)), x).

(** ** container/heap, instantiated at [priorityQueue]

    [up], [down], [Init], [Push], [Pop], [Remove] and [Fix] of Go's
    standard package, which [priority_queue.go] calls, over the methods
    [Len], [Less], [Swap], [Push] and [Pop] above. The two sifting loops
    run on fuel; [up] and [down] provide enough of it ([up_loop_spec] and
    [down_loop_spec] below). A slice holds far fewer than [2^62]
    pointers, so [2*i + 1] does not wrap around on a slot of the index. *)

Fixpoint up_loop (fuel : nat) (pq : pqueue) (j : Z) : result pqueue :=
  match fuel with
  | O => OutOfFuel
  | S fuel =>
      let i := Z.quot (j - 1) 2 in
      if i =? j then Ok pq
      else
        let* lt := Less pq j i in
        if negb lt then Ok pq
        else
          let* pq := Swap pq i j in
          up_loop fuel pq i
  end.

Definition up (pq : pqueue) (j : Z) : result pqueue :=
  up_loop (S (Z.to_nat j)) pq j.

Fixpoint down_loop (fuel : nat) (pq : pqueue) (i n : Z) : result (pqueue * Z) :=
  match fuel with
  | O => OutOfFuel
  | S fuel =>
      let j1 := 2 * i + 1 in
      if (n <=? j1) || (j1 <? 0) then Ok (pq, i)
      else
        let j2 := j1 + 1 in
        let* j := (if j2 <? n
                   then let* lt := Less pq j2 j1 in Ok (if lt then j2 else j1)
                   else Ok j1) in
        let* lt := Less pq j i in
        if negb lt then Ok (pq, i)
        else
          let* pq := Swap pq i j in
          down_loop fuel pq j n
  end.

Definition down (pq : pqueue) (i0 n : Z) : result (pqueue * bool) :=
  let* (pq, i) := down_loop (S (Z.to_nat n)) pq i0 n in
  Ok (pq, i0 <? i).

Fixpoint init_loop (fuel : nat) (pq : pqueue) (i n : Z) : result pqueue :=
  match fuel with
  | O => if 0 <=? i then OutOfFuel else Ok pq
  | S fuel =>
      if 0 <=? i
      then let* (pq, _) := down pq i n in init_loop fuel pq (i - 1) n
      else Ok pq
  end.

Definition heap_Init (pq : pqueue) : result pqueue :=
  let n := Len pq in
  init_loop (Z.to_nat (Z.quot n 2)) pq (Z.quot n 2 - 1) n.

Definition heap_Push (pq : pqueue) (x : addr) : result pqueue :=
  let* pq := Push pq x in
  up pq (Len pq - 1).

Definition heap_Pop (pq : pqueue) : result (pqueue * addr) :=
  let n := Len pq - 1 in
  let* pq := Swap pq 0 n in
  let* (pq, _) := down pq 0 n in
  Pop pq.

Definition heap_Remove (pq : pqueue) (i : Z) : result (pqueue * addr) :=
  let n := Len pq - 1 in
  let* pq := (if negb (n =? i)
              then
                let* pq := Swap pq i n in
                let* (pq, moved) := down pq i n in
                if negb moved then up pq i else Ok pq
              else Ok pq) in
  Pop pq.

Definition heap_Fix (pq : pqueue) (i : Z) : result pqueue :=
  let* (pq, moved) := down pq i (Len pq) in
  if negb moved then up pq i else Ok pq.

(** The methods of [priorityQueue] proper. *)

Definition newPriorityQueue (m : memory) : result pqueue :=
  heap_Init (mkPQ m []).

Definition update (pq : pqueue) (item : addr) : result pqueue :=
  let* it := deref (mem pq) item in
  heap_Fix pq (queueIndex it).

Definition push (pq : pqueue) (item : addr) : result pqueue :=
  heap_Push pq item.

Definition pop (pq : pqueue) : result (pqueue * option addr) :=
  if Len pq =? 0 then Ok (pq, None)
  else let* (pq, x) := heap_Pop pq in Ok (pq, Some x).

Definition remove (pq : pqueue) (item : addr) : result pqueue :=
  let* it := deref (mem pq) item in
  let* (pq, _) := heap_Remove pq (queueIndex it) in
  Ok pq.

End Items.

Arguments Item V : clear implicits.
Arguments pqueue V : clear implicits.

Abbreviation memory V := (list (Item V)) (only parsing).

(** * cache.go *)

Section Store.

Context {V : Type}.

(** What leaves the store: the two notification callbacks, run outside the
    lock, and the wake signal sent on [expirationNotification]. *)
Inductive event : Type :=
| NewItemCallback (k : string) (d : V)
| ExpireCallback (k : string) (d : V)
| ExpirationNotification.

(** The [Cache] struct. The map [items] is [cache_items]; [priorityQueue]
    is the slice of the index; [heap] is the memory both point into. The
    notification callbacks are kept as "is set" flags, their calls are
    recorded in [events]. The mutex and the channels are left out: every
    operation holds the lock while it works on the store, so calls are
    taken one at a time, each at one reading [now] of the clock. *)
Record Cache : Type := mkCache {
  ttl : Duration;
  cache_items : gmap string addr;
  expireCallback : bool;
  checkExpireCallback : option (string -> V -> bool);
  newItemCallback : bool;
  priorityQueue : list addr;
  expirationTime : Time;
  skipTTLExtension : bool;
  isShutDown : bool;
  heap : list (Item V);
  events : list event
}.

Definition set_ttl (d : Duration) (c : Cache) : Cache :=
  mkCache d (cache_items c) (expireCallback c) (checkExpireCallback c)
    (newItemCallback c) (priorityQueue c) (expirationTime c)
    (skipTTLExtension c) (isShutDown c) (heap c) (events c).
Definition set_cache_items (m : gmap string addr) (c : Cache) : Cache :=
  mkCache (ttl c) m (expireCallback c) (checkExpireCallback c)
    (newItemCallback c) (priorityQueue c) (expirationTime c)
    (skipTTLExtension c) (isShutDown c) (heap c) (events c).
Definition set_expireCallback (b : bool) (c : Cache) : Cache :=
  mkCache (ttl c) (cache_items c) b (checkExpireCallback c)
    (newItemCallback c) (priorityQueue c) (expirationTime c)
    (skipTTLExtension c) (isShutDown c) (heap c) (events c).
Definition set_checkExpireCallback (f : option (string -> V -> bool))
    (c : Cache) : Cache :=
  mkCache (ttl c) (cache_items c) (expireCallback c) f
    (newItemCallback c) (priorityQueue c) (expirationTime c)
    (skipTTLExtension c) (isShutDown c) (heap c) (events c).
Definition set_newItemCallback (b : bool) (c : Cache) : Cache :=
  mkCache (ttl c) (cache_items c) (expireCallback c) (checkExpireCallback c)
    b (priorityQueue c) (expirationTime c)
    (skipTTLExtension c) (isShutDown c) (heap c) (events c).
Definition set_expirationTime (t : Time) (c : Cache) : Cache :=
  mkCache (ttl c) (cache_items c) (expireCallback c) (checkExpireCallback c)
    (newItemCallback c) (priorityQueue c) t
    (skipTTLExtension c) (isShutDown c) (heap c) (events c).
Definition set_skipTTLExtension (b : bool) (c : Cache) : Cache :=
  mkCache (ttl c) (cache_items c) (expireCallback c) (checkExpireCallback c)
    (newItemCallback c) (priorityQueue c) (expirationTime c)
    b (isShutDown c) (heap c) (events c).
Definition set_heap (m : list (Item V)) (c : Cache) : Cache :=
  mkCache (ttl c) (cache_items c) (expireCallback c) (checkExpireCallback c)
    (newItemCallback c) (priorityQueue c) (expirationTime c)
    (skipTTLExtension c) (isShutDown c) m (events c).
Definition emit (e : event) (c : Cache) : Cache :=
  mkCache (ttl c) (cache_items c) (expireCallback c) (checkExpireCallback c)
    (newItemCallback c) (priorityQueue c) (expirationTime c)
    (skipTTLExtension c) (isShutDown c) (heap c) (events c ++ [e]).

(** The index of the store, with the memory it reads and writes. *)
Definition the_pq (c : Cache) : pqueue V := mkPQ (heap c) (priorityQueue c).

Definition with_pq (pq : pqueue V) (c : Cache) : Cache :=
  mkCache (ttl c) (cache_items c) (expireCallback c) (checkExpireCallback c)
    (newItemCallback c) (items pq) (expirationTime c)
    (skipTTLExtension c) (isShutDown c) (mem pq) (events c).

(** [item.TTL >= 0 && (item.TTL > 0 || cache.ttl > 0)] *)
Definition eligible (c : Cache) (it : Item V) : bool :=
  (0 <=? TTL it) && ((0 <? TTL it) || (0 <? ttl c)).

(** [if cache.ttl > 0 && item.TTL == 0 { item.TTL = cache.ttl }] *)
Definition promote (c : Cache) (it : Item V) : Item V :=
  if (0 <? ttl c) && (TTL it =? 0) then set_TTL (ttl c) it else it.

Definition GetItem (now : Time) (c : Cache) (k : string)
    : result (Cache * option addr * bool) :=
  match cache_items c !! k with
  | None => Ok (c, None, false)
  | Some item =>
      let* it := deref (heap c) item in
      if expired now it then Ok (c, None, false)
      else
        let* c :=
          (if eligible c it
           then
             let it := promote c it in
             let it := if negb (skipTTLExtension c) then touch now it else it in
             let c := set_heap (<[item := it]> (heap c)) c in
             let* pq := update (the_pq c) item in
             Ok (with_pq pq c)
           else Ok c) in
        let* it := deref (heap c) item in
        let expirationNotification :=
          After (expirationTime c) (Add now (TTL it)) in
        Ok (c, Some item, expirationNotification)
  end.

(** [min] of cache.go, on durations. *)
Definition min (duration second : Duration) : Duration :=
  if duration <? second then duration else second.

(** The sleep duration the sweep loop computes on each turn. *)
Definition sleepTime (now : Time) (c : Cache) : result Duration :=
  if 0 <? Len (the_pq c) then
    let* head := index (priorityQueue c) 0 in
    let* it := deref (heap c) head in
    let sleepTime := Until now (ExpireAt it) in
    let sleepTime :=
      if (sleepTime <? 0) && IsZero (ExpireAt it) then Hour
      else if sleepTime <? 0 then Microsecond
      else sleepTime in
    Ok (if 0 <? ttl c then min sleepTime (ttl c) else sleepTime)
  else if 0 <? ttl c then Ok (ttl c)
  else Ok Hour.

(** Entering [Sleeping]: the duration, and the wake instant recorded. *)
Definition fallAsleep (now : Time) (c : Cache) : result (Cache * Duration) :=
  let* d := sleepTime now c in
  Ok (set_expirationTime (Add now d) c, d).

(** The scan of the eviction pass, from cursor [i]. The entry's key and
    payload are read once: [remove] does not write them. *)
Fixpoint evict_loop (fuel : nat) (now : Time) (c : Cache) (i : Z)
    : result Cache :=
  match fuel with
  | O => OutOfFuel
  | S fuel =>
      let* item := index (priorityQueue c) i in
      let* it := deref (heap c) item in
      if negb (expired now it) then Ok c
      else
        let keep := match checkExpireCallback c with
                    | Some check => negb (check (key it) (Data it))
                    | None => false
                    end in
        if keep then
          let c := set_heap (<[item := touch now it]> (heap c)) c in
          let* pq := update (the_pq c) item in
          let c := with_pq pq c in
          let i := i + 1 in
          if i =? Len (the_pq c) then Ok c
          else evict_loop fuel now c i
        else
          let* pq := remove (the_pq c) item in
          let c := with_pq pq c in
          let c := set_cache_items (delete (key it) (cache_items c)) c in
          let c := if expireCallback c
                   then emit (ExpireCallback (key it) (Data it)) c else c in
          if Len (the_pq c) =? 0 then Ok c
          else evict_loop fuel now c i
  end.

(** The eviction pass, run when the timer fires. *)
Definition evictionPass (now : Time) (c : Cache) : result Cache :=
  if Len (the_pq c) =? 0 then Ok c
  else evict_loop (S (length (priorityQueue c))) now c 0.

Definition SetWithTTL (now : Time) (c : Cache) (k : string) (data : V)
    (d : Duration) : result Cache :=
  let* (c, found, _) := GetItem now c k in
  let* (c, item) :=
    match found with
    | Some item =>
        let* it := deref (heap c) item in
        Ok (set_heap (<[item := set_TTL d (set_Data data it)]> (heap c)) c,
            item)
    | None =>
        let item := length (heap c) in
        let c := set_heap (heap c ++ [newItem now k data d]) c in
        Ok (set_cache_items (<[k := item]> (cache_items c)) c, item)
    end in
  let* it := deref (heap c) item in
  let c := if eligible c it
           then set_heap (<[item := touch now (promote c it)]> (heap c)) c
           else c in
  let* pq := match found with
              | Some _ => update (the_pq c) item
              | None => push (the_pq c) item
              end in
  let c := with_pq pq c in
  let c := if negb (bool_decide (is_Some found)) && newItemCallback c
           then emit (NewItemCallback k data) c else c in
  Ok (emit ExpirationNotification c).

(** [Set]; the name is taken in Rocq. *)
Definition Set_ (now : Time) (c : Cache) (k : string) (data : V)
    : result Cache :=
  SetWithTTL now c k data ItemExpireWithGlobalTTL.

Definition Get (now : Time) (c : Cache) (k : string)
    : result (Cache * option V * bool) :=
  let* (c, found, triggerExpirationNotification) := GetItem now c k in
  let* dataToReturn :=
    match found with
    | Some item => let* it := deref (heap c) item in Ok (Some (Data it))
    | None => Ok None
    end in
  let c := if triggerExpirationNotification
           then emit ExpirationNotification c else c in
  Ok (c, dataToReturn, bool_decide (is_Some found)).

Definition GetTTL (now : Time) (c : Cache) (k : string)
    : result (Cache * Duration * bool) :=
  let* (c, found, _) := GetItem now c k in
  match found with
  | Some item => let* it := deref (heap c) item in Ok (c, TTL it, true)
  | None => Ok (c, 0, false)
  end.

Definition Remove (c : Cache) (k : string) : result (Cache * bool) :=
  match cache_items c !! k with
  | None => Ok (c, false)
  | Some object =>
      let* it := deref (heap c) object in
      let c := set_cache_items (delete (key it) (cache_items c)) c in
      let* pq := remove (the_pq c) object in
      Ok (with_pq pq c, true)
  end.

Definition Count (c : Cache) : Z := Z.of_nat (size (cache_items c)).

Definition SetTTL (c : Cache) (d : Duration) : Cache :=
  emit ExpirationNotification (set_ttl d c).

Definition SetExpirationCallback (c : Cache) (set : bool) : Cache :=
  set_expireCallback set c.

Definition SetCheckExpirationCallback (c : Cache)
    (callback : option (string -> V -> bool)) : Cache :=
  set_checkExpireCallback callback c.

Definition SetNewItemCallback (c : Cache) (set : bool) : Cache :=
  set_newItemCallback set c.

Definition SkipTtlExtensionOnHit (c : Cache) (value : bool) : Cache :=
  set_skipTTLExtension value c.

Definition Purge (c : Cache) : result Cache :=
  let* pq := newPriorityQueue (heap c) in
  Ok (with_pq pq (set_cache_items ∅ c)).

Definition NewCache (now : Time) : result Cache :=
  let* pq := newPriorityQueue [] in
  Ok (mkCache 0 ∅ false None false (items pq) now false false (mem pq) []).

End Store.

Arguments Cache V : clear implicits.
Arguments event V : clear implicits.

(** * Clients of the index and of the store *)

Section Clients.

Context {V : Type}.
Implicit Types (it : Item V) (pq : pqueue V).

(** The operations a client performs on the index. [OpUpdate x t] is the
    write [x.ExpireAt = t] followed by [update(x)]. *)
Inductive op : Type :=
| OpPush (x : addr)
| OpPop
| OpRemove (x : addr)
| OpUpdate (x : addr) (t : Time).

Definition write_ExpireAt pq (x : addr) (t : Time) : result (pqueue V) :=
  let* it := deref (mem pq) x in
  Ok (mkPQ (<[x := set_ExpireAt t it]> (mem pq)) (items pq)).

Definition apply_op pq (o : op) : result (pqueue V) :=
  match o with
  | OpPush x => push pq x
  | OpPop => let* (pq, _) := pop pq in Ok pq
  | OpRemove x => remove pq x
  | OpUpdate x t => let* pq := write_ExpireAt pq x t in update pq x
  end.

Fixpoint run pq (os : list op) : result (pqueue V) :=
  match os with
  | [] => Ok pq
  | o :: os => let* pq := apply_op pq o in run pq os
  end.

(** The calls a client makes on the store, and the turns of the sweep
    loop. Each comes with the instant it runs at. The sweep loop starts a
    turn by computing its sleep and recording the wake instant; it does so
    once [NewCache] has started it, and again each time it receives a wake
    signal ([SweepTurn]). When its timer fires it runs an eviction pass
    and starts the next turn ([TimerFires]). *)
Inductive call : Type :=
| CallSetWithTTL (k : string) (data : V) (d : Duration)
| CallGet (k : string)
| CallGetTTL (k : string)
| CallRemove (k : string)
| CallSetTTL (d : Duration)
| CallSetExpirationCallback (set : bool)
| CallSetCheckExpirationCallback (callback : option (string -> V -> bool))
| CallSetNewItemCallback (set : bool)
| CallSkipTtlExtensionOnHit (value : bool)
| CallPurge
| TimerFires
| SweepTurn.

Definition exec (now : Time) (c : Cache V) (f : call) : result (Cache V) :=
  match f with
  | CallSetWithTTL k data d => SetWithTTL now c k data d
  | CallGet k => let* (c, _, _) := Get now c k in Ok c
  | CallGetTTL k => let* (c, _, _) := GetTTL now c k in Ok c
  | CallRemove k => let* (c, _) := Remove c k in Ok c
  | CallSetTTL d => Ok (SetTTL c d)
  | CallSetExpirationCallback set => Ok (SetExpirationCallback c set)
  | CallSetCheckExpirationCallback callback =>
      Ok (SetCheckExpirationCallback c callback)
  | CallSetNewItemCallback set => Ok (SetNewItemCallback c set)
  | CallSkipTtlExtensionOnHit value => Ok (SkipTtlExtensionOnHit c value)
  | CallPurge => Purge c
  | TimerFires =>
      let* c := evictionPass now c in
      let* (c, _) := fallAsleep now c in Ok c
  | SweepTurn => let* (c, _) := fallAsleep now c in Ok c
  end.

Fixpoint exec_all (c : Cache V) (fs : list (Time * call))
    : result (Cache V) :=
  match fs with
  | [] => Ok c
  | (now, f) :: fs => let* c := exec now c f in exec_all c fs
  end.

End Clients.

(** * The vocabulary of the specifications *)

Section Vocabulary.

Context {V : Type}.
Implicit Types (it : Item V) (pq : pqueue V).

(** The comparison [Less] performs, on the two deadlines it reads. *)
Definition lessT (a b : Time) : bool :=
  if IsZero a then false else if IsZero b then true else Before a b.

(** [leT a b]: the deadline [b] is not more urgent than [a]. *)
Definition leT (a b : Time) : Prop := lessT b a = false.

(** Position tracking: every entry the index holds records the slot it
    sits in. *)
Definition tracked pq : Prop :=
  forall (k : nat) (a : addr), items pq !! k = Some a ->
    exists it, mem pq !! a = Some it /\ queueIndex it = Z.of_nat k.

(** The deadline found at slot [k] of the index (unset when there is no
    such slot). *)
Definition deadline pq (k : Z) : Time :=
  if k <? 0 then 0
  else match items pq !! Z.to_nat k with
       | Some a => match mem pq !! a with
                   | Some it => ExpireAt it
                   | None => 0
                   end
       | None => 0
       end.

(** Two entries agree on everything but the slot they record. *)
Definition same_payload it it' : Prop :=
  key it' = key it /\ Data it' = Data it /\ TTL it' = TTL it /\
  ExpireAt it' = ExpireAt it.

(** [rearranged pq pq']: the index [pq'] holds the entries of [pq], maybe
    in other slots; positions are tracked, and nothing but recorded
    positions of held entries was written to memory. *)
Record rearranged pq pq' : Prop := mk_rearranged {
  re_tracked : tracked pq';
  re_elem : forall a, a ∈ items pq' <-> a ∈ items pq;
  re_length : length (items pq') = length (items pq);
  re_mem_length : length (mem pq') = length (mem pq);
  re_payload : forall a it, mem pq !! a = Some it ->
      exists it', mem pq' !! a = Some it' /\ same_payload it it';
  re_frame : forall a, a ∉ items pq -> mem pq' !! a = mem pq !! a
}.

(** The slot exchange [Swap i j] performs on positions. *)
Definition sw (i j k : Z) : Z :=
  if k =? i then j else if k =? j then i else k.

(** Slot [c] is one of the two children of slot [p]. *)
Definition child (p c : Z) : Prop :=
  0 <= p /\ (c = 2 * p + 1 \/ c = 2 * p + 2).

(** The heap property on the first [n] slots: no entry is more urgent than
    its parent. *)
Definition heap_ordered pq (n : Z) : Prop :=
  forall p c, child p c -> c < n -> leT (deadline pq p) (deadline pq c).

(** The heap property, except maybe between slot [i] and its parent. *)
Definition ordered_below pq (i n : Z) : Prop :=
  forall p c, child p c -> c < n -> c <> i ->
    leT (deadline pq p) (deadline pq c).

(** The heap property on the pairs slot [i] takes no part in. *)
Definition ordered_apart pq (i n : Z) : Prop :=
  forall p c, child p c -> c < n -> p <> i -> c <> i ->
    leT (deadline pq p) (deadline pq c).

(** The parent of slot [i] is in order with the children of slot [i]. *)
Definition bridged pq (i n : Z) : Prop :=
  forall g c, child g i -> child i c -> c < n ->
    leT (deadline pq g) (deadline pq c).

(** [dropped pq x pq']: [pq'] is [pq] without the entry [x]. *)
Record dropped pq (x : addr) pq' : Prop := mk_dropped {
  dr_tracked : tracked pq';
  dr_elem : forall a, a ∈ items pq' <-> a ∈ items pq /\ a <> x;
  dr_in : x ∈ items pq;
  dr_length : S (length (items pq')) = length (items pq);
  dr_mem_length : length (mem pq') = length (mem pq);
  dr_payload : forall a it, mem pq !! a = Some it ->
      exists it', mem pq' !! a = Some it' /\ same_payload it it';
  dr_frame : forall a, a ∉ items pq -> mem pq' !! a = mem pq !! a
}.

(** [added pq x pq']: [pq'] is [pq] with the entry [x] put in. *)
Record added pq (x : addr) pq' : Prop := mk_added {
  ad_tracked : tracked pq';
  ad_elem : forall a, a ∈ items pq' <-> a ∈ items pq \/ a = x;
  ad_length : length (items pq') = S (length (items pq));
  ad_mem_length : length (mem pq') = length (mem pq);
  ad_payload : forall a it, mem pq !! a = Some it ->
      exists it', mem pq' !! a = Some it' /\ same_payload it it';
  ad_frame : forall a, a ∉ items pq -> a <> x -> mem pq' !! a = mem pq !! a
}.

(** An operation is admissible when [remove] and [update] are given an
    entry the index holds, and [push] an allocated entry it does not yet
    hold. *)
Definition admissible pq (o : op) : Prop :=
  match o with
  | OpPush x => (x ∉ items pq) /\ is_Some (mem pq !! x)
  | OpPop => True
  | OpRemove x => x ∈ items pq
  | OpUpdate x _ => x ∈ items pq
  end.

Fixpoint admissible_run pq (os : list op) : Prop :=
  match os with
  | [] => True
  | o :: os =>
      admissible pq o /\
      forall pq', apply_op pq o = Ok pq' -> admissible_run pq' os
  end.

(** The key map and the index agree: the index tracks positions, and
    every entry of the map is held by the index and carries the key it is
    filed under. *)
Definition store_consistent (c : Cache V) : Prop :=
  tracked (the_pq c) /\
  forall (k : string) (a : addr), cache_items c !! k = Some a ->
    a ∈ priorityQueue c /\ exists it, heap c !! a = Some it /\ key it = k.

(** [same_setup c c']: an operation left the configuration, the key map
    and the event log alone, kept the entries the index holds, and
    allocated nothing. *)
Record same_setup (c c' : Cache V) : Prop := mk_same_setup {
  ss_items : cache_items c' = cache_items c;
  ss_events : events c' = events c;
  ss_ttl : ttl c' = ttl c;
  ss_newItemCallback : newItemCallback c' = newItemCallback c;
  ss_expireCallback : expireCallback c' = expireCallback c;
  ss_checkExpireCallback : checkExpireCallback c' = checkExpireCallback c;
  ss_skipTTLExtension : skipTTLExtension c' = skipTTLExtension c;
  ss_heap_length : length (heap c') = length (heap c);
  ss_index_length : length (priorityQueue c') = length (priorityQueue c);
  ss_index_elem : forall b, b ∈ priorityQueue c' <-> b ∈ priorityQueue c
}.

End Vocabulary.

(** * Concrete entries, indexes and stores *)

Section Samples.

Local Open Scope string_scope.
Local Open Scope Z_scope.

(** An entry with a deadline, and one without. *)
Definition due_entry : Item string := mkItem "a" "v" 5 105 0.
Definition idle_entry : Item string := mkItem "u" "v" (-1) 0 1.
Definition two_entries : pqueue string :=
  mkPQ [due_entry; idle_entry] [0%nat; 1%nat].

(** A store whose only key, ["a"], has outlived its TTL of 5 by the time
    it is written again at instant 200, before any eviction pass ran. *)
Definition stale_key_store : result (Cache string) :=
  let* c := NewCache 50 in
  let c := SetNewItemCallback c true in
  SetWithTTL 100 c "a" "v1" 5.

(** What the second write leaves behind, and what a read finds after the
    next eviction pass. *)
Definition stale_key_rewrite :=
  let* c1 := stale_key_store in
  let* c2 := SetWithTTL 200 c1 "a" "v2" 50 in
  let* c3 := evictionPass 201 c2 in
  let* (c4, found, hit) := Get 202 c3 "a" in
  Ok (cache_items c1 !! "a", priorityQueue c1,
      cache_items c2 !! "a", priorityQueue c2, heap c2, events c2,
      cache_items c3 !! "a", priorityQueue c3, found, hit).

(** A store reached through the interface: ["u"] is written with the
    global-TTL sentinel while no global TTL is set, ["a"] with a TTL of 5;
    then the global TTL is set to 7, the extension on read is switched
    off, and ["u"] is read, which promotes its TTL to 7 and leaves its
    deadline unset. The veto callback keeps ["a"] and lets go of the
    rest. *)
Definition veto_store : result (Cache string) :=
  let* c := NewCache 50 in
  let* c := Set_ 100 c "u" "d" in
  let* c := SetWithTTL 100 c "a" "d" 5 in
  let c := SetTTL c 7 in
  let c := SkipTtlExtensionOnHit c true in
  let* (c, _, _) := Get 101 c "u" in
  Ok (SetCheckExpirationCallback c
        (Some (fun k _ => negb (String.eqb k "a")))).

Definition veto_store_pass :=
  match veto_store with
  | Ok c => (Some (priorityQueue c, heap c), evictionPass 200 c)
  | _ => (None, OutOfFuel)
  end.

(** Two stores reached through the interface: one holds a never-expiring
    entry under a global TTL of two hours, the other an entry that is due
    at instant 1500. *)
Definition long_ttl_store : result (Cache string) :=
  let* c := NewCache 1 in
  let* c := SetWithTTL 1 c "k" "v" ItemNotExpire in
  Ok (SetTTL c (2 * Hour)).

Definition due_store : result (Cache string) :=
  let* c := NewCache 1 in
  SetWithTTL 1000 c "k" "v" 500.

(** A consistent store with the two entries, and a global TTL of 7. *)
Definition two_entry_store : Cache string :=
  mkCache 7 {[ "a" := 0%nat; "u" := 1%nat ]} false None false
    [0%nat; 1%nat] 50 false false [due_entry; idle_entry] [].

(** A store whose one entry waits for the global TTL. *)
Definition waiting_entry : Item string := mkItem "w" "d" 0 0 0.
Definition waiting_store : Cache string :=
  mkCache 7 {[ "w" := 0%nat ]} false None false
    [0%nat] 50 false false [waiting_entry] [].


(** An index that holds the first of the two entries only. *)
Definition one_entry : pqueue string :=
  mkPQ [due_entry; idle_entry] [0%nat].

(** A key written with the global-TTL sentinel while no global TTL is set:
    its entry has a TTL of 0 and no deadline. Then a global TTL of two
    hours is set, the extension on read is switched off, and the key is
    read at instant 101 and again at instant 102. *)
Definition promoted_key_reads :=
  let* c := NewCache 50 in
  let* c := Set_ 100 c "u" "d" in
  let c := SetTTL c (2 * Hour) in
  let c := SkipTtlExtensionOnHit c true in
  let* (c1, v1, found1) := Get 101 c "u" in
  let* it := deref (heap c1) 0%nat in
  let* d := sleepTime 102 c1 in
  let* (c2, v2, found2) := Get 102 c1 "u" in
  Ok (heap c, v1, found1, heap c1, IsZero (ExpireAt it), expired 102 it, d,
      v2, found2, cache_items c2 !! "u").


(** Push both entries, give the head a later deadline, pop, remove. *)
Definition sample_ops : list op :=
  [OpPush 1%nat; OpPush 0%nat; OpUpdate 0%nat 300; OpPop; OpRemove 1%nat].

(** The harness of [priority_queue_test.go]: [queue.push(newItem(...))] for
    each key and TTL in turn, and [queue.pop()] until the queue is empty. *)
Definition Second : Duration := 1000000000.

Fixpoint push_new (now : Time) (pq : pqueue string)
    (l : list (string * Duration)) : result (pqueue string) :=
  match l with
  | [] => Ok pq
  | (k, d) :: l =>
      let x := length (mem pq) in
      let* pq := push (mkPQ (mem pq ++ [newItem now k "Data" d]) (items pq)) x in
      push_new now pq l
  end.

Fixpoint pop_keys (n : nat) (pq : pqueue string)
    : result (list string * pqueue string) :=
  match n with
  | O => Ok ([], pq)
  | S n =>
      let* (pq, r) := pop pq in
      match r with
      | None => Ok ([], pq)
      | Some x =>
          let* it := deref (mem pq) x in
          let* (ks, pq) := pop_keys n pq in
          Ok (key it :: ks, pq)
      end
  end.

End Samples.

(** * More of the store, and the vocabulary of its further properties *)

Section MoreStore.

Context {V : Type}.
Implicit Types (it : Item V) (pq : pqueue V).

Definition set_isShutDown (b : bool) (c : Cache V) : Cache V :=
  mkCache (ttl c) (cache_items c) (expireCallback c) (checkExpireCallback c)
    (newItemCallback c) (priorityQueue c) (expirationTime c)
    (skipTTLExtension c) b (heap c) (events c).

(** [Close]: the first call marks the store shut down, sends the sweep loop
    the request to stop and waits for its answer; every call then purges.
    The boolean returned tells whether the call went through that
    handshake. *)
Definition Close (c : Cache V) : result (Cache V * bool) :=
  if negb (isShutDown c)
  then let* c := Purge (set_isShutDown true c) in Ok (c, true)
  else let* c := Purge c in Ok (c, false).

(** The loop of [TestPriorityQueueRemove]: [queue.pop()] until it returns
    [nil]; the entries come back in the order they were popped. *)
Fixpoint drain (fuel : nat) pq : result (list addr * pqueue V) :=
  match fuel with
  | O => OutOfFuel
  | S fuel =>
      let* (pq, item) := pop pq in
      match item with
      | None => Ok ([], pq)
      | Some x => let* (l, pq) := drain fuel pq in Ok (x :: l, pq)
      end
  end.

(** The TTL an entry ends up with when it is written with [d]: the global
    TTL if [d] is the sentinel 0 and a global TTL is set, else [d]. *)
Definition effective_ttl (c : Cache V) (d : Duration) : Duration :=
  if (0 <? ttl c) && (d =? 0) then ttl c else d.

(** The answer of the veto callback on an entry: keep it? *)
Definition vetoed (c : Cache V) it : bool :=
  match checkExpireCallback c with
  | Some check => negb (check (key it) (Data it))
  | None => false
  end.

(** The deadline of the entry at an address. *)
Definition expiry (m : list (Item V)) (a : addr) : Time :=
  match m !! a with
  | Some it => ExpireAt it
  | None => 0
  end.

(** The index of the store is in heap order. *)
Definition store_ordered (c : Cache V) : Prop :=
  heap_ordered (the_pq c) (Len (the_pq c)).

(** [same_config c c']: the settings of the store were left alone. *)
Record same_config (c c' : Cache V) : Prop := mk_same_config {
  sc_ttl : ttl c' = ttl c;
  sc_expireCallback : expireCallback c' = expireCallback c;
  sc_checkExpireCallback : checkExpireCallback c' = checkExpireCallback c;
  sc_newItemCallback : newItemCallback c' = newItemCallback c;
  sc_skipTTLExtension : skipTTLExtension c' = skipTTLExtension c;
  sc_isShutDown : isShutDown c' = isShutDown c;
  sc_expirationTime : expirationTime c' = expirationTime c
}.

(** The entry a hit of [GetItem] leaves: promoted to the global TTL and
    touched, if it is eligible for time-based expiry. *)
Definition read_entry (now : Time) (c : Cache V) it : Item V :=
  if eligible c it
  then let it := promote c it in
       if negb (skipTTLExtension c) then touch now it else it
  else it.

(** A key is live when the map holds it and its entry has not expired. *)
Definition live (now : Time) (c : Cache V) (k : string) : bool :=
  match cache_items c !! k with
  | Some a => match heap c !! a with
              | Some it => negb (expired now it)
              | None => false
              end
  | None => false
  end.

(** The veto callback, if there is one, lets every entry go / keeps every
    entry. *)
Definition never_vetoes (c : Cache V) : Prop := forall it, vetoed c it = false.
Definition always_vetoes (c : Cache V) : Prop := forall it, vetoed c it = true.

(** The index is empty, or the entry at its head has not expired. *)
Definition head_unexpired (now : Time) (c : Cache V) : Prop :=
  match priorityQueue c with
  | [] => True
  | a :: _ => exists it, heap c !! a = Some it /\ expired now it = false
  end.

(** [evicted now c b k d]: the entry at [b], of key [k] and data [d], is in
    the index of [c], has expired at [now] and is not kept by the veto
    callback. *)
Definition evicted (now : Time) (c : Cache V) (b : addr) (k : string) (d : V)
    : Prop :=
  b ∈ priorityQueue c /\
  exists it, heap c !! b = Some it /\ key it = k /\ Data it = d /\
    expired now it = true /\ vetoed c it = false.

(** [swept now c c']: what an eviction pass at [now] may have done to get
    from [c] to [c']. The settings are the same and nothing was
    allocated; the map and the index only lost entries. No payload was
    written but the deadline of expired entries the veto callback keeps,
    which is set anew. A key is gone from the map only if an entry of
    that key was evicted, and every event is the expiration callback for
    an evicted entry, one per entry taken off the index if that callback
    is set. *)
Record swept (now : Time) (c c' : Cache V) : Prop := mk_swept {
  swp_config : same_config c c';
  swp_map : forall (k : string) (a : addr),
      cache_items c' !! k = Some a -> cache_items c !! k = Some a;
  swp_index : forall b, b ∈ priorityQueue c' -> b ∈ priorityQueue c;
  swp_index_length :
      (length (priorityQueue c') <= length (priorityQueue c))%nat;
  swp_heap_length : length (heap c') = length (heap c);
  swp_payload : forall (a : addr) it, heap c !! a = Some it ->
      exists it', heap c' !! a = Some it' /\
        key it' = key it /\ Data it' = Data it /\ TTL it' = TTL it /\
        (ExpireAt it' = ExpireAt it \/
         (expired now it = true /\ vetoed c it = true /\
          ExpireAt it' = now + TTL it));
  swp_gone : forall (k : string) (a : addr),
      cache_items c !! k = Some a -> cache_items c' !! k = None ->
      exists (b : addr) d, evicted now c b k d /\ b ∉ priorityQueue c';
  swp_events : exists es, events c' = events c ++ es /\
      Forall (fun e => exists b k d, e = ExpireCallback k d /\
                                     evicted now c b k d) es /\
      (if expireCallback c
       then (length (priorityQueue c') + length es)%nat
            = length (priorityQueue c)
       else es = []);
  swp_ordered : store_ordered c -> store_ordered c'
}.

(** The two ways the eviction pass deals with an expired entry [it] at
    address [a]: touched and kept, the index being [pq'] after [update];
    or taken out of the map, the index being [pq'] after [remove]. *)
Definition keep_entry (now : Time) (c : Cache V) (a : addr) it pq' : Cache V :=
  with_pq pq' (set_heap (<[a := touch now it]> (heap c)) c).

Definition evict_entry (c : Cache V) it pq' : Cache V :=
  let c := with_pq pq' c in
  let c := set_cache_items (delete (key it) (cache_items c)) c in
  if expireCallback c then emit (ExpireCallback (key it) (Data it)) c else c.

(** The call installs a veto callback. *)
Definition installs_veto (f : @call V) : bool :=
  match f with
  | CallSetCheckExpirationCallback (Some _) => true
  | _ => false
  end.





(** [others_kept a m m']: the entries at addresses other than [a] have in
    [m'] the payload they have in [m]. *)
Definition others_kept (a : addr) (m m' : list (Item V)) : Prop :=
  forall (b : addr) it, m !! b = Some it -> b <> a ->
    exists it', m' !! b = Some it' /\ same_payload it it'.

End MoreStore.

(** * Facts about the expiration index *)

Section IndexFacts.

Context {V : Type}.
Implicit Types (pq : pqueue V) (m : memory V) (it : Item V).

Lemma index_Ok {A : Type} (l : list A) (i : Z) :
  0 <= i < Z.of_nat (length l) ->
  exists x, l !! Z.to_nat i = Some x /\ index l i = Ok x.
Proof.
  intros Hi. unfold index.
  destruct (lookup_lt_is_Some_2 l (Z.to_nat i)) as [x Hx]; [lia|].
  exists x. split; [done|].
  replace (i <? 0) with false by lia.
  replace (Z.of_nat (length l) <=? i) with false by lia.
  simpl. by rewrite Hx.
Qed.

Lemma index_inv {A : Type} (l : list A) (i : Z) (x : A) :
  index l i = Ok x ->
  0 <= i < Z.of_nat (length l) /\ l !! Z.to_nat i = Some x.
Proof.
  unfold index. intros H.
  destruct (i <? 0) eqn:E1; [done|].
  destruct (Z.of_nat (length l) <=? i) eqn:E2; [done|].
  simpl in H. destruct (l !! Z.to_nat i) eqn:E3; [|done].
  split; [lia|congruence].
Qed.

Lemma index_out {A : Type} (l : list A) (i : Z) :
  i < 0 \/ Z.of_nat (length l) <= i -> index l i = Panic IndexOutOfRange.
Proof.
  intros H. unfold index.
  destruct (i <? 0) eqn:E1; [done|].
  destruct (Z.of_nat (length l) <=? i) eqn:E2; [done|]. lia.
Qed.

Lemma leT_refl a : leT a a.
Proof. unfold leT, lessT, IsZero, Before. repeat case_match; lia. Qed.

Lemma leT_trans a b c : leT a b -> leT b c -> leT a c.
Proof. unfold leT, lessT, IsZero, Before. repeat case_match; lia. Qed.

Lemma lessT_leT a b : lessT a b = true -> leT a b.
Proof. unfold leT, lessT, IsZero, Before. repeat case_match; lia. Qed.

Lemma leT_total a b : lessT a b = false -> leT b a.
Proof. done. Qed.

Lemma tracked_inj pq (k1 k2 : nat) a :
  tracked pq -> items pq !! k1 = Some a -> items pq !! k2 = Some a -> k1 = k2.
Proof.
  intros T H1 H2.
  destruct (T _ _ H1) as (x & Hx & Ex), (T _ _ H2) as (y & Hy & Ey).
  rewrite Hx in Hy. injection Hy as <-. lia.
Qed.

Lemma tracked_NoDup pq : tracked pq -> NoDup (items pq).
Proof.
  intros T. apply NoDup_alt. intros i j x Hi Hj. eauto using tracked_inj.
Qed.

Lemma tracked_slot pq (i : Z) :
  tracked pq -> 0 <= i < Len pq ->
  exists a it, items pq !! Z.to_nat i = Some a /\ index (items pq) i = Ok a /\
               mem pq !! a = Some it /\ queueIndex it = i /\
               deadline pq i = ExpireAt it.
Proof.
  intros T Hi. unfold Len in Hi.
  destruct (index_Ok (items pq) i Hi) as (a & Ha & Hidx).
  destruct (T _ _ Ha) as (it & Hit & Hq).
  exists a, it. repeat split; try done; [lia|].
  unfold deadline. replace (i <? 0) with false by lia. by rewrite Ha, Hit.
Qed.

Lemma Less_spec pq (i j : Z) :
  tracked pq -> 0 <= i < Len pq -> 0 <= j < Len pq ->
  Less pq i j = Ok (lessT (deadline pq i) (deadline pq j)).
Proof.
  intros T Hi Hj.
  destruct (tracked_slot pq i T Hi) as (a & x & _ & Ha & Hx & _ & Da).
  destruct (tracked_slot pq j T Hj) as (b & y & _ & Hb & Hy & _ & Db).
  unfold Less, deref, lessT. rewrite Ha, Da, Db. cbn [bind]. rewrite Hx. cbn [bind].
  destruct (IsZero (ExpireAt x)); [done|].
  rewrite Hb. cbn [bind]. rewrite Hy. cbn [bind].
  by destruct (IsZero (ExpireAt y)).
Qed.

End IndexFacts.

Section Rearrangement.

Context {V : Type}.
Implicit Types (pq : pqueue V) (m : memory V) (it : Item V).

Lemma lookup_insert2 {A : Type} (l : list A) (i j k : nat) (x y : A) :
  i <> j -> (i < length l)%nat -> (j < length l)%nat ->
  <[j:=y]> (<[i:=x]> l) !! k =
    if decide (k = j) then Some y
    else if decide (k = i) then Some x else l !! k.
Proof.
  intros Hij Hi Hj.
  destruct (decide (k = j)) as [->|Hkj].
  - apply list_lookup_insert_eq. by rewrite length_insert.
  - rewrite list_lookup_insert_ne by done.
    destruct (decide (k = i)) as [->|Hki].
    + by apply list_lookup_insert_eq.
    + by rewrite list_lookup_insert_ne.
Qed.

Lemma same_payload_refl it : same_payload it it.
Proof. by repeat split. Qed.

Lemma same_payload_trans it1 it2 it3 :
  same_payload it1 it2 -> same_payload it2 it3 -> same_payload it1 it3.
Proof. unfold same_payload. intuition congruence. Qed.

Lemma same_payload_set_queueIndex it i : same_payload it (set_queueIndex i it).
Proof. by repeat split. Qed.

Lemma set_queueIndex_id it : set_queueIndex (queueIndex it) it = it.
Proof. by destruct it. Qed.

Lemma rearranged_refl pq : tracked pq -> rearranged pq pq.
Proof.
  intros T. split; try done.
  intros a it H. exists it. split; [done|apply same_payload_refl].
Qed.

Lemma rearranged_trans pq1 pq2 pq3 :
  rearranged pq1 pq2 -> rearranged pq2 pq3 -> rearranged pq1 pq3.
Proof.
  intros [T1 E1 L1 M1 P1 F1] [T2 E2 L2 M2 P2 F2]. split.
  - done.
  - intros a. by rewrite E2, E1.
  - congruence.
  - congruence.
  - intros a it H. destruct (P1 _ _ H) as (it2 & H2 & S2).
    destruct (P2 _ _ H2) as (it3 & H3 & S3).
    exists it3. eauto using same_payload_trans.
  - intros a Ha. rewrite F2, F1; [done|done|]. by rewrite E1.
Qed.

Lemma rearranged_Len pq pq' : rearranged pq pq' -> Len pq' = Len pq.
Proof. intros R. unfold Len. by rewrite (re_length _ _ R). Qed.

Lemma Swap_same pq (i : Z) :
  tracked pq -> 0 <= i < Len pq -> Swap pq i i = Ok pq.
Proof.
  intros T Hi.
  destruct (tracked_slot pq i T Hi) as (a & x & Ha & Hidx & Hx & Hq & _).
  assert (Hid : set_queueIndex i x = x).
  { rewrite <- Hq. apply set_queueIndex_id. }
  unfold Swap. rewrite Hidx. cbn [bind].
  rewrite !(list_insert_id _ _ _ Ha).
  unfold record_position, deref. rewrite Hidx. cbn [bind].
  rewrite Hx. cbn [bind]. rewrite Hid.
  rewrite (list_insert_id _ _ _ Hx). rewrite Hx. cbn [bind]. rewrite Hid.
  rewrite (list_insert_id _ _ _ Hx). by destruct pq.
Qed.

Lemma Swap_spec pq (i j : Z) :
  tracked pq -> 0 <= i < Len pq -> 0 <= j < Len pq ->
  exists pq', Swap pq i j = Ok pq' /\ rearranged pq pq' /\
    (forall k, deadline pq' k = deadline pq (sw i j k)) /\
    (forall k : nat, Z.of_nat k <> i -> Z.of_nat k <> j ->
       items pq' !! k = items pq !! k) /\
    items pq' !! Z.to_nat j = items pq !! Z.to_nat i.
Proof.
  intros T Hi Hj.
  destruct (decide (i = j)) as [<-|Hij].
  { exists pq. split; [by apply Swap_same|]. split; [by apply rearranged_refl|].
    split; [|done]. intros k. unfold sw. destruct (k =? i) eqn:E; [|done].
    by replace k with i by lia. }
  destruct (tracked_slot pq i T Hi) as (a & x & Ha & Hia & Hx & Hqx & Dx).
  destruct (tracked_slot pq j T Hj) as (b & y & Hb & Hib & Hy & Hqy & Dy).
  assert (Hab : a <> b).
  { intros ->. pose proof (tracked_inj _ _ _ _ T Ha Hb). lia. }
  pose proof (lookup_lt_Some _ _ _ Ha) as La.
  pose proof (lookup_lt_Some _ _ _ Hb) as Lb.
  pose proof (lookup_lt_Some _ _ _ Hx) as Lx.
  pose proof (lookup_lt_Some _ _ _ Hy) as Ly.
  set (q := <[Z.to_nat j := a]> (<[Z.to_nat i := b]> (items pq))).
  set (m2 := <[a := set_queueIndex j x]> (<[b := set_queueIndex i y]> (mem pq))).
  assert (Hq : forall k, q !! k =
      if decide (k = Z.to_nat j) then Some a
      else if decide (k = Z.to_nat i) then Some b else items pq !! k).
  { intros k. apply lookup_insert2; lia. }
  assert (Hm : forall c, m2 !! c =
      if decide (c = a) then Some (set_queueIndex j x)
      else if decide (c = b) then Some (set_queueIndex i y) else mem pq !! c).
  { intros c. apply lookup_insert2; [congruence|lia|lia]. }
  assert (Lq : length q = length (items pq)).
  { unfold q. by rewrite !length_insert. }
  exists (mkPQ m2 q). split; [|split; [|split; [|split]]].
  - unfold Swap. rewrite Hia, Hib. cbn [bind]. fold q.
    assert (Hqi : index q i = Ok b).
    { destruct (index_Ok q i) as (c & Hc & ->); [lia|].
      rewrite Hq in Hc. repeat case_decide; try lia; congruence. }
    assert (Hqj : index q j = Ok a).
    { destruct (index_Ok q j) as (c & Hc & ->); [lia|].
      rewrite Hq in Hc. repeat case_decide; try lia; congruence. }
    unfold record_position, deref. rewrite Hqi. cbn [bind].
    rewrite Hy. cbn [bind]. rewrite Hqj. cbn [bind].
    rewrite list_lookup_insert_ne by done. rewrite Hx. done.
  - split; simpl.
    + intros k c Hk. rewrite Hq in Hk. rewrite Hm.
      destruct (decide (k = Z.to_nat j)) as [->|Hkj].
      { injection Hk as <-. rewrite decide_True by done.
        eexists. split; [done|]. simpl. lia. }
      destruct (decide (k = Z.to_nat i)) as [->|Hki].
      { injection Hk as <-. rewrite decide_False by done.
        rewrite decide_True by done. eexists. split; [done|]. simpl. lia. }
      assert (c <> a) by (intros ->; apply Hki; eauto using tracked_inj).
      assert (c <> b) by (intros ->; apply Hkj; eauto using tracked_inj).
      rewrite !decide_False by done. by apply T.
    + intros c. rewrite !list_elem_of_lookup. split; intros [k Hk].
      * rewrite Hq in Hk. repeat case_decide; simplify_eq; eauto.
      * destruct (decide (k = Z.to_nat i)) as [->|Hki].
        { exists (Z.to_nat j). rewrite Hq, decide_True by done. congruence. }
        destruct (decide (k = Z.to_nat j)) as [->|Hkj].
        { exists (Z.to_nat i). rewrite Hq, decide_False by lia.
          rewrite decide_True by done. congruence. }
        exists k. rewrite Hq. by rewrite !decide_False.
    + done.
    + unfold m2. by rewrite !length_insert.
    + intros c it Hc. rewrite Hm. repeat case_decide; simplify_eq.
      * eexists. split; [done|]. apply same_payload_set_queueIndex.
      * eexists. split; [done|]. apply same_payload_set_queueIndex.
      * eexists. split; [done|]. apply same_payload_refl.
    + intros c Hc. rewrite Hm.
      assert (c <> a) by (intros ->; apply Hc; eauto using list_elem_of_lookup_2).
      assert (c <> b) by (intros ->; apply Hc; eauto using list_elem_of_lookup_2).
      by rewrite !decide_False.
  - intros k. unfold deadline, sw. simpl.
    destruct (k <? 0) eqn:Ek.
    { replace (k =? i) with false by lia. replace (k =? j) with false by lia.
      by rewrite Ek. }
    rewrite Hq.
    destruct (k =? i) eqn:Eki.
    { replace (j <? 0) with false by lia. rewrite Hb, Hy.
      rewrite decide_False by lia. rewrite decide_True by lia.
      rewrite Hm. rewrite decide_False by done. by rewrite decide_True. }
    destruct (k =? j) eqn:Ekj.
    { replace (i <? 0) with false by lia. rewrite Ha, Hx.
      rewrite decide_True by lia. rewrite Hm. by rewrite decide_True. }
    rewrite Ek. rewrite !decide_False by lia.
    destruct (items pq !! Z.to_nat k) as [c|] eqn:Hc; [|done].
    assert (c <> a).
    { intros ->. pose proof (tracked_inj _ _ _ _ T Ha Hc). lia. }
    assert (c <> b).
    { intros ->. pose proof (tracked_inj _ _ _ _ T Hb Hc). lia. }
    rewrite Hm. by rewrite !decide_False.
  - intros k Hki Hkj. simpl. rewrite Hq. rewrite !decide_False by lia. done.
  - simpl. rewrite Hq. by rewrite decide_True.
Qed.

End Rearrangement.

(** * The sifting loops keep the heap in order *)

Ltac sw_cases :=
  unfold sw;
  repeat match goal with
         | |- context [?a =? ?b] => destruct (Z.eqb_spec a b)
         end.

Section HeapOrder.

Context {V : Type}.
Implicit Types (pq : pqueue V) (it : Item V).

Lemma up_loop_spec (fuel : nat) : forall pq (j : Z),
  tracked pq -> 0 <= j < Len pq -> (Z.to_nat j < fuel)%nat ->
  exists pq', up_loop fuel pq j = Ok pq' /\ rearranged pq pq' /\
    (forall k : nat, j < Z.of_nat k -> items pq' !! k = items pq !! k) /\
    (forall n, ordered_below pq j n -> bridged pq j n -> heap_ordered pq' n).
Proof.
  induction fuel as [|fuel IH]; intros pq j T Hj Hf; [lia|].
  cbn [up_loop].
  destruct (Z.eqb_spec (Z.quot (j - 1) 2) j) as [E|E].
  { exists pq. split; [done|]. split; [by apply rearranged_refl|].
    split; [done|]. intros n O _ p c Hc Hn. apply O; try done.
    destruct Hc. zlia. }
  set (i := Z.quot (j - 1) 2) in *.
  assert (Hi : 0 <= i < j /\ child i j) by (unfold child, i; zlia).
  rewrite Less_spec by (try done; lia). cbn [bind].
  destruct (lessT (deadline pq j) (deadline pq i)) eqn:Hlt; cbn [negb].
  2:{ exists pq. split; [done|]. split; [by apply rearranged_refl|].
      split; [done|]. intros n O _ p c Hc Hn.
      destruct (decide (c = j)) as [->|Hcj]; [|by apply O].
      replace p with i by (destruct Hc, Hi as [_ []]; lia). done. }
  destruct (Swap_spec pq i j T) as (pq1 & -> & R1 & D1 & F1 & _); [lia|lia|].
  cbn [bind].
  destruct (IH pq1 i) as (pq' & -> & R' & F' & O'); [apply R1| |lia|].
  { rewrite (rearranged_Len _ _ R1). lia. }
  exists pq'. split; [done|]. split; [eauto using rearranged_trans|].
  split. { intros k Hk. rewrite F' by lia. apply F1; lia. }
  intros n O B. apply O'.
  - intros p c Hc Hn Hci. rewrite !D1.
    destruct (decide (c = j)) as [->|Hcj].
    + replace p with i by (destruct Hc, Hi as [_ []]; lia).
      sw_cases; try lia. by apply lessT_leT.
    + destruct (decide (p = i)) as [->|Hpi].
      * sw_cases; try lia. apply leT_trans with (deadline pq i).
        { by apply lessT_leT. } by apply O.
      * destruct (decide (p = j)) as [->|Hpj].
        { sw_cases; try lia. apply B; [apply Hi|done|done]. }
        sw_cases; try lia. by apply O.
  - intros g c Hg Hc Hn. rewrite !D1.
    assert (g < i) by (destruct Hg; lia).
    destruct (decide (c = j)) as [->|Hcj].
    + sw_cases; try lia. apply O; [done|lia|lia].
    + sw_cases; try (destruct Hc; lia).
      apply leT_trans with (deadline pq i).
      * apply O; [done|destruct Hc; lia|lia].
      * by apply O.
Qed.

Lemma down_loop_spec (fuel : nat) : forall pq (i n : Z),
  tracked pq -> 0 <= i -> n <= Len pq -> (Z.to_nat (n - i) < fuel)%nat ->
  exists pq' i', down_loop fuel pq i n = Ok (pq', i') /\ i <= i' /\
    rearranged pq pq' /\
    (forall k : nat, Z.of_nat k < i \/ n <= Z.of_nat k ->
       items pq' !! k = items pq !! k) /\
    (i' = i -> pq' = pq) /\
    (ordered_apart pq i n -> bridged pq i n ->
       ordered_below pq' i n /\
       (i < i' -> forall g, child g i ->
          leT (deadline pq' g) (deadline pq' i))).
Proof.
  induction fuel as [|fuel IH]; intros pq i n T Hi Hn Hf; [lia|].
  cbn [down_loop].
  destruct ((n <=? 2 * i + 1) || (2 * i + 1 <? 0)) eqn:Hbrk.
  { exists pq, i. split; [done|]. split; [lia|].
    split; [by apply rearranged_refl|]. do 2 (split; [done|]).
    intros A _. split; [|lia].
    intros p c Hc Hcn Hci. apply A; try done.
    intros ->. destruct Hc. lia. }
  assert (Hj1 : 2 * i + 1 < n) by lia.
  set (D := deadline pq).
  assert (Hpick : exists j,
    (if 2 * i + 1 + 1 <? n
     then let* lt := Less pq (2 * i + 1 + 1) (2 * i + 1) in
          Ok (if lt then 2 * i + 1 + 1 else 2 * i + 1)
     else Ok (2 * i + 1)) = Ok j /\ child i j /\ j < n /\
    (forall c, child i c -> c < n -> leT (D j) (D c))).
  { destruct (2 * i + 1 + 1 <? n) eqn:Hj2.
    - rewrite Less_spec by (try done; lia). cbn [bind]. fold D.
      destruct (lessT (D (2 * i + 1 + 1)) (D (2 * i + 1))) eqn:Hlt.
      + exists (2 * i + 1 + 1). split; [done|]. split; [unfold child; lia|].
        split; [lia|]. intros c [_ [->| ->]] _.
        * by apply lessT_leT.
        * replace (2 * i + 2) with (2 * i + 1 + 1) by lia. apply leT_refl.
      + exists (2 * i + 1). split; [done|]. split; [unfold child; lia|].
        split; [lia|]. intros c [_ [->| ->]] _.
        * apply leT_refl.
        * replace (2 * i + 2) with (2 * i + 1 + 1) by lia. done.
    - exists (2 * i + 1). split; [done|]. split; [unfold child; lia|].
      split; [lia|]. intros c [_ [->| ->]] Hc; [apply leT_refl|lia]. }
  destruct Hpick as (j & -> & Hij & Hjn & Hmin). cbn [bind].
  assert (Hij' : i < j) by (destruct Hij; lia).
  rewrite Less_spec by (try done; lia). cbn [bind]. fold D.
  destruct (lessT (D j) (D i)) eqn:Hlt; cbn [negb].
  2:{ exists pq, i. split; [done|]. split; [lia|].
      split; [by apply rearranged_refl|]. do 2 (split; [done|]).
      intros A _. split; [|lia].
      intros p c Hc Hcn Hci.
      destruct (decide (p = i)) as [->|Hpi]; [|by apply A].
      apply leT_trans with (D j); [done|by apply Hmin]. }
  destruct (Swap_spec pq i j T) as (pq1 & -> & R1 & D1 & F1 & _); [lia|lia|].
  cbn [bind].
  destruct (IH pq1 j n) as (pq' & i' & -> & Hi' & R' & F' & Hsame & O');
    [apply R1|lia| |lia|].
  { rewrite (rearranged_Len _ _ R1). lia. }
  exists pq', i'. split; [done|]. split; [lia|].
  split; [eauto using rearranged_trans|].
  split. { intros k Hk. rewrite F' by lia. apply F1; lia. }
  split; [lia|]. intros A B.
  destruct O' as [O' P'].
  - intros p c Hc Hcn Hpj Hcj. rewrite !D1.
    destruct (decide (c = i)) as [->|Hci].
    + assert (p < i) by (destruct Hc; lia).
      sw_cases; try lia. by apply B.
    + destruct (decide (p = i)) as [->|Hpi].
      * sw_cases; try lia. by apply Hmin.
      * sw_cases; try lia. by apply A.
  - intros g c Hg Hc Hcn. rewrite !D1.
    replace g with i by (destruct Hg, Hij; lia).
    assert (j < c) by (destruct Hc; lia).
    sw_cases; try lia. apply A; try done; lia.
  - split.
    + intros p c Hc Hcn Hci.
      destruct (decide (c = j)) as [->|Hcj]; [|by apply O'].
      replace p with i by (destruct Hc, Hij; lia).
      destruct (decide (i' = j)) as [Heq|Hne].
      * rewrite (Hsame Heq), !D1. sw_cases; try lia. by apply lessT_leT.
      * apply P'; [lia|done].
    + intros _ g Hg. apply O'; [done|lia|destruct Hg; lia].
Qed.

End HeapOrder.

(** * The operations of [container/heap] and of [priorityQueue] *)

Section HeapOperations.

Context {V : Type}.
Implicit Types (pq : pqueue V) (it : Item V).

Lemma up_spec pq (j : Z) :
  tracked pq -> 0 <= j < Len pq ->
  exists pq', up pq j = Ok pq' /\ rearranged pq pq' /\
    (forall k : nat, j < Z.of_nat k -> items pq' !! k = items pq !! k) /\
    (forall n, ordered_below pq j n -> bridged pq j n -> heap_ordered pq' n).
Proof. intros T Hj. apply up_loop_spec; [done|done|lia]. Qed.

Lemma down_spec pq (i n : Z) :
  tracked pq -> 0 <= i -> n <= Len pq ->
  exists pq' moved, down pq i n = Ok (pq', moved) /\ rearranged pq pq' /\
    (forall k : nat, Z.of_nat k < i \/ n <= Z.of_nat k ->
       items pq' !! k = items pq !! k) /\
    (moved = false -> pq' = pq) /\
    (ordered_apart pq i n -> bridged pq i n ->
       ordered_below pq' i n /\
       (moved = true -> forall g, child g i ->
          leT (deadline pq' g) (deadline pq' i))).
Proof.
  intros T Hi Hn. unfold down.
  destruct (down_loop_spec (S (Z.to_nat n)) pq i n T Hi Hn)
    as (pq' & i' & -> & Hi' & R & F & Hsame & O); [lia|].
  cbn [bind]. exists pq', (i <? i'). split; [done|]. split; [done|].
  split; [done|]. split; [intros; apply Hsame; lia|].
  intros A B. destruct (O A B) as [O1 O2]. split; [done|].
  intros Hm. apply O2. lia.
Qed.

(** The fix-up [heap.Fix] and [heap.Remove] share: sift down and, if the
    entry stayed in place, sift up. *)
Lemma sift_spec pq (i n : Z) :
  tracked pq -> 0 <= i < n -> n <= Len pq ->
  exists pq',
    (let* (pq1, moved) := down pq i n in
     if negb moved then up pq1 i else Ok pq1) = Ok pq' /\
    rearranged pq pq' /\
    (forall k : nat, n <= Z.of_nat k -> items pq' !! k = items pq !! k) /\
    (ordered_apart pq i n -> bridged pq i n -> heap_ordered pq' n).
Proof.
  intros T Hi Hn.
  destruct (down_spec pq i n T) as (pq1 & moved & -> & R1 & F1 & Hsame & O1);
    [lia|lia|].
  cbn [bind]. destruct moved; cbn [negb].
  - exists pq1. split; [done|]. split; [done|].
    split; [intros; apply F1; lia|].
    intros A B. destruct (O1 A B) as [O P]. intros p c Hc Hcn.
    destruct (decide (c = i)) as [->|Hci]; [by apply P|by apply O].
  - rewrite (Hsame eq_refl) in *.
    destruct (up_spec pq i T) as (pq' & -> & R' & F' & O'); [lia|].
    exists pq'. split; [done|]. split; [done|].
    split; [intros; apply F'; lia|].
    intros A B. apply O'; [|done]. by apply O1.
Qed.

Lemma heap_Fix_spec pq (i : Z) :
  tracked pq -> 0 <= i < Len pq ->
  exists pq', heap_Fix pq i = Ok pq' /\ rearranged pq pq' /\
    (ordered_apart pq i (Len pq) -> bridged pq i (Len pq) ->
     heap_ordered pq' (Len pq)).
Proof.
  intros T Hi. unfold heap_Fix.
  destruct (sift_spec pq i (Len pq) T) as (pq' & -> & R & _ & O); [lia|lia|].
  by exists pq'.
Qed.

(** In an ordered heap no entry is more urgent than the head. *)
Lemma heap_ordered_head pq (n k : Z) :
  heap_ordered pq n -> 0 <= k < n -> leT (deadline pq 0) (deadline pq k).
Proof.
  intros O. revert k.
  induction k as [k IH] using (well_founded_induction (Z.lt_wf 0)).
  intros Hk. destruct (decide (k = 0)) as [->|Hk0]; [apply leT_refl|].
  apply leT_trans with (deadline pq (Z.quot (k - 1) 2)).
  - apply IH; zlia.
  - apply O; [unfold child; zlia|lia].
Qed.

Lemma rearranged_dropped pq pq1 pq2 x :
  rearranged pq pq1 -> dropped pq1 x pq2 -> dropped pq x pq2.
Proof.
  intros [T1 E1 L1 M1 P1 F1] [T2 E2 I2 L2 M2 P2 F2]. split.
  - done.
  - intros a. by rewrite E2, E1.
  - by apply E1.
  - congruence.
  - congruence.
  - intros a it H. destruct (P1 _ _ H) as (it2 & H2 & S2).
    destruct (P2 _ _ H2) as (it3 & H3 & S3).
    exists it3. eauto using same_payload_trans.
  - intros a Ha. rewrite F2, F1; [done|done|]. by rewrite E1.
Qed.

Lemma added_rearranged pq pq1 pq2 x :
  added pq x pq1 -> rearranged pq1 pq2 -> added pq x pq2.
Proof.
  intros [T1 E1 L1 M1 P1 F1] [T2 E2 L2 M2 P2 F2]. split.
  - done.
  - intros a. by rewrite E2, E1.
  - congruence.
  - congruence.
  - intros a it H. destruct (P1 _ _ H) as (it2 & H2 & S2).
    destruct (P2 _ _ H2) as (it3 & H3 & S3).
    exists it3. eauto using same_payload_trans.
  - intros a Ha Hx. rewrite F2, F1; [done|done|done|].
    rewrite E1. tauto.
Qed.

Lemma Pop_spec pq :
  tracked pq -> 0 < Len pq ->
  exists pq' x, Pop pq = Ok (pq', x) /\
    items pq !! Z.to_nat (Len pq - 1) = Some x /\
    dropped pq x pq' /\
    (forall k, k < Len pq - 1 -> deadline pq' k = deadline pq k).
Proof.
  intros T Hn.
  destruct (tracked_slot pq (Len pq - 1) T) as (x & it & Hx & Hidx & Hit & Hq & _);
    [lia|].
  unfold Pop, deref. rewrite Hidx. cbn [bind]. rewrite Hit. cbn [bind].
  eexists _, x. split; [done|]. split; [done|].
  pose proof (lookup_lt_Some _ _ _ Hit) as Lx.
  assert (Hother : forall (k : nat) a, items pq !! k = Some a ->
            (k < Z.to_nat (Len pq - 1))%nat -> a <> x).
  { intros k a Ha Hk ->. pose proof (tracked_inj _ _ _ _ T Ha Hx). lia. }
  split; [split|]; simpl.
  - intros k a [Ha Hk]%lookup_take_Some. cbn [mem].
    rewrite list_lookup_insert_ne by (intros <-; by eapply Hother).
    by apply T.
  - intros a. rewrite elem_of_take, list_elem_of_lookup. split.
    + intros (k & Ha & Hk). split; eauto.
    + intros [[k Ha] Hne]. exists k. split; [done|].
      pose proof (lookup_lt_Some _ _ _ Ha). unfold Len in *.
      destruct (decide (k = Z.to_nat (Z.of_nat (length (items pq)) - 1)));
        [|lia]. subst k. congruence.
  - eauto using list_elem_of_lookup_2.
  - rewrite length_take. unfold Len in *. lia.
  - by rewrite length_insert.
  - intros a it0 Ha. destruct (decide (a = x)) as [->|Hne].
    + rewrite list_lookup_insert_eq by done. eexists. split; [done|].
      replace it0 with it by congruence. apply same_payload_set_queueIndex.
    + rewrite list_lookup_insert_ne by done. eexists. split; [done|].
      apply same_payload_refl.
  - intros a Ha. rewrite list_lookup_insert_ne; [done|].
    intros <-. apply Ha. eauto using list_elem_of_lookup_2.
  - intros k Hk. unfold deadline. simpl.
    destruct (k <? 0) eqn:Ek; [done|].
    rewrite lookup_take_lt by lia.
    destruct (items pq !! Z.to_nat k) as [a|] eqn:Ha; [|done].
    rewrite list_lookup_insert_ne; [done|].
    intros <-. eapply Hother; [apply Ha|lia|done].
Qed.

Lemma Push_spec pq (x : addr) it :
  tracked pq -> x ∉ items pq -> mem pq !! x = Some it ->
  exists pq', Push pq x = Ok pq' /\ added pq x pq' /\
    Len pq' = Len pq + 1 /\
    (forall k, k < Len pq -> deadline pq' k = deadline pq k).
Proof.
  intros T Hx Hit. unfold Push, deref. rewrite Hit. cbn [bind].
  eexists. split; [done|].
  pose proof (lookup_lt_Some _ _ _ Hit) as Lx.
  assert (Hother : forall (k : nat) a, items pq !! k = Some a -> a <> x).
  { intros k a Ha ->. apply Hx. eauto using list_elem_of_lookup_2. }
  split; [split|split]; simpl.
  - intros k a [[Hk Ha]|[-> <-]]%lookup_snoc_Some; cbn [mem].
    + rewrite list_lookup_insert_ne by (intros <-; by eapply Hother).
      by apply T.
    + rewrite list_lookup_insert_eq by done. eexists. split; [done|].
      simpl. unfold Len. done.
  - intros a. rewrite elem_of_app, list_elem_of_singleton. tauto.
  - rewrite length_app. simpl. lia.
  - by rewrite length_insert.
  - intros a it0 Ha. destruct (decide (a = x)) as [->|Hne].
    + rewrite list_lookup_insert_eq by done. eexists. split; [done|].
      replace it0 with it by congruence. apply same_payload_set_queueIndex.
    + rewrite list_lookup_insert_ne by done. eexists. split; [done|].
      apply same_payload_refl.
  - intros a _ Hne. by rewrite list_lookup_insert_ne.
  - unfold Len. simpl. rewrite length_app. simpl. lia.
  - intros k Hk. unfold deadline. simpl.
    destruct (k <? 0) eqn:Ek; [done|]. unfold Len in Hk.
    rewrite lookup_app_l by lia.
    destruct (items pq !! Z.to_nat k) as [a|] eqn:Ha; [|done].
    rewrite list_lookup_insert_ne; [done|]. intros <-. by eapply Hother.
Qed.

Lemma heap_Push_spec pq (x : addr) it :
  tracked pq -> x ∉ items pq -> mem pq !! x = Some it ->
  exists pq', heap_Push pq x = Ok pq' /\ added pq x pq' /\
    (heap_ordered pq (Len pq) -> heap_ordered pq' (Len pq')).
Proof.
  intros T Hx Hit. unfold heap_Push.
  destruct (Push_spec pq x it T Hx Hit) as (pq1 & -> & A1 & L1 & D1).
  cbn [bind]. pose proof (ad_tracked _ _ _ A1) as T1.
  assert (Hn : 0 <= Len pq) by (unfold Len; lia).
  destruct (up_spec pq1 (Len pq1 - 1) T1) as (pq' & -> & R & _ & O); [lia|].
  exists pq'. split; [done|]. split; [eauto using added_rearranged|].
  intros Hord. rewrite (rearranged_Len _ _ R). apply O.
  - intros p c Hc Hcn Hne. rewrite !D1 by (destruct Hc; lia).
    apply Hord; [done|lia].
  - intros g c _ Hc Hcn. destruct Hc. lia.
Qed.

Lemma heap_Pop_spec pq (x : addr) :
  tracked pq -> items pq !! 0%nat = Some x ->
  exists pq', heap_Pop pq = Ok (pq', x) /\ dropped pq x pq' /\
    (heap_ordered pq (Len pq) -> heap_ordered pq' (Len pq')).
Proof.
  intros T Hx. unfold heap_Pop.
  pose proof (lookup_lt_Some _ _ _ Hx) as Lx.
  assert (Hn : 0 < Len pq) by (unfold Len; lia).
  set (n := Len pq - 1).
  destruct (Swap_spec pq 0 n T) as (pq1 & -> & R1 & D1 & _ & S1);
    [lia|lia|].
  cbn [bind]. pose proof (re_tracked _ _ R1) as T1.
  pose proof (rearranged_Len _ _ R1) as L1.
  destruct (down_spec pq1 0 n T1) as (pq2 & moved & -> & R2 & F2 & _ & O2);
    [lia|lia|].
  cbn [bind]. pose proof (re_tracked _ _ R2) as T2.
  pose proof (rearranged_Len _ _ R2) as L2.
  destruct (Pop_spec pq2 T2) as (pq' & y & -> & Hy & Dr & D3); [lia|].
  assert (y = x) as ->.
  { rewrite L2, L1 in Hy. fold n in Hy. rewrite F2 in Hy by lia.
    change (Z.to_nat 0) with 0%nat in S1. congruence. }
  exists pq'. split; [done|].
  split; [eauto using rearranged_dropped, rearranged_trans|].
  intros Hord.
  assert (Len pq' = n) as ->.
  { pose proof (dr_length _ _ _ Dr). unfold Len in *. lia. }
  intros p c Hc Hcn. rewrite !D3 by (destruct Hc; lia).
  apply O2; [| |done|done|destruct Hc; lia].
  - intros p' c' Hc' Hcn' Hp Hcc. rewrite !D1. sw_cases; try (destruct Hc'; lia).
    apply Hord; [done|lia].
  - intros g c' Hg. destruct Hg. lia.
Qed.

Lemma heap_Remove_spec pq (i : Z) (x : addr) :
  tracked pq -> 0 <= i -> items pq !! Z.to_nat i = Some x ->
  exists pq', heap_Remove pq i = Ok (pq', x) /\ dropped pq x pq' /\
    (heap_ordered pq (Len pq) -> heap_ordered pq' (Len pq')).
Proof.
  intros T Hi Hx. unfold heap_Remove.
  pose proof (lookup_lt_Some _ _ _ Hx) as Lx.
  assert (Hn : i < Len pq) by (unfold Len; lia).
  set (n := Len pq - 1).
  assert (Hsift : exists pq2,
    (if negb (n =? i)
     then let* pq1 := Swap pq i n in
          let* (pq2, moved) := down pq1 i n in
          if negb moved then up pq2 i else Ok pq2
     else Ok pq) = Ok pq2 /\ rearranged pq pq2 /\
    items pq2 !! Z.to_nat n = Some x /\
    (heap_ordered pq (Len pq) -> heap_ordered pq2 n)).
  { destruct (Z.eqb_spec n i) as [E|E]; cbn [negb].
    - exists pq. split; [done|]. split; [by apply rearranged_refl|].
      split; [by rewrite E|]. intros Hord p c Hc Hcn. apply Hord; [done|lia].
    - destruct (Swap_spec pq i n T) as (pq1 & -> & R1 & D1 & _ & S1);
        [lia|lia|].
      cbn [bind]. pose proof (re_tracked _ _ R1) as T1.
      pose proof (rearranged_Len _ _ R1) as L1.
      destruct (sift_spec pq1 i n T1) as (pq2 & -> & R2 & F2 & O2);
        [lia|lia|].
      exists pq2. split; [done|]. split; [eauto using rearranged_trans|].
      split. { rewrite F2 by lia. congruence. }
      intros Hord. apply O2.
      + intros p c Hc Hcn Hp Hcc. rewrite !D1.
        sw_cases; try (destruct Hc; lia). apply Hord; [done|lia].
      + intros g c Hg Hc Hcn. rewrite !D1.
        sw_cases; try (destruct Hc, Hg; lia).
        apply leT_trans with (deadline pq i); apply Hord; try done; lia. }
  destruct Hsift as (pq2 & -> & R2 & Hx2 & O2). cbn [bind].
  pose proof (re_tracked _ _ R2) as T2.
  pose proof (rearranged_Len _ _ R2) as L2.
  destruct (Pop_spec pq2 T2) as (pq' & y & -> & Hy & Dr & D3); [lia|].
  assert (y = x) as ->.
  { rewrite L2 in Hy. fold n in Hy. congruence. }
  exists pq'. split; [done|]. split; [eauto using rearranged_dropped|].
  intros Hord.
  assert (Len pq' = n) as ->.
  { pose proof (dr_length _ _ _ Dr). unfold Len in *. lia. }
  intros p c Hc Hcn. rewrite !D3 by (destruct Hc; lia).
  by apply O2.
Qed.

(** What the four methods of [priorityQueue] do on a tracked index. *)

Lemma update_spec pq (x : addr) (k : nat) :
  tracked pq -> items pq !! k = Some x ->
  exists pq', update pq x = Ok pq' /\ rearranged pq pq' /\
    (ordered_apart pq (Z.of_nat k) (Len pq) ->
     bridged pq (Z.of_nat k) (Len pq) -> heap_ordered pq' (Len pq')).
Proof.
  intros T Hx. destruct (T _ _ Hx) as (it & Hit & Hq).
  pose proof (lookup_lt_Some _ _ _ Hx) as Lx.
  unfold update, deref. rewrite Hit. cbn [bind]. rewrite Hq.
  destruct (heap_Fix_spec pq (Z.of_nat k) T) as (pq' & -> & R & O);
    [unfold Len; lia|].
  exists pq'. split; [done|]. split; [done|].
  rewrite (rearranged_Len _ _ R). done.
Qed.

Lemma push_spec pq (x : addr) it :
  tracked pq -> x ∉ items pq -> mem pq !! x = Some it ->
  exists pq', push pq x = Ok pq' /\ added pq x pq' /\
    (heap_ordered pq (Len pq) -> heap_ordered pq' (Len pq')).
Proof. apply heap_Push_spec. Qed.

Lemma pop_empty pq : Len pq = 0 -> pop pq = Ok (pq, None).
Proof. intros H. unfold pop. by rewrite H. Qed.

Lemma pop_spec pq (x : addr) :
  tracked pq -> items pq !! 0%nat = Some x ->
  exists pq', pop pq = Ok (pq', Some x) /\ dropped pq x pq' /\
    (heap_ordered pq (Len pq) -> heap_ordered pq' (Len pq')).
Proof.
  intros T Hx. unfold pop.
  pose proof (lookup_lt_Some _ _ _ Hx) as Lx.
  replace (Len pq =? 0) with false by (unfold Len; lia).
  destruct (heap_Pop_spec pq x T Hx) as (pq' & -> & Dr & O).
  cbn [bind]. by exists pq'.
Qed.

Lemma remove_spec pq (x : addr) (k : nat) :
  tracked pq -> items pq !! k = Some x ->
  exists pq', remove pq x = Ok pq' /\ dropped pq x pq' /\
    (heap_ordered pq (Len pq) -> heap_ordered pq' (Len pq')).
Proof.
  intros T Hx. destruct (T _ _ Hx) as (it & Hit & Hq).
  unfold remove, deref. rewrite Hit. cbn [bind]. rewrite Hq.
  destruct (heap_Remove_spec pq (Z.of_nat k) x T) as (pq' & -> & Dr & O);
    [lia|by rewrite Nat2Z.id|].
  cbn [bind]. by exists pq'.
Qed.

End HeapOperations.

(** * The entry: [touch] and [expired] *)

Section EntryTheorems.

Context {V : Type}.
Implicit Types (it : Item V) (pq : pqueue V).

(** C7. [touch] on an entry with [ttl > 0] sets [expire_at] to
    [now + ttl] and writes nothing else; with [ttl <= 0] it is a no-op, so
    an entry whose [expire_at] is unset keeps it unset. *)
Theorem touch_sets_deadline (now : Time) it :
  (0 < TTL it ->
     touch now it = set_ExpireAt (now + TTL it) it /\
     ExpireAt (touch now it) = now + TTL it) /\
  (TTL it <= 0 ->
     touch now it = it /\
     (IsZero (ExpireAt it) = true -> IsZero (ExpireAt (touch now it)) = true)).
Proof.
  unfold touch, Add. split; intros H.
  - replace (0 <? TTL it) with true by lia. done.
  - replace (0 <? TTL it) with false by lia. done.
Qed.

(** What [expired] computes: false whenever [ttl <= 0]; with [ttl > 0],
    true exactly when [expire_at] lies before [now], so that an unset
    [expire_at], being the zero instant, counts as past. *)
Theorem expired_iff_deadline_passed (now : Time) it :
  (TTL it <= 0 -> expired now it = false) /\
  (0 < TTL it -> (expired now it = true <-> ExpireAt it < now)) /\
  (0 < TTL it -> IsZero (ExpireAt it) = true -> 0 < now ->
     expired now it = true).
Proof.
  unfold expired, Before, IsZero. repeat split; intros.
  - replace (TTL it <=? 0) with true by lia. done.
  - replace (TTL it <=? 0) with false in * by lia. lia.
  - replace (TTL it <=? 0) with false in * by lia. lia.
  - replace (TTL it <=? 0) with false in * by lia. lia.
Qed.

(** C3. [Less i j], on the entries [x] and [y] in slots [i] and [j]: false
    if [x] has no deadline; else true if [y] has none; else whether the
    deadline of [x] is before that of [y]. Hence two entries without a
    deadline are not less than each other, and an entry with a deadline
    is less than one without, never the other way round. *)
Theorem Less_ordering pq (i j : Z) (a b : addr) (x y : Item V) :
  index (items pq) i = Ok a -> mem pq !! a = Some x ->
  index (items pq) j = Ok b -> mem pq !! b = Some y ->
  (ExpireAt x = 0 -> Less pq i j = Ok false) /\
  (ExpireAt x <> 0 -> ExpireAt y = 0 -> Less pq i j = Ok true) /\
  (ExpireAt x <> 0 -> ExpireAt y <> 0 ->
     Less pq i j = Ok (ExpireAt x <? ExpireAt y)) /\
  (ExpireAt x = 0 -> ExpireAt y = 0 ->
     Less pq i j = Ok false /\ Less pq j i = Ok false) /\
  (ExpireAt x <> 0 -> ExpireAt y = 0 ->
     Less pq i j = Ok true /\ Less pq j i = Ok false).
Proof.
  intros Ha Hx Hb Hy.
  assert (Hij : Less pq i j =
    Ok (if IsZero (ExpireAt x) then false
        else if IsZero (ExpireAt y) then true
        else Before (ExpireAt x) (ExpireAt y))).
  { unfold Less, deref. rewrite Ha. cbn [bind]. rewrite Hx. cbn [bind].
    destruct (IsZero (ExpireAt x)); [done|].
    rewrite Hb. cbn [bind]. rewrite Hy. cbn [bind].
    by destruct (IsZero (ExpireAt y)). }
  assert (Hji : Less pq j i =
    Ok (if IsZero (ExpireAt y) then false
        else if IsZero (ExpireAt x) then true
        else Before (ExpireAt y) (ExpireAt x))).
  { unfold Less, deref. rewrite Hb. cbn [bind]. rewrite Hy. cbn [bind].
    destruct (IsZero (ExpireAt y)); [done|].
    rewrite Ha. cbn [bind]. rewrite Hx. cbn [bind].
    by destruct (IsZero (ExpireAt x)). }
  rewrite Hij, Hji. unfold IsZero, Before.
  repeat split; intros;
    repeat match goal with
           | |- context [?u =? 0] => destruct (Z.eqb_spec u 0)
           end; try done; try lia.
Qed.

End EntryTheorems.

(** * The heap invariant of the expiration index *)

Section IndexTheorems.

Context {V : Type}.
Implicit Types (it : Item V) (pq : pqueue V).

Lemma write_ExpireAt_spec pq (x : addr) (k : nat) (t : Time) :
  tracked pq -> items pq !! k = Some x ->
  exists pq', write_ExpireAt pq x t = Ok pq' /\ tracked pq' /\
    items pq' = items pq /\
    (forall j, j <> Z.of_nat k -> deadline pq' j = deadline pq j).
Proof.
  intros T Hx. destruct (T _ _ Hx) as (it & Hit & Hq).
  pose proof (lookup_lt_Some _ _ _ Hit) as Lx.
  unfold write_ExpireAt, deref. rewrite Hit. cbn [bind].
  eexists. split; [done|]. split; [|split; [done|]].
  - intros j a Ha. cbn [mem items] in *.
    destruct (decide (a = x)) as [->|Hne].
    + rewrite list_lookup_insert_eq by done. eexists. split; [done|].
      simpl. pose proof (tracked_inj _ _ _ _ T Ha Hx). lia.
    + rewrite list_lookup_insert_ne by done. by apply T.
  - intros j Hj. unfold deadline. cbn [mem items].
    destruct (j <? 0) eqn:Ej; [done|].
    destruct (items pq !! Z.to_nat j) as [a|] eqn:Ha; [|done].
    rewrite list_lookup_insert_ne; [done|].
    intros <-. pose proof (tracked_inj _ _ _ _ T Ha Hx). lia.
Qed.

Lemma apply_op_invariant pq (o : op) :
  tracked pq -> heap_ordered pq (Len pq) -> admissible pq o ->
  exists pq', apply_op pq o = Ok pq' /\ tracked pq' /\
    heap_ordered pq' (Len pq').
Proof.
  intros T O A. destruct o as [x| |x|x t]; cbn [apply_op admissible] in *.
  - destruct A as [Hx [it Hit]].
    destruct (push_spec pq x it T Hx Hit) as (pq' & -> & Ad & O').
    exists pq'. split; [done|]. split; [apply Ad|by apply O'].
  - destruct (items pq) as [|x q] eqn:Hq.
    + rewrite pop_empty by (unfold Len; by rewrite Hq). cbn [bind].
      by exists pq.
    + destruct (pop_spec pq x T) as (pq' & -> & Dr & O'); [by rewrite Hq|].
      cbn [bind]. exists pq'. split; [done|]. split; [apply Dr|by apply O'].
  - apply list_elem_of_lookup in A as [k Hk].
    destruct (remove_spec pq x k T Hk) as (pq' & -> & Dr & O').
    exists pq'. split; [done|]. split; [apply Dr|by apply O'].
  - apply list_elem_of_lookup in A as [k Hk].
    destruct (write_ExpireAt_spec pq x k t T Hk) as (pq1 & -> & T1 & I1 & D1).
    cbn [bind]. rewrite <- I1 in Hk.
    assert (L1 : Len pq1 = Len pq) by (unfold Len; by rewrite I1).
    pose proof (lookup_lt_Some _ _ _ Hk) as Lk.
    destruct (update_spec pq1 x k T1 Hk) as (pq' & -> & R & O').
    exists pq'. split; [done|]. split; [apply R|]. apply O'.
    + intros p c Hc Hcn Hp Hcc. rewrite !D1 by done. apply O; [done|lia].
    + intros g c Hg Hc Hcn.
      rewrite !D1 by (destruct Hg, Hc; lia).
      apply leT_trans with (deadline pq (Z.of_nat k)).
      * apply O; [done|rewrite <- L1; unfold Len; lia].
      * apply O; [done|lia].
Qed.

Lemma run_invariant (os : list op) : forall pq,
  tracked pq -> heap_ordered pq (Len pq) -> admissible_run pq os ->
  exists pq', run pq os = Ok pq' /\ tracked pq' /\
    heap_ordered pq' (Len pq').
Proof.
  induction os as [|o os IH]; intros pq T O A; cbn [run].
  - by exists pq.
  - destruct A as [Ao Ar].
    destruct (apply_op_invariant pq o T O Ao) as (pq1 & E1 & T1 & O1).
    rewrite E1. cbn [bind]. apply IH; [done|done|by apply Ar].
Qed.

Lemma heap_ordered_Less pq :
  tracked pq -> heap_ordered pq (Len pq) ->
  (forall p c, child p c -> c < Len pq -> Less pq c p = Ok false) /\
  (forall k, 0 <= k < Len pq -> Less pq k 0 = Ok false).
Proof.
  intros T O. split.
  - intros p c Hc Hcn. rewrite Less_spec by (try done; destruct Hc; lia).
    f_equal. by apply O.
  - intros k Hk. rewrite Less_spec by (try done; lia).
    f_equal. by apply (heap_ordered_head pq (Len pq)).
Qed.

(** C4, as the code has it. From the empty index, any sequence of push,
    pop, remove and update runs without a fault, provided remove and
    update are given entries the index holds and push an allocated entry
    it does not hold yet; it leaves an index where every entry records
    the slot it sits in, no entry is [Less] than its parent, and none is
    [Less] than the head. *)
Theorem heap_invariant_after_operations (m : memory V) (os : list op) :
  admissible_run (mkPQ m []) os ->
  newPriorityQueue m = Ok (mkPQ m []) /\
  exists pq, run (mkPQ m []) os = Ok pq /\
    (forall (k : nat) (a : addr), items pq !! k = Some a ->
       exists it, mem pq !! a = Some it /\ queueIndex it = Z.of_nat k) /\
    (forall p c, child p c -> c < Len pq -> Less pq c p = Ok false) /\
    (forall k, 0 <= k < Len pq -> Less pq k 0 = Ok false).
Proof.
  intros A. split; [done|].
  destruct (run_invariant os (mkPQ m [])) as (pq & E & T & O); [| |done|].
  - intros k a Hk. cbn [items] in Hk. by rewrite lookup_nil in Hk.
  - intros p c Hc Hcn. unfold Len in Hcn. simpl in Hcn. destruct Hc. lia.
  - exists pq. split; [done|]. split; [done|]. by apply heap_ordered_Less.
Qed.

(** C8. [pop] on an empty index returns no entry and is not a fault. On a
    non-empty index in heap order it returns the head, which no entry is
    [Less] than; the entry is gone from the index, the others are all
    still there, each records its slot, and they are in heap order. *)
Theorem pop_returns_minimum pq :
  (Len pq = 0 -> pop pq = Ok (pq, None)) /\
  (tracked pq -> heap_ordered pq (Len pq) -> 0 < Len pq ->
   exists pq' x, pop pq = Ok (pq', Some x) /\
     items pq !! 0%nat = Some x /\
     (forall k, 0 <= k < Len pq -> Less pq k 0 = Ok false) /\
     (forall a, a ∈ items pq' <-> a ∈ items pq /\ a <> x) /\
     Len pq' = Len pq - 1 /\
     tracked pq' /\ heap_ordered pq' (Len pq') /\
     (forall p c, child p c -> c < Len pq' -> Less pq' c p = Ok false)).
Proof.
  split; [apply pop_empty|]. intros T O Hn.
  destruct (lookup_lt_is_Some_2 (items pq) 0%nat) as [x Hx];
    [unfold Len in Hn; lia|].
  destruct (pop_spec pq x T Hx) as (pq' & E & Dr & O').
  exists pq', x. split; [done|]. split; [done|].
  split; [by apply heap_ordered_Less|].
  split; [apply Dr|].
  split. { pose proof (dr_length _ _ _ Dr). unfold Len. lia. }
  pose proof (dr_tracked _ _ _ Dr) as T'.
  split; [done|]. split; [by apply O'|].
  apply heap_ordered_Less; [done|by apply O'].
Qed.

End IndexTheorems.

(** * The store *)

Section StoreTheorems.

Context {V : Type}.
Implicit Types (it : Item V) (pq : pqueue V) (c : Cache V).

Lemma min_Z_min (a b : Duration) : min a b = Z.min a b.
Proof. unfold min. destruct (Z.ltb_spec a b); lia. Qed.

Lemma Until_exact (now t : Time) :
  minDuration <= t - now <= maxDuration -> Until now t = t - now.
Proof.
  unfold Until, Sub. intros H.
  destruct (Z.ltb_spec (t - now) minDuration); [lia|].
  destruct (Z.ltb_spec maxDuration (t - now)); [lia|]. done.
Qed.

Lemma Until_sign (now t : Time) :
  (Until now t <? 0) = (t <? now).
Proof.
  unfold Until, Sub, minDuration, maxDuration.
  destruct (Z.ltb_spec (t - now) (- 2 ^ 63)); [lia|].
  destruct (Z.ltb_spec (2 ^ 63 - 1) (t - now)); lia.
Qed.

(** C5, as the code has it. With an empty index the sweep loop sleeps for
    the global TTL if one is set, else for an hour. Otherwise it starts
    from the time until the head's deadline, or from one microsecond if
    that time is negative (a time of zero is kept), or from an hour if the
    head has no deadline; and it caps that at the global TTL if one is
    set. *)
Theorem sleepTime_duration (now : Time) c :
  0 < now ->
  (priorityQueue c = [] ->
     sleepTime now c = Ok (if 0 <? ttl c then ttl c else Hour)) /\
  (forall (head : addr) it,
     priorityQueue c !! 0%nat = Some head -> heap c !! head = Some it ->
     let base :=
       if IsZero (ExpireAt it) then Hour
       else if Until now (ExpireAt it) <? 0 then Microsecond
       else Until now (ExpireAt it) in
     sleepTime now c = Ok (if 0 <? ttl c then Z.min base (ttl c) else base)).
Proof.
  intros Hnow. split.
  - intros Hq. unfold sleepTime, Len. cbn [the_pq items]. rewrite Hq.
    cbn [length]. by destruct (0 <? ttl c).
  - intros head it Hh Hit base. unfold sleepTime, Len. cbn [the_pq items].
    pose proof (lookup_lt_Some _ _ _ Hh) as Lh.
    replace (0 <? Z.of_nat (length (priorityQueue c))) with true by lia.
    destruct (index_Ok (priorityQueue c) 0) as (h' & Hh' & ->); [lia|].
    change (Z.to_nat 0) with 0%nat in Hh'.
    replace h' with head by congruence. cbn [bind].
    unfold deref. rewrite Hit. cbn [bind]. rewrite min_Z_min.
    f_equal. subst base. unfold IsZero.
    destruct (Z.eqb_spec (ExpireAt it) 0) as [E|E].
    + rewrite E, Until_sign. replace (0 <? now) with true by lia. done.
    + rewrite andb_false_r. done.
Qed.

Lemma tracked_write pq (a : addr) it it' :
  tracked pq -> mem pq !! a = Some it -> queueIndex it' = queueIndex it ->
  tracked (mkPQ (<[a := it']> (mem pq)) (items pq)).
Proof.
  intros T Hit Hq k b Hb. cbn [mem items] in *.
  pose proof (lookup_lt_Some _ _ _ Hit) as La.
  destruct (decide (b = a)) as [->|Hne].
  - rewrite list_lookup_insert_eq by done. eexists. split; [done|].
    destruct (T _ _ Hb) as (x & Hx & Hk). congruence.
  - rewrite list_lookup_insert_ne by done. by apply T.
Qed.

Lemma touch_queueIndex (now : Time) it : queueIndex (touch now it) = queueIndex it.
Proof. unfold touch. by destruct (0 <? TTL it). Qed.

Lemma promote_queueIndex c it : queueIndex (promote c it) = queueIndex it.
Proof. unfold promote. by destruct ((0 <? ttl c) && (TTL it =? 0)). Qed.

(** [Remove] on a key of the map, in a consistent store. *)
Lemma Remove_present c (k : string) (a : addr) :
  store_consistent c -> cache_items c !! k = Some a ->
  exists c', Remove c k = Ok (c', true) /\
    cache_items c' = delete k (cache_items c) /\
    cache_items c' !! k = None /\
    (a ∉ priorityQueue c') /\
    (forall b, b ∈ priorityQueue c' <-> b ∈ priorityQueue c /\ b <> a) /\
    events c' = events c /\
    store_consistent c'.
Proof.
  intros [T M] Ha. destruct (M _ _ Ha) as (Hin & it & Hit & Hk).
  apply list_elem_of_lookup in Hin as [pos Hpos].
  unfold Remove, deref. rewrite Ha, Hit. cbn [bind]. rewrite Hk.
  destruct (remove_spec (the_pq c) a pos T Hpos) as (pq' & E & Dr & _).
  change (the_pq (set_cache_items (delete k (cache_items c)) c))
    with (the_pq c).
  rewrite E. cbn [bind]. eexists. split; [done|].
  cbn [with_pq set_cache_items cache_items priorityQueue events].
  split; [done|]. split; [apply lookup_delete_eq|].
  split. { intros Hx. apply (dr_elem _ _ _ Dr) in Hx. tauto. }
  split. { intros b. apply (dr_elem _ _ _ Dr). }
  split; [done|]. split.
  + unfold the_pq. cbn [heap priorityQueue].
    pose proof (dr_tracked _ _ _ Dr) as T'. by destruct pq'.
  + intros k' a' Hk'. cbn [heap priorityQueue with_pq].
    cbn [cache_items with_pq set_cache_items] in Hk'.
    apply lookup_delete_Some in Hk' as [Hne Hk'].
    destruct (M _ _ Hk') as (Hin' & it' & Hit' & Hkey').
    destruct (dr_payload _ _ _ Dr a' it' Hit') as (it2 & Hit2 & _ & _ & _ & _).
    destruct (dr_payload _ _ _ Dr a' it' Hit') as (it3 & Hit3 & Hkey3 & _).
    split.
    * apply (dr_elem _ _ _ Dr). split; [done|].
      intros ->. cbn [the_pq mem] in *. congruence.
    * exists it3. split; [done|]. congruence.
Qed.

(** C9. [Remove] of a key the map does not hold reports [false] and
    leaves the store as it is. On a key of the map it reports [true]; the
    key is gone from the map, its entry is gone from the index, every
    other entry is still there, and no wake signal is sent. In neither
    case is there a fault. *)
Theorem Remove_spec c (k : string) :
  (cache_items c !! k = None -> Remove c k = Ok (c, false)) /\
  (store_consistent c ->
   forall a : addr, cache_items c !! k = Some a ->
   exists c', Remove c k = Ok (c', true) /\
     cache_items c' = delete k (cache_items c) /\
     cache_items c' !! k = None /\
     (a ∉ priorityQueue c') /\
     (forall b, b ∈ priorityQueue c' <-> b ∈ priorityQueue c /\ b <> a) /\
     events c' = events c /\
     store_consistent c').
Proof.
  split.
  - intros H. unfold Remove. by rewrite H.
  - intros SC a Ha. by apply Remove_present.
Qed.

(** A hit of [GetItem] on an entry eligible for time-based expiry. *)
Lemma GetItem_hit (now : Time) c (k : string) (a : addr) it :
  store_consistent c ->
  cache_items c !! k = Some a -> heap c !! a = Some it ->
  expired now it = false -> eligible c it = true ->
  exists c' it',
    GetItem now c k =
      Ok (c', Some a, After (expirationTime c) (Add now (TTL it'))) /\
    heap c' !! a = Some it' /\
    TTL it' = (if TTL it =? 0 then ttl c else TTL it) /\
    ExpireAt it' = (if skipTTLExtension c then ExpireAt it
                    else now + TTL it') /\
    key it' = key it /\ Data it' = Data it /\
    events c' = events c /\ cache_items c' = cache_items c /\
    ttl c' = ttl c.
Proof.
  intros [T M] Ha Hit Hexp Hel.
  destruct (M _ _ Ha) as (Hin & _).
  apply list_elem_of_lookup in Hin as [pos Hpos].
  unfold GetItem, deref. rewrite Ha, Hit. cbn [bind]. rewrite Hexp, Hel.
  set (it2 := if negb (skipTTLExtension c) then touch now (promote c it)
              else promote c it).
  assert (Hq2 : queueIndex it2 = queueIndex it).
  { unfold it2. destruct (skipTTLExtension c); cbn [negb];
      by rewrite ?touch_queueIndex, promote_queueIndex. }
  pose proof (tracked_write (the_pq c) a it it2 T Hit Hq2) as T2.
  destruct (update_spec _ a pos T2 Hpos) as (pq' & E & R & _).
  change (the_pq (set_heap (<[a:=it2]> (heap c)) c))
    with (mkPQ (<[a:=it2]> (mem (the_pq c))) (items (the_pq c))).
  rewrite E. cbn [bind].
  destruct (re_payload _ _ R a it2) as (it' & Hit' & Hk' & Hd' & Ht' & He').
  { cbn [mem the_pq]. apply list_lookup_insert_eq.
    by apply lookup_lt_Some in Hit. }
  cbn [with_pq heap expirationTime]. rewrite Hit'. cbn [bind].
  exists (with_pq pq' (set_heap (<[a:=it2]> (heap c)) c)), it'.
  split; [done|]. split; [done|].
  unfold eligible in Hel.
  assert (Hp : TTL (promote c it) = (if TTL it =? 0 then ttl c else TTL it)
               /\ ExpireAt (promote c it) = ExpireAt it
               /\ key (promote c it) = key it
               /\ Data (promote c it) = Data it
               /\ 0 < TTL (promote c it)).
  { unfold promote. destruct (Z.eqb_spec (TTL it) 0) as [E0|E0].
    - replace (0 <? ttl c) with true by lia. cbn. repeat split; try done. lia.
    - rewrite andb_false_r. repeat split; try done. lia. }
  destruct Hp as (Hp1 & Hp2 & Hp3 & Hp4 & Hp5).
  unfold it2 in *. destruct (skipTTLExtension c); cbn [negb] in *.
  - repeat split; congruence.
  - unfold touch in *. replace (0 <? TTL (promote c it)) with true in * by lia.
    cbn in Ht', He', Hk', Hd'. unfold Add in He'.
    repeat split; congruence.
Qed.

(** C10. [GetTTL] writes to the store: on a hit for an entry eligible for
    time-based expiry, an entry with [ttl = 0] is promoted to the global
    TTL, the entry is touched unless the extension on read is switched
    off, and the TTL returned is the one after promotion. The entry is
    left as [Get] leaves it. *)
Theorem GetTTL_not_read_only (now : Time) c (k : string) (a : addr) it :
  store_consistent c ->
  cache_items c !! k = Some a -> heap c !! a = Some it ->
  expired now it = false -> eligible c it = true ->
  exists c' it',
    GetTTL now c k = Ok (c', TTL it', true) /\
    heap c' !! a = Some it' /\
    TTL it' = (if TTL it =? 0 then ttl c else TTL it) /\
    0 < TTL it' /\
    ExpireAt it' = (if skipTTLExtension c then ExpireAt it
                    else now + TTL it') /\
    (TTL it = 0 -> heap c' <> heap c) /\
    (skipTTLExtension c = false -> ExpireAt it <> now + TTL it' ->
       heap c' <> heap c) /\
    exists c'', Get now c k = Ok (c'', Some (Data it), true) /\
      heap c'' = heap c' /\ priorityQueue c'' = priorityQueue c' /\
      cache_items c'' = cache_items c'.
Proof.
  intros SC Ha Hit Hexp Hel.
  destruct (GetItem_hit now c k a it SC Ha Hit Hexp Hel)
    as (c' & it' & E & Hit' & Ht & He & Hk & Hd & _).
  exists c', it'. unfold GetTTL, Get, deref. rewrite E. cbn [bind].
  rewrite Hit'. cbn [bind].
  assert (Hpos : 0 < TTL it').
  { unfold eligible in Hel. rewrite Ht.
    destruct (Z.eqb_spec (TTL it) 0); lia. }
  split; [done|]. split; [done|]. split; [done|]. split; [done|].
  split; [done|]. split; [|split].
  - intros H0 Heq. rewrite Heq in Hit'. assert (it' = it) by congruence.
    subst it'. lia.
  - intros Hs Hne Heq. rewrite Heq in Hit'. assert (it' = it) by congruence.
    subst it'. rewrite Hs in He. lia.
  - eexists. split.
    + rewrite Hd. reflexivity.
    + by destruct (After (expirationTime c) (Add now (TTL it'))).
Qed.

End StoreTheorems.

(** * The consistency of the store is kept by its operations *)

Section StoreInvariant.

Context {V : Type}.
Implicit Types (it : Item V) (pq : pqueue V) (c : Cache V).

Lemma same_setup_refl c : same_setup c c.
Proof. by split. Qed.

Lemma store_consistent_NewCache (now : Time) :
  exists c : Cache V, NewCache now = Ok c /\ store_consistent c /\
    cache_items c = ∅ /\ priorityQueue c = [].
Proof.
  eexists. split; [reflexivity|]. split; [|done].
  split.
  - intros k a H. cbn in H. by rewrite lookup_nil in H.
  - intros k a H. cbn in H. by rewrite lookup_empty in H.
Qed.

(** Writing the payload of an entry and fixing up the index afterwards
    keeps the store consistent, as long as the entry keeps its key. *)
Lemma write_keeps_rest_ordered pq (a : addr) (k : nat) it it2 :
  tracked pq -> items pq !! k = Some a -> mem pq !! a = Some it ->
  heap_ordered pq (Len pq) ->
  ordered_apart (mkPQ (<[a := it2]> (mem pq)) (items pq)) (Z.of_nat k)
    (Len (mkPQ (<[a := it2]> (mem pq)) (items pq))) /\
  bridged (mkPQ (<[a := it2]> (mem pq)) (items pq)) (Z.of_nat k)
    (Len (mkPQ (<[a := it2]> (mem pq)) (items pq))).
Proof.
  intros T Hk Hit O.
  pose proof (lookup_lt_Some _ _ _ Hk) as Lk.
  assert (D1 : forall j, j <> Z.of_nat k ->
            deadline (mkPQ (<[a := it2]> (mem pq)) (items pq)) j
            = deadline pq j).
  { intros j Hj. unfold deadline. cbn [mem items].
    destruct (j <? 0) eqn:Ej; [done|].
    destruct (items pq !! Z.to_nat j) as [b|] eqn:Hb; [|done].
    rewrite list_lookup_insert_ne; [done|].
    intros <-. pose proof (tracked_inj _ _ _ _ T Hb Hk). lia. }
  change (Len (mkPQ (<[a := it2]> (mem pq)) (items pq))) with (Len pq).
  split.
  - intros p c Hc Hcn Hp Hcc. rewrite !D1 by done. by apply O.
  - intros g c Hg Hc Hcn. rewrite !D1 by (destruct Hg, Hc; lia).
    apply leT_trans with (deadline pq (Z.of_nat k)).
    + apply O; [done|unfold Len; lia].
    + by apply O.
Qed.

Lemma store_consistent_update c (a : addr) it it2 :
  store_consistent c -> a ∈ priorityQueue c ->
  heap c !! a = Some it ->
  queueIndex it2 = queueIndex it -> key it2 = key it ->
  exists pq',
    update (the_pq (set_heap (<[a := it2]> (heap c)) c)) a = Ok pq' /\
    rearranged (mkPQ (<[a := it2]> (heap c)) (priorityQueue c)) pq' /\
    store_consistent (with_pq pq' (set_heap (<[a := it2]> (heap c)) c)) /\
    same_setup c (with_pq pq' (set_heap (<[a := it2]> (heap c)) c)) /\
    (store_ordered c ->
     store_ordered (with_pq pq' (set_heap (<[a := it2]> (heap c)) c))).
Proof.
  intros [T M] Hin Hit Hq Hk.
  apply list_elem_of_lookup in Hin as [pos Hpos].
  pose proof (lookup_lt_Some _ _ _ Hit) as La.
  pose proof (tracked_write (the_pq c) a it it2 T Hit Hq) as T2.
  destruct (update_spec _ a pos T2 Hpos) as (pq' & E & R & O).
  exists pq'. split; [exact E|]. split; [exact R|].
  assert (Hord : store_ordered c ->
    store_ordered (with_pq pq' (set_heap (<[a := it2]> (heap c)) c))).
  { intros Oc.
    destruct (write_keeps_rest_ordered (the_pq c) a pos it it2 T Hpos Hit Oc)
      as [A B].
    unfold store_ordered. replace (the_pq (with_pq pq' _)) with pq'
      by (by destruct pq'). by apply O. }
  split; [split|split; [split|exact Hord]].
  - pose proof (re_tracked _ _ R). by destruct pq'.
  - intros k' b Hb. cbn [with_pq set_heap cache_items heap priorityQueue] in *.
    destruct (M _ _ Hb) as (Hbin & itb & Hitb & Hkb).
    split; [by apply (re_elem _ _ R)|].
    destruct (re_payload _ _ R b (if decide (b = a) then it2 else itb))
      as (it' & Hit' & Hk' & _).
    { cbn [mem the_pq heap]. destruct (decide (b = a)) as [->|Hne].
      - by apply list_lookup_insert_eq.
      - by rewrite list_lookup_insert_ne. }
    exists it'. split; [done|]. rewrite Hk'.
    destruct (decide (b = a)) as [->|Hne]; [|done]. congruence.
  - done.
  - done.
  - done.
  - done.
  - done.
  - done.
  - done.
  - cbn. rewrite (re_mem_length _ _ R). cbn. by rewrite length_insert.
  - cbn. by rewrite (re_length _ _ R).
  - intros b. cbn. by rewrite (re_elem _ _ R).
Qed.

(** What [GetItem] finds and what it leaves: nothing on a key that is
    absent or whose entry has expired; else the entry, in a store that is
    still consistent. *)
Lemma GetItem_spec (now : Time) c (k : string) :
  store_consistent c ->
  (GetItem now c k = Ok (c, None, false) /\
   (cache_items c !! k = None \/
    exists a it, cache_items c !! k = Some a /\ heap c !! a = Some it /\
                 expired now it = true)) \/
  (exists (a : addr) it c' it' trigger,
     GetItem now c k = Ok (c', Some a, trigger) /\
     cache_items c !! k = Some a /\ heap c !! a = Some it /\
     expired now it = false /\
     store_consistent c' /\ same_setup c c' /\
     heap c' !! a = Some it' /\ key it' = k /\
     (store_ordered c -> store_ordered c') /\
     same_config c c' /\ Data it' = Data it /\
     others_kept a (heap c) (heap c') /\
     same_payload (read_entry now c it) it' /\
     trigger = After (expirationTime c) (Add now (TTL it'))).
Proof.
  intros SC. pose proof SC as [T M].
  destruct (cache_items c !! k) as [a|] eqn:Ha.
  2:{ left. split; [|by left]. unfold GetItem. by rewrite Ha. }
  destruct (M _ _ Ha) as (Hin & it & Hit & Hk).
  destruct (expired now it) eqn:Hexp.
  { left. split; [|right; by exists a, it].
    unfold GetItem, deref. rewrite Ha, Hit. cbn [bind]. by rewrite Hexp. }
  right. exists a, it.
  destruct (eligible c it) eqn:Hel.
  - set (it2 := if negb (skipTTLExtension c) then touch now (promote c it)
                else promote c it).
    assert (Hq2 : queueIndex it2 = queueIndex it).
    { unfold it2. destruct (skipTTLExtension c); cbn [negb];
        by rewrite ?touch_queueIndex, promote_queueIndex. }
    assert (Hk2 : key it2 = key it /\ Data it2 = Data it).
    { unfold it2, touch, promote.
      destruct (skipTTLExtension c), ((0 <? ttl c) && (TTL it =? 0));
        cbn [negb]; try done; by case_match. }
    destruct Hk2 as [Hk2 Hd2].
    destruct (store_consistent_update c a it it2 SC Hin Hit Hq2 Hk2)
      as (pq' & E & R & SC' & SS & Ord).
    destruct (re_payload _ _ R a it2) as (it' & Hit' & SP).
    { cbn [mem]. apply list_lookup_insert_eq. by apply lookup_lt_Some in Hit. }
    pose proof SP as (Hk' & Hd' & _).
    eexists _, it', _. split.
    { unfold GetItem, deref. rewrite Ha, Hit. cbn [bind].
      rewrite Hexp, Hel. cbv zeta. fold it2. rewrite E. cbn [bind].
      cbn [with_pq heap]. rewrite Hit'. cbn [bind]. reflexivity. }
    do 6 (split; [done|]). split; [congruence|]. split; [exact Ord|].
    split; [by split|]. split; [congruence|].
    split.
    { intros b itb Hb Hne. apply (re_payload _ _ R b itb). cbn [mem].
      by rewrite list_lookup_insert_ne. }
    split; [|reflexivity]. unfold read_entry. by rewrite Hel.
  - eexists c, it, _. split.
    { unfold GetItem, deref. rewrite Ha, Hit. cbn [bind].
      rewrite Hexp, Hel. cbn [bind]. rewrite Hit. cbn [bind]. reflexivity. }
    do 7 (split; [done|]). split; [exact (fun H => H)|].
    split; [by split|]. split; [done|].
    split.
    { intros b itb Hb _. exists itb. split; [done|]. apply same_payload_refl. }
    split; [|reflexivity]. unfold read_entry. rewrite Hel.
    apply same_payload_refl.
Qed.

Lemma eligible_touch_key (now : Time) c it :
  key (touch now (promote c it)) = key it /\
  Data (touch now (promote c it)) = Data it /\
  queueIndex (touch now (promote c it)) = queueIndex it.
Proof.
  unfold touch, promote.
  destruct ((0 <? ttl c) && (TTL it =? 0)); by case_match.
Qed.

(** The entry [SetWithTTL] leaves after its promotion and touch: its TTL
    is the effective one, and its deadline is set from it if that is
    positive, else left as it was. *)
Lemma written_entry (now : Time) c it :
  let w := if eligible c it then touch now (promote c it) else it in
  TTL w = effective_ttl c (TTL it) /\
  (0 < effective_ttl c (TTL it) ->
     ExpireAt w = now + effective_ttl c (TTL it)) /\
  (effective_ttl c (TTL it) <= 0 -> ExpireAt w = ExpireAt it /\ TTL it <= 0).
Proof.
  unfold eligible, touch, promote, effective_ttl, Add.
  destruct (Z.ltb_spec 0 (ttl c)), (Z.eqb_spec (TTL it) 0),
    (Z.leb_spec 0 (TTL it)), (Z.ltb_spec 0 (TTL it));
    cbn; try lia;
    repeat match goal with
           | |- context [0 <? ?u] => destruct (Z.ltb_spec 0 u); cbn
           end; repeat split; intros; try lia; try done.
Qed.

Lemma effective_ttl_config c c' (d : Duration) :
  ttl c' = ttl c -> effective_ttl c' d = effective_ttl c d.
Proof. unfold effective_ttl. by intros ->. Qed.

(** Entries appended to the memory are not seen by the index. *)
Lemma deadline_app pq (l : list (Item V)) (j : Z) :
  tracked pq ->
  deadline (mkPQ (mem pq ++ l) (items pq)) j = deadline pq j.
Proof.
  intros T. unfold deadline. cbn [mem items].
  destruct (j <? 0); [done|].
  destruct (items pq !! Z.to_nat j) as [a|] eqn:Ha; [|done].
  destruct (T _ _ Ha) as (it & Hit & _).
  by rewrite (lookup_app_l_Some _ _ _ _ Hit), Hit.
Qed.

(** [SetWithTTL] on a key whose entry is in the map and has not expired:
    the entry is written in place. Nothing is allocated, the map and the
    entries of the index are the same, and the only event is the wake
    signal. *)
Lemma SetWithTTL_live_key (now : Time) c (k : string) (data : V)
    (d : Duration) (a : addr) it :
  store_consistent c ->
  cache_items c !! k = Some a -> heap c !! a = Some it ->
  expired now it = false ->
  exists c' it',
    SetWithTTL now c k data d = Ok c' /\
    store_consistent c' /\
    cache_items c' = cache_items c /\
    length (heap c') = length (heap c) /\
    length (priorityQueue c') = length (priorityQueue c) /\
    (forall b, b ∈ priorityQueue c' <-> b ∈ priorityQueue c) /\
    heap c' !! a = Some it' /\ key it' = k /\ Data it' = data /\
    events c' = events c ++ [ExpirationNotification] /\
    same_config c c' /\
    TTL it' = effective_ttl c d /\
    (0 < effective_ttl c d -> ExpireAt it' = now + effective_ttl c d) /\
    others_kept a (heap c) (heap c') /\
    (store_ordered c -> store_ordered c').
Proof.
  intros SC Ha Hit Hexp.
  destruct (GetItem_spec now c k SC)
    as [[_ [Hn|(a0 & it0 & Ha0 & Hit0 & Hexp0)]]
       |(a1 & it1 & c1 & it1' & trig & E & Ha1 & Hit1 & _ & SC1 & SS1 & Hit1' & Hk1
         & Ord1 & Cf1 & Hd1 & Fr1 & _)];
    [congruence| |].
  { assert (a0 = a) as -> by congruence. congruence. }
  assert (a1 = a) as -> by congruence.
  unfold SetWithTTL. rewrite E. cbn [bind].
  unfold deref at 1. rewrite Hit1'. cbn [bind].
  set (w := set_TTL d (set_Data data it1')).
  pose proof SC1 as [T1 M1].
  assert (Hin1 : a ∈ priorityQueue c1).
  { rewrite <- (ss_items _ _ SS1) in Ha. by destruct (M1 _ _ Ha). }
  pose proof (lookup_lt_Some _ _ _ Hit1') as La.
  (* the entry after the writes of data, TTL, promotion and touch *)
  set (c2 := set_heap (<[a := w]> (heap c1)) c1).
  set (w2 := if eligible c2 w then touch now (promote c2 w) else w).
  assert (Hw2 : key w2 = key it1' /\ Data w2 = data /\
                queueIndex w2 = queueIndex it1').
  { unfold w2. destruct (eligible c2 w); [|done].
    destruct (eligible_touch_key now c2 w) as (-> & -> & ->). done. }
  destruct Hw2 as (Hw2k & Hw2d & Hw2q).
  assert (Hstate :
    (let* it := deref (heap c2) a in
     let c := if eligible c2 it
              then set_heap (<[a := touch now (promote c2 it)]> (heap c2)) c2
              else c2 in
     let* pq := update (the_pq c) a in
     let c := with_pq pq c in
     let c := if negb (bool_decide (is_Some (Some a))) && newItemCallback c
              then emit (NewItemCallback k data) c else c in
     Ok (emit ExpirationNotification c)) =
    (let* pq := update (the_pq (set_heap (<[a := w2]> (heap c1)) c1)) a in
     Ok (emit ExpirationNotification
           (with_pq pq (set_heap (<[a := w2]> (heap c1)) c1))))).
  { unfold deref. cbn [c2 set_heap heap].
    rewrite list_lookup_insert_eq by done. cbn [bind]. fold c2.
    unfold w2. destruct (eligible c2 w).
    - cbn [c2 set_heap heap the_pq priorityQueue].
      rewrite list_insert_insert_eq. done.
    - done. }
  cbn [bind] in Hstate |- *. fold w c2. rewrite Hstate.
  destruct (store_consistent_update c1 a it1' w2 SC1 Hin1 Hit1' Hw2q Hw2k)
    as (pq' & -> & R & SC' & SS' & Ord').
  cbn [bind].
  destruct (re_payload _ _ R a w2) as (it' & Hit' & Hk' & Hd' & Ht' & He').
  { cbn [mem]. by apply list_lookup_insert_eq. }
  eexists _, it'. split; [done|].
  split; [exact SC'|].
  split. { cbn. apply (ss_items _ _ SS1). }
  split. { cbn. rewrite (re_mem_length _ _ R). cbn. rewrite length_insert.
           apply (ss_heap_length _ _ SS1). }
  split. { cbn. rewrite (re_length _ _ R). cbn.
           apply (ss_index_length _ _ SS1). }
  split. { intros b. cbn. rewrite (re_elem _ _ R). cbn.
           apply (ss_index_elem _ _ SS1). }
  split; [done|]. split; [congruence|]. split; [congruence|].
  split. { cbn. by rewrite (ss_events _ _ SS1). }
  split. { destruct Cf1. by split. }
  pose proof (written_entry now c2 w) as Hw. cbv zeta in Hw. fold w2 in Hw.
  rewrite (effective_ttl_config c c2) in Hw by apply Cf1.
  change (TTL w) with d in Hw. destruct Hw as (Hw1 & Hw2 & _).
  split; [congruence|].
  split. { intros Hpos. rewrite He'. by apply Hw2. }
  split.
  { intros b itb Hb Hne. destruct (Fr1 b itb Hb Hne) as (itb1 & Hb1 & S1).
    destruct (re_payload _ _ R b itb1) as (itb2 & Hb2 & S2).
    { cbn [mem]. by rewrite list_lookup_insert_ne. }
    exists itb2. split; [done|]. eauto using same_payload_trans. }
  intros Oc. apply Ord', Ord1, Oc.
Qed.

Lemma tracked_below pq (a : addr) :
  tracked pq -> a ∈ items pq -> (a < length (mem pq))%nat.
Proof.
  intros T [k Hk]%list_elem_of_lookup.
  destruct (T _ _ Hk) as (it & Hit & _). by apply lookup_lt_Some in Hit.
Qed.

(** [SetWithTTL] on a key that is not in the map, or whose entry has
    expired: a fresh entry is allocated, filed under the key and pushed on
    the index, and the new-item callback is called if there is one. An
    expired entry of that key stays in the index. *)
Lemma SetWithTTL_fresh_entry (now : Time) c (k : string) (data : V)
    (d : Duration) :
  store_consistent c ->
  (cache_items c !! k = None \/
   exists a it, cache_items c !! k = Some a /\ heap c !! a = Some it /\
                expired now it = true) ->
  exists c' it',
    SetWithTTL now c k data d = Ok c' /\
    store_consistent c' /\
    cache_items c' = <[k := length (heap c)]> (cache_items c) /\
    length (heap c') = S (length (heap c)) /\
    length (priorityQueue c') = S (length (priorityQueue c)) /\
    (forall b, b ∈ priorityQueue c' <->
               b ∈ priorityQueue c \/ b = length (heap c)) /\
    heap c' !! length (heap c) = Some it' /\ key it' = k /\ Data it' = data /\
    events c' = events c ++
                (if newItemCallback c then [NewItemCallback k data] else []) ++
                [ExpirationNotification] /\
    same_config c c' /\
    TTL it' = effective_ttl c d /\
    (0 < effective_ttl c d -> ExpireAt it' = now + effective_ttl c d) /\
    (effective_ttl c d <= 0 -> ExpireAt it' = 0) /\
    others_kept (length (heap c)) (heap c) (heap c') /\
    (store_ordered c -> store_ordered c').
Proof.
  intros SC Hk. pose proof SC as [T M].
  assert (E : GetItem now c k = Ok (c, None, false)).
  { destruct (GetItem_spec now c k SC)
      as [[E _]|(a1 & it1 & c1 & it1' & trig & _ & Ha1 & Hit1 & Hexp1 & _)];
      [done|].
    destruct Hk as [Hk|(a & it & Ha & Hit & Hexp)]; congruence. }
  unfold SetWithTTL. rewrite E. cbn [bind].
  set (n := length (heap c)).
  set (fresh := newItem now k data d).
  set (c1 := set_cache_items
               (<[k:=n]> (cache_items (set_heap (heap c ++ [fresh]) c)))
               (set_heap (heap c ++ [fresh]) c)).
  assert (Hfresh : heap c1 !! n = Some fresh).
  { cbn. by apply list_lookup_middle. }
  unfold deref at 1. rewrite Hfresh. cbn [bind].
  set (w := if eligible c1 fresh then touch now (promote c1 fresh) else fresh).
  assert (Hw : key w = k /\ Data w = data).
  { assert (key fresh = k /\ Data fresh = data) as [Hfk Hfd].
    { unfold fresh, newItem, touch. by case_match. }
    unfold w. destruct (eligible c1 fresh); [|done].
    destruct (eligible_touch_key now c1 fresh) as (-> & -> & _). done. }
  destruct Hw as [Hwk Hwd].
  set (c2 := if eligible c1 fresh
             then set_heap (<[n := touch now (promote c1 fresh)]> (heap c1)) c1
             else c1).
  assert (Hc2 : the_pq c2 = mkPQ (heap c ++ [w]) (priorityQueue c)).
  { unfold c2, w. destruct (eligible c1 fresh); [|done].
    unfold the_pq. cbn [c1 set_heap set_cache_items heap priorityQueue].
    f_equal. replace n with (length (heap c) + 0)%nat by (unfold n; lia).
    by rewrite insert_app_r. }
  assert (T2 : tracked (the_pq c2)).
  { rewrite Hc2. intros pos b Hb. cbn [mem items] in *.
    destruct (T _ _ Hb) as (itb & Hitb & Hq). exists itb. split; [|done].
    by apply lookup_app_l_Some. }
  assert (Hn : n ∉ items (the_pq c2)).
  { rewrite Hc2. cbn [items]. intros Hin.
    pose proof (tracked_below (the_pq c) n T Hin). cbn in H. unfold n in H. lia. }
  assert (Hmw : mem (the_pq c2) !! n = Some w).
  { rewrite Hc2. cbn [mem]. by apply list_lookup_middle. }
  destruct (push_spec (the_pq c2) n w T2 Hn Hmw) as (pq' & -> & Ad & Opush).
  cbn [bind].
  destruct (ad_payload _ _ _ Ad n w Hmw) as (it' & Hit' & Hk' & Hd' & Ht' & He').
  assert (Hcfg : cache_items c2 = <[k:=n]> (cache_items c) /\
                 events c2 = events c /\
                 newItemCallback c2 = newItemCallback c /\
                 same_config c c2).
  { unfold c2. by destruct (eligible c1 fresh). }
  destruct Hcfg as (Hmap & Hev & Hcb & Cf2).
  set (c3 := with_pq pq' c2).
  set (c4 := if negb (bool_decide (is_Some (@None addr))) && newItemCallback c3
             then emit (NewItemCallback k data) c3 else c3).
  assert (H4 : heap c4 = mem pq' /\ priorityQueue c4 = items pq' /\
               cache_items c4 = <[k:=n]> (cache_items c) /\
               events c4 = events c ++
                 (if newItemCallback c then [NewItemCallback k data] else []) /\
               same_config c c4).
  { unfold c4, c3. cbn [with_pq newItemCallback]. rewrite Hcb.
    destruct Cf2.
    destruct (newItemCallback c) eqn:Hnc; cbn; rewrite ?Hev, ?app_nil_r;
      repeat split; cbn; congruence. }
  destruct H4 as (H4h & H4q & H4m & H4e & Cf4).
  exists (emit ExpirationNotification c4), it'.
  split; [done|].
  rewrite Hc2 in Ad. cbn [mem items] in Ad.
  split; [split|].
  - unfold the_pq. cbn [emit heap priorityQueue]. rewrite H4h, H4q.
    pose proof (ad_tracked _ _ _ Ad). by destruct pq'.
  - intros k' b Hb. cbn [emit cache_items heap priorityQueue] in *.
    rewrite H4h, H4q. rewrite H4m in Hb.
    apply lookup_insert_Some in Hb as [[<- <-]|[Hne Hb]].
    + split; [apply (ad_elem _ _ _ Ad); by right|].
      exists it'. split; [done|]. congruence.
    + destruct (M _ _ Hb) as (Hbin & itb & Hitb & Hkb).
      split; [apply (ad_elem _ _ _ Ad); by left|].
      destruct (ad_payload _ _ _ Ad b itb) as (itb' & Hitb' & Hkb' & _).
      { cbn [mem]. by apply lookup_app_l_Some. }
      exists itb'. split; [done|]. congruence.
  - cbn [emit cache_items heap priorityQueue events].
    rewrite H4h, H4q, H4m, H4e.
    split; [done|].
    split. { rewrite (ad_mem_length _ _ _ Ad). cbn. rewrite length_app.
             cbn. lia. }
    split. { by rewrite (ad_length _ _ _ Ad). }
    split. { intros b. apply (ad_elem _ _ _ Ad). }
    split; [done|]. split; [congruence|]. split; [congruence|].
    split; [by rewrite <- app_assoc|].
    split. { destruct Cf4. by split. }
    pose proof (written_entry now c1 fresh) as Hw. cbv zeta in Hw. fold w in Hw.
    rewrite (effective_ttl_config c c1) in Hw by done.
    assert (Hfr : TTL fresh = d /\ (d <= 0 -> ExpireAt fresh = 0)).
    { unfold fresh, newItem, touch. cbn [TTL].
      destruct (Z.ltb_spec 0 d); cbn; split; try done; lia. }
    destruct Hfr as [Hfr1 Hfr2]. rewrite Hfr1 in Hw.
    destruct Hw as (Hw1 & Hw2 & Hw3).
    split; [congruence|].
    split. { intros Hpos. rewrite He'. by apply Hw2. }
    split. { intros Hneg. rewrite He'. destruct (Hw3 Hneg) as [-> Hd0].
             by apply Hfr2. }
    split.
    { intros b itb Hb _. apply (ad_payload _ _ _ Ad b itb). cbn [mem].
      by apply lookup_app_l_Some. }
    intros Oc. unfold store_ordered, the_pq. cbn [emit heap priorityQueue].
    rewrite H4h, H4q. replace (mkPQ (mem pq') (items pq')) with pq'
      by (by destruct pq').
    apply Opush. rewrite Hc2. intros p c0 Hc0 Hcn.
    rewrite !(deadline_app (the_pq c) [w] _ T). by apply Oc.
Qed.

(** The scan of the eviction pass never runs out of fuel, can only fault
    by reading the index out of range, and leaves a consistent store when
    it ends. *)
Lemma evict_loop_spec (now : Time) (fuel : nat) : forall c (i : Z),
  store_consistent c -> 0 <= i ->
  (Z.to_nat (Len (the_pq c) - i) < fuel)%nat ->
  match evict_loop fuel now c i with
  | Ok c' => store_consistent c'
  | Panic p => p = IndexOutOfRange
  | OutOfFuel => False
  end.
Proof.
  induction fuel as [|fuel IH]; intros c i SC Hi Hf; [lia|].
  pose proof SC as [T M]. cbn [evict_loop].
  destruct (Z.le_gt_cases (Len (the_pq c)) i) as [Hout|Hin].
  { rewrite index_out by (right; exact Hout). done. }
  destruct (tracked_slot (the_pq c) i T) as (a & it & Hpos & Hidx & Hit & _);
    [lia|].
  cbn [the_pq items mem] in Hpos, Hidx, Hit.
  rewrite Hidx. cbn [bind]. unfold deref at 1. rewrite Hit. cbn [bind].
  destruct (expired now it) eqn:Hexp; cbn [negb]; [|done].
  assert (Ha : a ∈ priorityQueue c) by eauto using list_elem_of_lookup_2.
  destruct (match checkExpireCallback c with
            | Some check => negb (check (key it) (Data it))
            | None => false
            end).
  - destruct (store_consistent_update c a it (touch now it) SC Ha Hit)
      as (pq' & -> & R & SC' & SS & _);
      [apply touch_queueIndex|unfold touch; by case_match|].
    cbn [bind].
    set (c' := with_pq pq' (set_heap (<[a:=touch now it]> (heap c)) c)) in *.
    assert (HL : Len (the_pq c') = Len (the_pq c)).
    { unfold Len. cbn [the_pq items]. by rewrite (ss_index_length _ _ SS). }
    destruct (i + 1 =? Len (the_pq c')) eqn:Hend; [done|].
    apply IH; [done|lia|lia].
  - destruct (remove_spec (the_pq c) a (Z.to_nat i) T Hpos)
      as (pq' & -> & Dr & _).
    cbn [bind].
    set (c1 := set_cache_items (delete (key it) (cache_items (with_pq pq' c)))
                 (with_pq pq' c)).
    set (c2 := if expireCallback c1
               then emit (ExpireCallback (key it) (Data it)) c1 else c1).
    assert (H2 : heap c2 = mem pq' /\ priorityQueue c2 = items pq' /\
                 cache_items c2 = delete (key it) (cache_items c)).
    { unfold c2. by destruct (expireCallback c1). }
    destruct H2 as (H2h & H2q & H2m).
    assert (SC2 : store_consistent c2).
    { split.
      - unfold the_pq. rewrite H2h, H2q.
        pose proof (dr_tracked _ _ _ Dr). by destruct pq'.
      - intros k' b Hb. rewrite H2h, H2q. rewrite H2m in Hb.
        apply lookup_delete_Some in Hb as [Hne Hb].
        destruct (M _ _ Hb) as (Hbin & itb & Hitb & Hkb).
        destruct (dr_payload _ _ _ Dr b itb Hitb) as (itb' & Hitb' & Hkb' & _).
        split.
        + apply (dr_elem _ _ _ Dr). split; [done|]. intros ->. congruence.
        + exists itb'. split; [done|]. congruence. }
    assert (HL : Len (the_pq c2) = Len (the_pq c) - 1).
    { unfold Len. cbn [the_pq items]. rewrite H2q.
      pose proof (dr_length _ _ _ Dr). cbn [the_pq items] in *. lia. }
    destruct (Len (the_pq c2) =? 0) eqn:Hend; [done|].
    apply IH; [done|lia|lia].
Qed.

Lemma evictionPass_spec (now : Time) c :
  store_consistent c ->
  match evictionPass now c with
  | Ok c' => store_consistent c'
  | Panic p => p = IndexOutOfRange
  | OutOfFuel => False
  end.
Proof.
  intros SC. unfold evictionPass.
  destruct (Len (the_pq c) =? 0); [done|].
  apply evict_loop_spec; [done|lia|].
  unfold Len. cbn [the_pq items]. lia.
Qed.

Lemma SetWithTTL_consistent (now : Time) c (k : string) (data : V)
    (d : Duration) :
  store_consistent c ->
  exists c', SetWithTTL now c k data d = Ok c' /\ store_consistent c'.
Proof.
  intros SC.
  destruct (GetItem_spec now c k SC)
    as [[_ Hk]|(a & it & _ & _ & _ & _ & Ha & Hit & Hexp & _)].
  - destruct (SetWithTTL_fresh_entry now c k data d SC Hk)
      as (c' & _ & E & SC' & _). by exists c'.
  - destruct (SetWithTTL_live_key now c k data d a it SC Ha Hit Hexp)
      as (c' & _ & E & SC' & _). by exists c'.
Qed.

Lemma Get_consistent (now : Time) c (k : string) :
  store_consistent c ->
  exists c' v found, Get now c k = Ok (c', v, found) /\ store_consistent c'.
Proof.
  intros SC. unfold Get.
  destruct (GetItem_spec now c k SC)
    as [[-> _]|(a & it & c1 & it1 & trig & -> & _ & _ & _ & SC1 & _ & Hit1 & _)];
    cbn [bind].
  - by eexists _, _, _.
  - unfold deref. rewrite Hit1. cbn [bind]. eexists _, _, _. split; [done|].
    by destruct trig.
Qed.

Lemma GetTTL_consistent (now : Time) c (k : string) :
  store_consistent c ->
  exists c' d found, GetTTL now c k = Ok (c', d, found) /\ store_consistent c'.
Proof.
  intros SC. unfold GetTTL.
  destruct (GetItem_spec now c k SC)
    as [[-> _]|(a & it & c1 & it1 & trig & -> & _ & _ & _ & SC1 & _ & Hit1 & _)];
    cbn [bind].
  - by eexists _, _, _.
  - unfold deref. rewrite Hit1. cbn [bind]. by eexists _, _, _.
Qed.

Lemma fallAsleep_consistent (now : Time) c c' (d : Duration) :
  store_consistent c -> fallAsleep now c = Ok (c', d) -> store_consistent c'.
Proof.
  intros SC. unfold fallAsleep. destruct (sleepTime now c); [|done|done].
  cbn [bind]. intros [= <- _]. exact SC.
Qed.

Lemma fallAsleep_total (now : Time) c :
  store_consistent c ->
  exists d, fallAsleep now c = Ok (set_expirationTime (Add now d) c, d).
Proof.
  intros [T _]. unfold fallAsleep, sleepTime.
  destruct (0 <? Len (the_pq c)) eqn:HL.
  - destruct (tracked_slot (the_pq c) 0 T) as (a & it & _ & Hi & Hit & _);
      [lia|].
    cbn [the_pq items mem] in Hi, Hit. unfold deref.
    rewrite Hi. cbn [bind]. rewrite Hit. cbn [bind]. by eexists.
  - destruct (0 <? ttl c); cbn [bind]; by eexists.
Qed.

(** Every call keeps the store consistent. The only fault is the read out
    of range of the eviction pass; no call runs out of fuel. *)
Lemma exec_consistent (now : Time) c (f : call) :
  store_consistent c ->
  match exec now c f with
  | Ok c' => store_consistent c'
  | Panic p => f = TimerFires
  | OutOfFuel => False
  end.
Proof.
  intros SC. destruct f; cbn [exec]; try exact SC.
  - destruct (SetWithTTL_consistent now c k data d SC) as (c' & -> & SC').
    exact SC'.
  - destruct (Get_consistent now c k SC) as (c' & v & b & -> & SC').
    exact SC'.
  - destruct (GetTTL_consistent now c k SC) as (c' & v & b & -> & SC').
    exact SC'.
  - destruct (cache_items c !! k) as [a|] eqn:Ha.
    + destruct (Remove_present c k a SC Ha) as (c' & -> & _ & _ & _ & _ & _ & SC').
      exact SC'.
    + unfold Remove. rewrite Ha. exact SC.
  - split.
    + intros pos a H. cbn in H. by rewrite lookup_nil in H.
    + intros k a H. cbn in H. by rewrite lookup_empty in H.
  - pose proof (evictionPass_spec now c SC) as H.
    destruct (evictionPass now c) as [c1| |]; [|done|done].
    cbn [bind]. destruct (fallAsleep now c1) as [[c2 d]| |] eqn:E.
    + cbn [bind]. by eapply fallAsleep_consistent.
    + done.
    + unfold fallAsleep in E. destruct H as [T _].
      unfold sleepTime in E.
      destruct (0 <? Len (the_pq c1)) eqn:HL.
      * destruct (tracked_slot (the_pq c1) 0 T) as (a & it & _ & Hi & Hit & _);
          [lia|].
        cbn [the_pq items mem] in Hi, Hit. unfold deref in E.
        rewrite Hi in E. cbn [bind] in E. rewrite Hit in E. done.
      * by destruct (0 <? ttl c1).
  - destruct (fallAsleep_total now c SC) as (d & ->). cbn [bind]. exact SC.
Qed.

(** Every store a program can reach from [NewCache] is consistent. *)
Lemma reachable_consistent (fs : list (Time * call)) : forall c c',
  store_consistent c -> exec_all c fs = Ok c' -> store_consistent c'.
Proof.
  induction fs as [|[now f] fs IH]; intros c c' SC; cbn [exec_all].
  - by intros [= <-].
  - pose proof (exec_consistent now c f SC) as H.
    destruct (exec now c f) as [c1| |]; [|done|done].
    cbn [bind]. by apply IH.
Qed.

End StoreInvariant.

(** * More about the expiration index *)

Section MoreIndex.

Context {V : Type}.
Implicit Types (it : Item V) (pq : pqueue V).

Lemma bind_Ok {A B : Type} (r : result A) (k : A -> result B) (b : B) :
  bind r k = Ok b -> exists a, r = Ok a /\ k a = Ok b.
Proof. destruct r as [a| |]; [|done|done]. intros H. by exists a. Qed.

(** The order [Less] compares deadlines in: a deadline that is not set
    comes after every deadline that is. *)
Lemma lessT_order (a b c : Time) :
  lessT a a = false /\
  (lessT a b = true -> lessT b a = false) /\
  (lessT a b = true -> lessT b c = true -> lessT a c = true) /\
  (lessT a b = false -> lessT b a = false -> a = b).
Proof.
  unfold lessT, IsZero, Before.
  destruct (Z.eqb_spec a 0), (Z.eqb_spec b 0), (Z.eqb_spec c 0);
    repeat split; intros; try done; lia.
Qed.

(** [Less] is a strict weak order on the slots of an index that tracks
    positions: irreflexive, asymmetric and transitive, and two slots
    neither of which is [Less] than the other hold the same deadline. *)
Theorem Less_strict_weak_order pq (i j k : Z) :
  tracked pq -> 0 <= i < Len pq -> 0 <= j < Len pq -> 0 <= k < Len pq ->
  Less pq i i = Ok false /\
  (Less pq i j = Ok true -> Less pq j i = Ok false) /\
  (Less pq i j = Ok true -> Less pq j k = Ok true -> Less pq i k = Ok true) /\
  (Less pq i j = Ok false -> Less pq j i = Ok false ->
     deadline pq i = deadline pq j /\
     Less pq i k = Less pq j k /\ Less pq k i = Less pq k j).
Proof.
  intros T Hi Hj Hk. rewrite !Less_spec by done.
  destruct (lessT_order (deadline pq i) (deadline pq j) (deadline pq k))
    as (H1 & H2 & H3 & H4).
  split; [by rewrite H1|]. split; [|split].
  - intros [= H]. by rewrite H2.
  - intros [= Hij] [= Hjk]. by rewrite H3.
  - intros [= Hij] [= Hji]. rewrite (H4 Hij Hji). done.
Qed.

(** [Pop] leaves the entry it takes off the slice with the position -1. *)
Lemma Pop_marks pq pq' (x : addr) :
  Pop pq = Ok (pq', x) ->
  exists it', mem pq' !! x = Some it' /\ queueIndex it' = -1.
Proof.
  unfold Pop. intros H.
  apply bind_Ok in H as (y & _ & H). apply bind_Ok in H as (it & Hit & H).
  injection H as <- <-. unfold deref in Hit.
  destruct (mem pq !! y) as [it0|] eqn:Hy; [|done]. injection Hit as <-.
  exists (set_queueIndex (-1) it0). cbn [mem]. split; [|reflexivity].
  apply list_lookup_insert_eq. by apply lookup_lt_Some in Hy.
Qed.

Lemma heap_Remove_marks pq pq' (i : Z) (x : addr) :
  heap_Remove pq i = Ok (pq', x) ->
  exists it', mem pq' !! x = Some it' /\ queueIndex it' = -1.
Proof.
  unfold heap_Remove. intros H. apply bind_Ok in H as (pq2 & _ & H).
  by apply Pop_marks in H.
Qed.

Lemma heap_Pop_marks pq pq' (x : addr) :
  heap_Pop pq = Ok (pq', x) ->
  exists it', mem pq' !! x = Some it' /\ queueIndex it' = -1.
Proof.
  unfold heap_Pop. intros H. apply bind_Ok in H as (pq1 & _ & H).
  apply bind_Ok in H as ([pq2 moved] & _ & H). by apply Pop_marks in H.
Qed.

(** An entry with the position -1: [update] leaves the index as it is,
    [remove] reads the slice out of range. *)
Lemma stale_entry pq (x : addr) it :
  mem pq !! x = Some it -> queueIndex it = -1 ->
  update pq x = Ok pq /\ remove pq x = Panic IndexOutOfRange.
Proof.
  intros Hit Hq. unfold update, remove, deref. rewrite Hit. cbn [bind].
  rewrite Hq. split.
  - unfold heap_Fix, down. cbn [down_loop]. cbn [Z.mul Z.add Z.opp Z.ltb
      Z.compare Pos.mul Z.pos_sub Z.succ_double Z.pred_double Z.double
      Pos.pred_double].
    rewrite orb_true_r. cbn [bind negb Z.ltb Z.compare Pos.compare
      Pos.compare_cont]. reflexivity.
  - unfold heap_Remove.
    destruct (Z.eqb_spec (Len pq - 1) (-1)) as [E|E]; cbn [negb bind].
    + unfold Pop. rewrite index_out; [done|]. lia.
    + unfold Swap. rewrite index_out; [done|]. lia.
Qed.

(** On an index in heap order the two sifting loops move nothing. *)
Lemma down_loop_ordered (fuel : nat) pq (i : Z) :
  tracked pq -> heap_ordered pq (Len pq) -> 0 <= i < Len pq ->
  down_loop (S fuel) pq i (Len pq) = Ok (pq, i).
Proof.
  intros T O Hi. cbn [down_loop].
  destruct (Z.leb_spec (Len pq) (2 * i + 1)) as [H1|H1]; [done|].
  replace (2 * i + 1 <? 0) with false by lia. cbn [orb].
  assert (Hj : forall j, j = 2 * i + 1 \/ j = 2 * i + 2 -> j < Len pq ->
            Less pq j i = Ok false).
  { intros j Hj Hn. rewrite Less_spec by (try done; lia). f_equal.
    apply O; [split; [lia|done]|done]. }
  destruct (Z.ltb_spec (2 * i + 1 + 1) (Len pq)) as [H2|H2].
  - rewrite Less_spec by (try done; lia). cbn [bind].
    destruct (lessT _ _).
    + rewrite Hj by lia. done.
    + rewrite Hj by lia. done.
  - cbn [bind]. rewrite Hj by lia. done.
Qed.

Lemma up_loop_ordered (fuel : nat) pq (j : Z) :
  tracked pq -> heap_ordered pq (Len pq) -> 0 <= j < Len pq ->
  up_loop (S fuel) pq j = Ok pq.
Proof.
  intros T O Hj. cbn [up_loop].
  destruct (Z.eqb_spec (Z.quot (j - 1) 2) j) as [E|E]; [done|].
  rewrite Less_spec by (try done; zlia). cbn [bind].
  replace (lessT (deadline pq j) (deadline pq (Z.quot (j - 1) 2))) with false;
    [done|].
  symmetry. apply O; [unfold child; zlia|lia].
Qed.

(** [update] of an entry whose deadline was not written is the identity on
    an index in heap order. *)
Theorem update_unchanged pq (x : addr) :
  tracked pq -> heap_ordered pq (Len pq) -> x ∈ items pq ->
  update pq x = Ok pq.
Proof.
  intros T O [k Hk]%list_elem_of_lookup.
  destruct (T _ _ Hk) as (it & Hit & Hq).
  pose proof (lookup_lt_Some _ _ _ Hk) as Lk.
  unfold update, deref. rewrite Hit. cbn [bind]. rewrite Hq.
  unfold heap_Fix, down.
  rewrite down_loop_ordered by (try done; unfold Len; lia).
  cbn [bind]. rewrite Z.ltb_irrefl. cbn [negb]. unfold up.
  apply up_loop_ordered; try done. unfold Len; lia.
Qed.

(** [push] puts the entry in: the index holds one entry more, namely the
    one pushed; it still tracks positions and is in heap order, so no
    entry is [Less] than the head; no payload was written. *)
Theorem push_adds_entry pq (x : addr) it :
  tracked pq -> heap_ordered pq (Len pq) ->
  x ∉ items pq -> mem pq !! x = Some it ->
  exists pq', push pq x = Ok pq' /\
    Len pq' = Len pq + 1 /\
    (forall a, a ∈ items pq' <-> a ∈ items pq \/ a = x) /\
    tracked pq' /\ heap_ordered pq' (Len pq') /\
    (forall k, 0 <= k < Len pq' -> Less pq' k 0 = Ok false) /\
    (forall a ita, mem pq !! a = Some ita ->
       exists ita', mem pq' !! a = Some ita' /\ same_payload ita ita') /\
    (forall a, a ∉ items pq -> a <> x -> mem pq' !! a = mem pq !! a).
Proof.
  intros T O Hx Hit.
  destruct (push_spec pq x it T Hx Hit) as (pq' & E & Ad & O').
  exists pq'. split; [done|].
  split. { unfold Len. rewrite (ad_length _ _ _ Ad). lia. }
  split; [apply Ad|]. split; [apply Ad|]. split; [by apply O'|].
  split. { apply heap_ordered_Less; [apply Ad|by apply O']. }
  split; [apply Ad|apply Ad].
Qed.

(** [remove] takes the entry out: the index holds one entry less, all
    the others are still there, positions are tracked and the heap order
    is kept; the entry removed is left with the position -1. *)
Theorem remove_drops_entry pq (x : addr) :
  tracked pq -> heap_ordered pq (Len pq) -> x ∈ items pq ->
  exists pq' it', remove pq x = Ok pq' /\
    Len pq' = Len pq - 1 /\
    (forall a, a ∈ items pq' <-> a ∈ items pq /\ a <> x) /\
    tracked pq' /\ heap_ordered pq' (Len pq') /\
    (forall a ita, mem pq !! a = Some ita ->
       exists ita', mem pq' !! a = Some ita' /\ same_payload ita ita') /\
    mem pq' !! x = Some it' /\ queueIndex it' = -1.
Proof.
  intros T O [k Hk]%list_elem_of_lookup.
  destruct (remove_spec pq x k T Hk) as (pq' & E & Dr & O').
  assert (Hm : exists it', mem pq' !! x = Some it' /\ queueIndex it' = -1).
  { destruct (T _ _ Hk) as (itx & Hitx & Hq).
    unfold remove, deref in E. rewrite Hitx in E. cbn [bind] in E.
    apply bind_Ok in E as ([pq2 y] & E & [= ->]).
    destruct (heap_Remove_spec pq (Z.of_nat k) x T) as (pq3 & E3 & _);
      [lia|by rewrite Nat2Z.id|].
    rewrite Hq, E3 in E. injection E as -> ->.
    by eapply heap_Remove_marks. }
  destruct Hm as (it' & Hit' & Hq'). exists pq', it'. split; [done|].
  split. { pose proof (dr_length _ _ _ Dr). unfold Len. lia. }
  split; [apply Dr|]. split; [apply Dr|]. split; [by apply O'|].
  split; [apply Dr|done].
Qed.

(** An entry that [pop] returned is no longer the index's: [update] on it
    does nothing, and [remove] on it is an index out of range. *)
Theorem popped_entry_is_stale pq (x : addr) :
  tracked pq -> items pq !! 0%nat = Some x ->
  exists pq' it', pop pq = Ok (pq', Some x) /\
    mem pq' !! x = Some it' /\ queueIndex it' = -1 /\
    (x ∉ items pq') /\
    update pq' x = Ok pq' /\
    remove pq' x = Panic IndexOutOfRange.
Proof.
  intros T Hx. destruct (pop_spec pq x T Hx) as (pq' & E & Dr & _).
  assert (Hm : exists it', mem pq' !! x = Some it' /\ queueIndex it' = -1).
  { unfold pop in E. destruct (Len pq =? 0); [done|].
    apply bind_Ok in E as ([pq2 y] & E & [= -> ->]).
    by eapply heap_Pop_marks. }
  destruct Hm as (it' & Hit' & Hq'). exists pq', it'.
  split; [done|]. split; [done|]. split; [done|].
  split. { intros Hin. apply (dr_elem _ _ _ Dr) in Hin. tauto. }
  by apply (stale_entry pq' x it').
Qed.

(** Writing a new deadline to an entry of the index and calling [update]
    on it: the index holds the same entries, tracks positions and is in
    heap order again; the entry carries the new deadline, and no other
    payload was written. *)
Theorem update_after_write pq (x : addr) (t : Time) :
  tracked pq -> heap_ordered pq (Len pq) -> x ∈ items pq ->
  exists pq1 pq' it',
    write_ExpireAt pq x t = Ok pq1 /\ update pq1 x = Ok pq' /\
    Len pq' = Len pq /\
    (forall a, a ∈ items pq' <-> a ∈ items pq) /\
    tracked pq' /\ heap_ordered pq' (Len pq') /\
    (forall k, 0 <= k < Len pq' -> Less pq' k 0 = Ok false) /\
    mem pq' !! x = Some it' /\ ExpireAt it' = t /\
    (forall a ita, a <> x -> mem pq !! a = Some ita ->
       exists ita', mem pq' !! a = Some ita' /\ same_payload ita ita').
Proof.
  intros T O Hin. pose proof Hin as [k Hk]%list_elem_of_lookup.
  destruct (T _ _ Hk) as (it & Hit & Hq).
  pose proof (lookup_lt_Some _ _ _ Hit) as Lx.
  pose proof (tracked_write pq x it (set_ExpireAt t it) T Hit eq_refl) as T1.
  set (pq1 := mkPQ (<[x := set_ExpireAt t it]> (mem pq)) (items pq)) in *.
  destruct (update_spec pq1 x k T1 Hk) as (pq' & E & R & O').
  destruct (write_keeps_rest_ordered pq x k it (set_ExpireAt t it) T Hk Hit O)
    as [A B].
  specialize (O' A B).
  destruct (re_payload _ _ R x (set_ExpireAt t it))
    as (it' & Hit' & _ & _ & _ & He').
  { cbn [pq1 mem]. by apply list_lookup_insert_eq. }
  exists pq1, pq', it'.
  split. { unfold write_ExpireAt, deref. rewrite Hit. reflexivity. }
  split; [done|]. split; [apply (rearranged_Len _ _ R)|].
  split; [apply R|]. split; [apply R|]. split; [done|].
  split. { apply heap_ordered_Less; [apply R|done]. }
  split; [done|]. split; [done|].
  intros a ita Hne Ha. apply (re_payload _ _ R a ita).
  cbn [pq1 mem]. by rewrite list_lookup_insert_ne.
Qed.

Lemma expiry_deadline pq (k : nat) (a : addr) :
  items pq !! k = Some a -> deadline pq (Z.of_nat k) = expiry (mem pq) a.
Proof.
  intros Hk. unfold deadline, expiry.
  destruct (Z.ltb_spec (Z.of_nat k) 0); [lia|]. by rewrite Nat2Z.id, Hk.
Qed.

Lemma expiry_payload (m m' : list (Item V)) (a : addr) it :
  m !! a = Some it ->
  (exists it', m' !! a = Some it' /\ same_payload it it') ->
  expiry m' a = expiry m a.
Proof.
  intros Hit (it' & Hit' & _ & _ & _ & He). unfold expiry.
  by rewrite Hit, Hit'.
Qed.

Lemma drain_spec (n : nat) : forall pq,
  tracked pq -> heap_ordered pq (Len pq) -> length (items pq) = n ->
  exists l pq', drain (S n) pq = Ok (l, pq') /\
    items pq' = [] /\ l ≡ₚ items pq /\
    (forall a it, mem pq !! a = Some it ->
       exists it', mem pq' !! a = Some it' /\ same_payload it it') /\
    (forall (i j : nat) (a b : addr),
       l !! i = Some a -> l !! j = Some b -> (i <= j)%nat ->
       leT (expiry (mem pq) a) (expiry (mem pq) b)).
Proof.
  induction n as [|n IH]; intros pq T O Hn.
  - exists [], pq. cbn [drain].
    rewrite pop_empty by (unfold Len; by rewrite Hn). cbn [bind].
    apply nil_length_inv in Hn. split; [done|]. split; [done|].
    split; [by rewrite Hn|]. split.
    + intros a it Ha. exists it. split; [done|]. apply same_payload_refl.
    + intros i j a b Hi. by rewrite lookup_nil in Hi.
  - destruct (lookup_lt_is_Some_2 (items pq) 0%nat) as [x Hx]; [lia|].
    destruct (pop_spec pq x T Hx) as (pq1 & E & Dr & O1).
    pose proof (dr_tracked _ _ _ Dr) as T1.
    destruct (IH pq1 T1 (O1 O)) as (l & pq' & El & Hemp & Hperm & Hpay & Hsort).
    { pose proof (dr_length _ _ _ Dr). lia. }
    exists (x :: l), pq'. split.
    { change (drain (S (S n)) pq) with
        (let* (pq2, item) := pop pq in
         match item with
         | None => Ok ([], pq2)
         | Some x => let* (l, pq3) := drain (S n) pq2 in Ok (x :: l, pq3)
         end).
      rewrite E. cbn [bind]. rewrite El. done. }
    split; [done|]. split.
    { rewrite Hperm. apply NoDup_Permutation.
      - apply NoDup_cons. split; [|by apply tracked_NoDup].
        intros Hin. apply (dr_elem _ _ _ Dr) in Hin. tauto.
      - by apply tracked_NoDup.
      - intros a. rewrite elem_of_cons, (dr_elem _ _ _ Dr).
        destruct (decide (a = x)) as [->|Hne]; [|tauto].
        split; [|tauto]. intros _. eauto using list_elem_of_lookup_2. }
    split.
    { intros a it Ha. destruct (dr_payload _ _ _ Dr a it Ha) as (it1 & H1 & S1).
      destruct (Hpay a it1 H1) as (it2 & H2 & S2).
      exists it2. eauto using same_payload_trans. }
    assert (Hin : forall (j : nat) b, l !! j = Some b ->
              exists (k : nat) itb, items pq !! k = Some b /\
                mem pq !! b = Some itb /\
                expiry (mem pq1) b = expiry (mem pq) b).
    { intros j b Hb. apply list_elem_of_lookup_2 in Hb. rewrite Hperm in Hb.
      apply (dr_elem _ _ _ Dr) in Hb as [Hb _].
      apply list_elem_of_lookup in Hb as [k Hk].
      destruct (T _ _ Hk) as (itb & Hitb & _). exists k, itb.
      split; [done|]. split; [done|].
      eapply expiry_payload; [done|]. by apply (dr_payload _ _ _ Dr). }
    intros [|i] [|j] a b Hi Hj Hij; cbn in Hi, Hj; try lia.
    + injection Hi as <-. injection Hj as <-. apply leT_refl.
    + injection Hi as <-. destruct (Hin j b Hj) as (k & itb & Hk & _ & _).
      rewrite <- (expiry_deadline pq 0 x Hx), <- (expiry_deadline pq k b Hk).
      apply (heap_ordered_head pq (Len pq)); [done|].
      pose proof (lookup_lt_Some _ _ _ Hk). unfold Len. lia.
    + destruct (Hin i a Hi) as (_ & _ & _ & _ & <-).
      destruct (Hin j b Hj) as (_ & _ & _ & _ & <-).
      apply (Hsort i j); [done|done|lia].
Qed.

(** Popping until [pop] returns nothing hands out every entry of the
    index once, in the order of [Less]: no entry comes before one with an
    earlier deadline, and those without a deadline come last. The index is
    empty afterwards and no payload was written. *)
Theorem drain_sorted pq :
  tracked pq -> heap_ordered pq (Len pq) ->
  exists l pq', drain (S (length (items pq))) pq = Ok (l, pq') /\
    items pq' = [] /\ l ≡ₚ items pq /\
    (forall a it, mem pq !! a = Some it ->
       exists it', mem pq' !! a = Some it' /\ same_payload it it') /\
    (forall (i j : nat) (a b : addr),
       l !! i = Some a -> l !! j = Some b -> (i <= j)%nat ->
       lessT (expiry (mem pq) b) (expiry (mem pq) a) = false).
Proof. intros T O. by apply drain_spec. Qed.

End MoreIndex.

(** * More about the entry *)

Section MoreEntry.

Context {V : Type}.
Implicit Types (it : Item V).

(** A touched entry lives for its TTL, counted from the touch: it is
    expired at an instant exactly when its TTL is positive and the instant
    lies more than the TTL after the touch. It is never expired at the
    instant of the touch, and the touch writes nothing but the deadline. *)
Theorem touch_renews (now now' : Time) it :
  (expired now' (touch now it) = true <-> 0 < TTL it /\ now + TTL it < now') /\
  expired now (touch now it) = false /\
  key (touch now it) = key it /\ Data (touch now it) = Data it /\
  TTL (touch now it) = TTL it /\ queueIndex (touch now it) = queueIndex it /\
  touch now (touch now it) = touch now it.
Proof.
  unfold expired, touch, Before, Add.
  destruct (Z.ltb_spec 0 (TTL it)) as [H|H]; cbn.
  - destruct (Z.leb_spec (TTL it) 0); [lia|].
    destruct (Z.ltb_spec 0 (TTL it)); [|lia].
    repeat split; try done; lia.
  - destruct (Z.leb_spec (TTL it) 0); [|lia].
    destruct (Z.ltb_spec 0 (TTL it)); [lia|].
    repeat split; try done; lia.
Qed.

(** A new entry carries the key, the data and the TTL it is made with and
    position 0; its deadline is set from the TTL if that is positive, else
    left unset; it is expired exactly from the instant after its TTL has
    run out, and never if the TTL is not positive. *)
Theorem newItem_lifetime (now now' : Time) (k : string) (d : V)
    (ttl : Duration) :
  key (newItem now k d ttl) = k /\ Data (newItem now k d ttl) = d /\
  TTL (newItem now k d ttl) = ttl /\ queueIndex (newItem now k d ttl) = 0 /\
  ExpireAt (newItem now k d ttl) = (if 0 <? ttl then now + ttl else 0) /\
  (expired now' (newItem now k d ttl) = true <-> 0 < ttl /\ now + ttl < now').
Proof.
  unfold newItem, expired, touch, Before, Add. cbn [TTL].
  destruct (Z.ltb_spec 0 ttl) as [H|H]; cbn.
  - destruct (Z.leb_spec ttl 0); [lia|]. repeat split; try done; lia.
  - destruct (Z.leb_spec ttl 0); [|lia]. repeat split; try done; lia.
Qed.

End MoreEntry.

(** * More about the store: reads, writes and removals *)

Section MoreStoreFacts.

Context {V : Type}.
Implicit Types (it : Item V) (pq : pqueue V) (c : Cache V).

Lemma GetItem_miss (now : Time) c (k : string) :
  (cache_items c !! k = None \/
   exists (a : addr) it, cache_items c !! k = Some a /\
     heap c !! a = Some it /\ expired now it = true) ->
  GetItem now c k = Ok (c, None, false).
Proof.
  intros [H|(a & it & Ha & Hit & Hexp)]; unfold GetItem.
  - by rewrite H.
  - unfold deref. rewrite Ha, Hit. cbn [bind]. by rewrite Hexp.
Qed.

Lemma Get_absent (now : Time) c (k : string) :
  (cache_items c !! k = None \/
   exists (a : addr) it, cache_items c !! k = Some a /\
     heap c !! a = Some it /\ expired now it = true) ->
  Get now c k = Ok (c, None, false) /\ GetTTL now c k = Ok (c, 0, false).
Proof. intros H. unfold Get, GetTTL. by rewrite (GetItem_miss _ _ _ H). Qed.

(** A read of a key that is not in the map, or whose entry has expired,
    finds nothing and leaves the store exactly as it is: the expired entry
    stays in the map and in the index, and no wake signal is sent. *)
Theorem read_miss_leaves_store (now : Time) c (k : string) :
  (cache_items c !! k = None \/
   exists (a : addr) it, cache_items c !! k = Some a /\
     heap c !! a = Some it /\ expired now it = true) ->
  Get now c k = Ok (c, None, false) /\ GetTTL now c k = Ok (c, 0, false).
Proof. apply Get_absent. Qed.

Lemma Get_present (now : Time) c (k : string) (a : addr) it :
  store_consistent c ->
  cache_items c !! k = Some a -> heap c !! a = Some it ->
  expired now it = false ->
  exists c' it',
    Get now c k = Ok (c', Some (Data it), true) /\
    store_consistent c' /\
    cache_items c' = cache_items c /\ same_config c c' /\
    heap c' !! a = Some it' /\
    same_payload (read_entry now c it) it' /\ Data it' = Data it /\
    others_kept a (heap c) (heap c') /\
    (forall b, b ∈ priorityQueue c' <-> b ∈ priorityQueue c) /\
    events c' = events c ++
      (if now + TTL it' <? expirationTime c
       then [ExpirationNotification] else []) /\
    (store_ordered c -> store_ordered c') /\
    exists c'', GetTTL now c k = Ok (c'', TTL it', true).
Proof.
  intros SC Ha Hit Hexp.
  destruct (GetItem_spec now c k SC)
    as [[_ [Hn|(a0 & it0 & Ha0 & Hit0 & Hexp0)]]
       |(a1 & it1 & c1 & it1' & trig & E & Ha1 & Hit1 & _ & SC1 & SS1 & Hit1'
         & Hk1 & Ord1 & Cf1 & Hd1 & Fr1 & SP1 & Htrig)];
    [congruence| |].
  { assert (a0 = a) as -> by congruence. congruence. }
  assert (a1 = a) as -> by congruence.
  assert (it1 = it) as -> by congruence.
  unfold Get, GetTTL. rewrite E. cbn [bind]. unfold deref. rewrite Hit1'.
  cbn [bind].
  eexists _, it1'. split; [by rewrite Hd1|].
  assert (Hev : events (if trig then emit ExpirationNotification c1 else c1)
                = events c ++ (if now + TTL it1' <? expirationTime c
                               then [ExpirationNotification] else [])).
  { rewrite Htrig. unfold After, Add.
    destruct (now + TTL it1' <? expirationTime c); cbn;
      rewrite (ss_events _ _ SS1); by rewrite ?app_nil_r. }
  destruct trig.
  - split; [exact SC1|]. split; [apply SS1|].
    split. { destruct Cf1. by split. }
    split; [done|]. split; [done|]. split; [done|]. split; [done|].
    split; [apply SS1|]. split; [done|]. split; [exact Ord1|]. by eexists.
  - split; [exact SC1|]. split; [apply SS1|]. split; [done|].
    split; [done|]. split; [done|]. split; [done|]. split; [done|].
    split; [apply SS1|]. split; [done|]. split; [exact Ord1|]. by eexists.
Qed.


(** An entry with a positive TTL is found up to its deadline and not
    after. *)
Lemma Get_until (now : Time) c (k : string) (a : addr) it :
  store_consistent c ->
  cache_items c !! k = Some a -> heap c !! a = Some it -> 0 < TTL it ->
  (now <= ExpireAt it ->
     exists c', Get now c k = Ok (c', Some (Data it), true)) /\
  (ExpireAt it < now -> Get now c k = Ok (c, None, false)).
Proof.
  intros SC Ha Hit Hpos.
  assert (Hexp : expired now it = (ExpireAt it <? now)).
  { unfold expired, Before. destruct (Z.leb_spec (TTL it) 0); [lia|done]. }
  split; intros Hn.
  - destruct (Get_present now c k a it SC Ha Hit) as (c' & _ & E & _).
    { rewrite Hexp. lia. }
    by exists c'.
  - apply Get_absent. right. exists a, it. rewrite Hexp.
    split; [done|]. split; [done|]. lia.
Qed.


Lemma live_cases (now : Time) c (k : string) :
  store_consistent c ->
  (live now c k = false /\
   (cache_items c !! k = None \/
    exists (a : addr) it, cache_items c !! k = Some a /\
      heap c !! a = Some it /\ expired now it = true)) \/
  (live now c k = true /\
   exists (a : addr) it, cache_items c !! k = Some a /\
     heap c !! a = Some it /\ expired now it = false).
Proof.
  intros [_ M]. unfold live.
  destruct (cache_items c !! k) as [a|] eqn:Ha; [|left; split; [done|by left]].
  destruct (M _ _ Ha) as (_ & it & Hit & _). rewrite Hit.
  destruct (expired now it) eqn:Hexp; [left|right]; (split; [done|]).
  - right. by exists a, it.
  - by exists a, it.
Qed.

(** What [SetWithTTL] leaves, whatever the key was before. *)
Lemma SetWithTTL_entry (now : Time) c (k : string) (data : V) (d : Duration) :
  store_consistent c ->
  exists c' (a : addr) it',
    SetWithTTL now c k data d = Ok c' /\ store_consistent c' /\
    cache_items c' = <[k := a]> (cache_items c) /\
    heap c' !! a = Some it' /\ key it' = k /\ Data it' = data /\
    TTL it' = effective_ttl c d /\
    (0 < effective_ttl c d -> ExpireAt it' = now + effective_ttl c d) /\
    same_config c c' /\ others_kept a (heap c) (heap c') /\
    (store_ordered c -> store_ordered c') /\
    length (priorityQueue c') =
      (if live now c k then length (priorityQueue c)
       else S (length (priorityQueue c))) /\
    events c' = events c ++
      (if negb (live now c k) && newItemCallback c
       then [NewItemCallback k data] else []) ++ [ExpirationNotification] /\
    (forall b, b ∈ priorityQueue c -> b ∈ priorityQueue c') /\
    (forall b, b ∈ priorityQueue c' -> b ∈ priorityQueue c \/ b = a) /\
    (live now c k = true -> cache_items c !! k = Some a).
Proof.
  intros SC.
  destruct (live_cases now c k SC) as [[-> Hk]|[-> (a & it & Ha & Hit & Hexp)]].
  - destruct (SetWithTTL_fresh_entry now c k data d SC Hk)
      as (c' & it' & E & SC' & Hm & _ & Hql & Hqe & Hit' & Hk' & Hd' & Hev
          & Cf & Ht & He & _ & Fr & Ord).
    exists c', (length (heap c)), it'. cbn [negb andb].
    do 11 (split; [done|]). split; [done|]. split; [done|].
    split. { intros b Hb. apply Hqe. by left. }
    split; [|done]. intros b Hb. by apply Hqe.
  - destruct (SetWithTTL_live_key now c k data d a it SC Ha Hit Hexp)
      as (c' & it' & E & SC' & Hm & _ & Hql & Hqe & Hit' & Hk' & Hd' & Hev
          & Cf & Ht & He & Fr & Ord).
    exists c', a, it'. cbn [negb andb app].
    split; [done|]. split; [done|].
    split. { rewrite Hm. symmetry. by apply insert_id. }
    do 8 (split; [done|]). split; [done|]. split; [done|].
    split. { intros b Hb. by apply Hqe. }
    split; [|done]. intros b Hb. left. by apply Hqe.
Qed.

(** Two stores that file the same entry under a key, with the same
    payload, answer a read of the key alike. *)
Lemma Get_agree (now : Time) c c' (k : string) :
  store_consistent c -> store_consistent c' ->
  cache_items c' !! k = cache_items c !! k ->
  (forall (a : addr) it, cache_items c !! k = Some a -> heap c !! a = Some it ->
     exists it', heap c' !! a = Some it' /\ same_payload it it') ->
  exists c1 c2 v found,
    Get now c k = Ok (c1, v, found) /\ Get now c' k = Ok (c2, v, found).
Proof.
  intros SC SC' Hm Hp.
  destruct (cache_items c !! k) as [a|] eqn:Ha.
  - pose proof SC as [_ M]. destruct (M _ _ Ha) as (_ & it & Hit & _).
    destruct (Hp a it eq_refl Hit) as (it' & Hit' & _ & Hd & Ht & He).
    assert (Hexp : expired now it' = expired now it)
      by (unfold expired; by rewrite Ht, He).
    destruct (expired now it) eqn:Hx.
    + exists c, c', None, false. split; apply Get_absent; right; eauto.
    + destruct (Get_present now c k a it SC Ha Hit Hx) as (c1 & _ & E1 & _).
      destruct (Get_present now c' k a it' SC' Hm Hit' Hexp)
        as (c2 & _ & E2 & _).
      exists c1, c2, (Some (Data it)), true. split; [done|]. by rewrite <- Hd.
  - exists c, c', None, false. split; apply Get_absent; by left.
Qed.

(** A write to one key does not change what a read of another key finds,
    and leaves the settings of the store alone. *)
Theorem SetWithTTL_other_keys (now now' : Time) c (k k' : string) (data : V)
    (d : Duration) :
  store_consistent c -> k' <> k ->
  exists c', SetWithTTL now c k data d = Ok c' /\
    cache_items c' !! k' = cache_items c !! k' /\
    same_config c c' /\
    exists c1 c2 v found,
      Get now' c k' = Ok (c1, v, found) /\ Get now' c' k' = Ok (c2, v, found).
Proof.
  intros SC Hne.
  destruct (SetWithTTL_entry now c k data d SC)
    as (c' & a & it' & E & SC' & Hm & Hit' & Hk' & _ & _ & _ & Cf & Fr & _).
  assert (Hm' : cache_items c' !! k' = cache_items c !! k')
    by (rewrite Hm; by apply lookup_insert_ne).
  exists c'. split; [done|]. split; [done|]. split; [done|].
  apply Get_agree; try done.
  intros b itb Hb Hitb. apply Fr; [done|]. intros ->.
  destruct SC' as [_ M']. rewrite <- Hm' in Hb.
  destruct (M' _ _ Hb) as (_ & it2 & Hit2 & Hk2). congruence.
Qed.

Lemma Remove_effects c (k : string) (a : addr) :
  store_consistent c -> cache_items c !! k = Some a ->
  exists c', Remove c k = Ok (c', true) /\ store_consistent c' /\
    cache_items c' = delete k (cache_items c) /\
    same_config c c' /\ events c' = events c /\
    (forall (b : addr) it, heap c !! b = Some it ->
       exists it', heap c' !! b = Some it' /\ same_payload it it') /\
    (forall b, b ∈ priorityQueue c' <-> b ∈ priorityQueue c /\ b <> a) /\
    S (length (priorityQueue c')) = length (priorityQueue c) /\
    (store_ordered c -> store_ordered c').
Proof.
  intros SC Ha.
  destruct (Remove_present c k a SC Ha) as (c' & E & Hm & _ & _ & He & Hev & SC').
  exists c'. split; [done|]. split; [done|]. split; [done|].
  pose proof SC as [T M]. destruct (M _ _ Ha) as (Hin & it & Hit & Hk).
  apply list_elem_of_lookup in Hin as [pos Hpos].
  unfold Remove, deref in E. rewrite Ha, Hit in E. cbn [bind] in E.
  destruct (remove_spec (the_pq c) a pos T Hpos) as (pq' & Er & Dr & O).
  change (the_pq (set_cache_items (delete (key it) (cache_items c)) c))
    with (the_pq c) in E.
  rewrite Er in E. cbn [bind] in E. injection E as <-.
  split; [by split|]. split; [done|].
  split; [apply (dr_payload _ _ _ Dr)|]. split; [done|].
  split; [apply (dr_length _ _ _ Dr)|].
  intros Oc. unfold store_ordered.
  replace (the_pq (with_pq pq' _)) with pq' by (by destruct pq').
  by apply O.
Qed.

(** A removed key is gone: whether or not [Remove] found it, a read of the
    key afterwards finds nothing and a second [Remove] reports [false];
    reads of the other keys find what they found before. *)
Theorem Remove_then_Get (now : Time) c (k : string) :
  store_consistent c ->
  exists c', Remove c k = Ok (c', bool_decide (is_Some (cache_items c !! k))) /\
    store_consistent c' /\ same_config c c' /\ events c' = events c /\
    Get now c' k = Ok (c', None, false) /\
    Remove c' k = Ok (c', false) /\
    (forall k', k' <> k ->
       exists c1 c2 v found,
         Get now c k' = Ok (c1, v, found) /\
         Get now c' k' = Ok (c2, v, found)).
Proof.
  intros SC. destruct (cache_items c !! k) as [a|] eqn:Ha.
  - destruct (Remove_effects c k a SC Ha)
      as (c' & E & SC' & Hm & Cf & Hev & Hp & _).
    assert (Hk : cache_items c' !! k = None)
      by (rewrite Hm; apply lookup_delete_eq).
    exists c'. rewrite bool_decide_true by done.
    split; [done|]. split; [done|]. split; [done|]. split; [done|].
    split. { apply Get_absent. by left. }
    split. { unfold Remove. by rewrite Hk. }
    intros k' Hne. apply Get_agree; try done.
    + rewrite Hm. by apply lookup_delete_ne.
    + intros b itb _ Hb. by apply Hp.
  - exists c. rewrite bool_decide_false by (by intros [? ?]).
    assert (E : Remove c k = Ok (c, false)) by (unfold Remove; by rewrite Ha).
    split; [done|]. split; [done|]. split; [by split|]. split; [done|].
    split. { apply Get_absent. by left. }
    split; [done|].
    intros k' Hne. apply Get_agree; try done.
    intros b itb _ Hb. exists itb. split; [done|]. apply same_payload_refl.
Qed.

Lemma Count_le_index c : store_consistent c -> Count c <= Len (the_pq c).
Proof.
  intros [T M]. unfold Count, Len. cbn [the_pq items].
  rewrite <- length_map_to_list, <- (length_fmap snd).
  apply inj_le, submseteq_length, NoDup_submseteq.
  - apply NoDup_fmap_2_strong; [|apply NoDup_map_to_list].
    intros [k1 a1] [k2 a2] H1%elem_of_map_to_list H2%elem_of_map_to_list.
    cbn. intros <-.
    destruct (M _ _ H1) as (_ & it1 & Hit1 & Hk1).
    destruct (M _ _ H2) as (_ & it2 & Hit2 & Hk2).
    f_equal. congruence.
  - intros a [[k a'] [-> Hk%elem_of_map_to_list]]%list_elem_of_fmap.
    by destruct (M _ _ Hk).
Qed.

(** [Count] is the number of keys of the map: a write adds one unless the
    map held the key already (be its entry expired or not), a removal
    takes one off if it found the key. The index holds at least as many
    entries as the map has keys. *)
Theorem Count_bookkeeping (now : Time) c (k : string) (data : V)
    (d : Duration) :
  store_consistent c ->
  0 <= Count c <= Len (the_pq c) /\
  (exists c', SetWithTTL now c k data d = Ok c' /\
     Count c' = if bool_decide (is_Some (cache_items c !! k))
                then Count c else Count c + 1) /\
  (exists c' found, Remove c k = Ok (c', found) /\
     found = bool_decide (is_Some (cache_items c !! k)) /\
     Count c' = if found then Count c - 1 else Count c).
Proof.
  intros SC. split; [|split].
  - split; [unfold Count; lia|by apply Count_le_index].
  - destruct (SetWithTTL_entry now c k data d SC) as (c' & a & _ & E & _ & Hm & _).
    exists c'. split; [done|]. unfold Count. rewrite Hm.
    destruct (cache_items c !! k) as [b|] eqn:Hb.
    + rewrite bool_decide_true by done. by rewrite map_size_insert_Some.
    + rewrite bool_decide_false by (by intros [? ?]).
      rewrite map_size_insert_None by done. lia.
  - destruct (cache_items c !! k) as [a|] eqn:Ha.
    + destruct (Remove_effects c k a SC Ha) as (c' & E & _ & Hm & _).
      exists c', true. rewrite bool_decide_true by done.
      split; [done|]. split; [done|]. unfold Count. rewrite Hm.
      rewrite map_size_delete_Some by done.
      assert (size (cache_items c) <> 0%nat); [|lia].
      apply map_size_ne_0_lookup. by exists k.
    + exists c, false. rewrite bool_decide_false by (by intros [? ?]).
      split; [|done]. unfold Remove. by rewrite Ha.
Qed.



End MoreStoreFacts.

(** * More about the store: its life cycle and the sleep of the sweep *)

Section StoreLifecycle.

Context {V : Type}.
Implicit Types (it : Item V) (pq : pqueue V) (c : Cache V).

(** A store with no key and an empty index. *)
Lemma empty_store c :
  cache_items c = ∅ -> priorityQueue c = [] ->
  store_consistent c /\ store_ordered c /\ Count c = 0 /\
  (forall (now : Time) (k : string),
     Get now c k = Ok (c, None, false) /\ GetTTL now c k = Ok (c, 0, false) /\
     Remove c k = Ok (c, false)) /\
  (forall now : Time, evictionPass now c = Ok c) /\
  (forall now : Time,
     sleepTime now c = Ok (if 0 <? ttl c then ttl c else Hour)).
Proof.
  intros Hm Hq. split; [split|split; [|split; [|split; [|split]]]].
  - intros k a H. cbn in H. by rewrite Hq, lookup_nil in H.
  - intros k a H. by rewrite Hm, lookup_empty in H.
  - intros p ch [Hp Hc] Hn. unfold Len in Hn. cbn in Hn. rewrite Hq in Hn.
    cbn in Hn. lia.
  - unfold Count. by rewrite Hm, map_size_empty.
  - intros now k.
    assert (Hk : cache_items c !! k = None) by (by rewrite Hm, lookup_empty).
    destruct (Get_absent now c k (or_introl Hk)) as [-> ->].
    unfold Remove. by rewrite Hk.
  - intros now. unfold evictionPass, Len. cbn. by rewrite Hq.
  - intros now. unfold sleepTime, Len. cbn. rewrite Hq. cbn.
    by destruct (0 <? ttl c).
Qed.

Lemma NewCache_spec (now : Time) :
  exists c : Cache V, NewCache now = Ok c /\
    store_consistent c /\ store_ordered c /\ Count c = 0 /\
    ttl c = 0 /\ events c = [] /\ expirationTime c = now /\
    isShutDown c = false /\ skipTTLExtension c = false /\
    expireCallback c = false /\ newItemCallback c = false /\
    checkExpireCallback c = None /\
    (forall (now' : Time) (k : string),
       Get now' c k = Ok (c, None, false) /\
       GetTTL now' c k = Ok (c, 0, false) /\ Remove c k = Ok (c, false)) /\
    (forall now' : Time, evictionPass now' c = Ok c) /\
    (forall now' : Time, sleepTime now' c = Ok Hour).
Proof.
  eexists. split; [reflexivity|].
  match goal with |- store_consistent ?c /\ _ =>
    destruct (empty_store c eq_refl eq_refl) as (SC & O & Hc & Hr & He & Hs)
  end.
  do 12 (split; [done|]). split; [done|]. exact Hs.
Qed.

(** [NewCache] gives a store with no key, no global TTL, no callback and
    the extension on read switched on; it wakes the sweep at the instant
    of its making. Every read of it misses, and the sweep, which has
    nothing to evict, sleeps for an hour. *)
Theorem NewCache_empty (now : Time) :
  exists c : Cache V, NewCache now = Ok c /\
    store_consistent c /\ store_ordered c /\ Count c = 0 /\
    ttl c = 0 /\ events c = [] /\ expirationTime c = now /\
    isShutDown c = false /\ skipTTLExtension c = false /\
    expireCallback c = false /\ newItemCallback c = false /\
    checkExpireCallback c = None /\
    (forall (now' : Time) (k : string),
       Get now' c k = Ok (c, None, false) /\
       GetTTL now' c k = Ok (c, 0, false) /\ Remove c k = Ok (c, false)) /\
    (forall now' : Time, evictionPass now' c = Ok c) /\
    (forall now' : Time, sleepTime now' c = Ok Hour).
Proof. apply NewCache_spec. Qed.

Lemma Purge_spec c :
  exists c', Purge c = Ok c' /\
    cache_items c' = ∅ /\ priorityQueue c' = [] /\ heap c' = heap c /\
    same_config c c' /\ events c' = events c /\
    store_consistent c' /\ store_ordered c' /\ Count c' = 0 /\
    (forall (now : Time) (k : string),
       Get now c' k = Ok (c', None, false) /\
       GetTTL now c' k = Ok (c', 0, false) /\ Remove c' k = Ok (c', false)) /\
    (forall now : Time, evictionPass now c' = Ok c') /\
    (forall now : Time,
       sleepTime now c' = Ok (if 0 <? ttl c then ttl c else Hour)).
Proof.
  eexists. split; [reflexivity|].
  match goal with |- cache_items ?c' = _ /\ _ =>
    destruct (empty_store c' eq_refl eq_refl) as (SC & O & Hc & Hr & He & Hs)
  end.
  do 4 (split; [done|]). split; [done|]. split; [done|]. split; [done|].
  split; [done|]. split; [done|]. split; [done|]. exact Hs.
Qed.

(** [Purge] never fails: it empties the map and the index, whatever they
    held, and leaves the settings and the event log alone. Every read
    then misses, and the sweep has nothing to evict. *)
Theorem Purge_empties c :
  exists c', Purge c = Ok c' /\
    cache_items c' = ∅ /\ priorityQueue c' = [] /\ heap c' = heap c /\
    same_config c c' /\ events c' = events c /\
    store_consistent c' /\ store_ordered c' /\ Count c' = 0 /\
    (forall (now : Time) (k : string),
       Get now c' k = Ok (c', None, false) /\
       GetTTL now c' k = Ok (c', 0, false) /\ Remove c' k = Ok (c', false)) /\
    (forall now : Time, evictionPass now c' = Ok c') /\
    (forall now : Time,
       sleepTime now c' = Ok (if 0 <? ttl c then ttl c else Hour)).
Proof. apply Purge_spec. Qed.

(** [Close] never fails and leaves the store shut down and empty. Only
    the first call goes through the handshake with the sweep loop: a
    second [Close] changes nothing and does not signal again. *)
Theorem Close_twice c :
  exists c1, Close c = Ok (c1, negb (isShutDown c)) /\
    isShutDown c1 = true /\ cache_items c1 = ∅ /\ priorityQueue c1 = [] /\
    store_consistent c1 /\ events c1 = events c /\ ttl c1 = ttl c /\
    Close c1 = Ok (c1, false).
Proof.
  unfold Close. destruct (isShutDown c) eqn:Hs; cbn [negb].
  - destruct (Purge_spec c) as (c1 & E & Hm & Hq & Hh & Cf & Hev & SC & _).
    exists c1. rewrite E. cbn [bind]. split; [done|].
    assert (Hs1 : isShutDown c1 = true) by (by rewrite (sc_isShutDown _ _ Cf)).
    rewrite Hs1. cbn [negb].
    do 5 (split; [done|]). split; [apply Cf|].
    injection E as <-. reflexivity.
  - destruct (Purge_spec (set_isShutDown true c))
      as (c1 & E & Hm & Hq & Hh & Cf & Hev & SC & _).
    exists c1. rewrite E. cbn [bind]. split; [done|].
    assert (Hs1 : isShutDown c1 = true) by (by rewrite (sc_isShutDown _ _ Cf)).
    rewrite Hs1. cbn [negb].
    do 5 (split; [done|]). split; [apply Cf|].
    injection E as <-. reflexivity.
Qed.

Lemma Until_nonneg (now t : Time) : now <= t -> 0 <= Until now t <= t - now.
Proof.
  unfold Until, Sub, minDuration, maxDuration. intros H.
  destruct (Z.ltb_spec (t - now) (- 2 ^ 63)); [lia|].
  destruct (Z.ltb_spec (2 ^ 63 - 1) (t - now)); lia.
Qed.

(** What the sweep computes for its sleep from the head of the index. *)
Lemma sleepTime_head (now : Time) c (head : addr) it :
  priorityQueue c !! 0%nat = Some head -> heap c !! head = Some it ->
  exists base,
    sleepTime now c = Ok (if 0 <? ttl c then Z.min base (ttl c) else base) /\
    0 <= base /\
    (ExpireAt it <> 0 -> base <= Z.max (ExpireAt it - now) Microsecond) /\
    (base = 0 -> ExpireAt it = now).
Proof.
  intros Hh Hit. unfold sleepTime, Len. cbn [the_pq items].
  pose proof (lookup_lt_Some _ _ _ Hh) as Lh.
  destruct (Z.ltb_spec 0 (Z.of_nat (length (priorityQueue c)))); [|lia].
  destruct (index_Ok (priorityQueue c) 0) as (h' & Hh' & ->); [lia|].
  change (Z.to_nat 0) with 0%nat in Hh'.
  replace h' with head by congruence. cbn [bind].
  unfold deref. rewrite Hit. cbn [bind]. rewrite min_Z_min.
  eexists. split; [reflexivity|].
  rewrite Until_sign. unfold IsZero, Microsecond, Hour.
  destruct (Z.ltb_spec (ExpireAt it) now) as [Hlt|Hge]; cbn [andb].
  - destruct (Z.eqb_spec (ExpireAt it) 0); lia.
  - destruct (Until_nonneg now (ExpireAt it) Hge) as [U1 U2].
    split; [done|]. split; [lia|].
    intros U0. unfold Until, Sub, minDuration, maxDuration in U0.
    destruct (Z.ltb_spec (ExpireAt it - now) (- 2 ^ 63)); [lia|].
    destruct (Z.ltb_spec (2 ^ 63 - 1) (ExpireAt it - now)); lia.
Qed.

Lemma sleepTime_total (now : Time) c :
  store_consistent c ->
  exists d, sleepTime now c = Ok d /\ 0 <= d /\
    (0 < ttl c -> d <= ttl c) /\
    (d = 0 -> exists (head : addr) it,
       priorityQueue c !! 0%nat = Some head /\ heap c !! head = Some it /\
       ExpireAt it = now) /\
    fallAsleep now c = Ok (set_expirationTime (now + d) c, d).
Proof.
  intros [T M].
  destruct (priorityQueue c) as [|head q] eqn:Hq.
  - exists (if 0 <? ttl c then ttl c else Hour).
    assert (E : sleepTime now c = Ok (if 0 <? ttl c then ttl c else Hour)).
    { unfold sleepTime, Len. cbn. rewrite Hq. cbn. by destruct (0 <? ttl c). }
    split; [done|]. unfold fallAsleep. rewrite E. cbn [bind].
    unfold Hour. destruct (Z.ltb_spec 0 (ttl c)); repeat split; try done; lia.
  - destruct (T 0%nat head) as (it & Hit & _); [cbn; by rewrite Hq|].
    cbn [the_pq mem] in Hit.
    destruct (sleepTime_head now c head it) as (base & E & B0 & _ & Bz);
      [by rewrite Hq|done|].
    rewrite <- Hq. eexists. split; [exact E|]. unfold fallAsleep. rewrite E.
    cbn [bind]. unfold Add.
    destruct (Z.ltb_spec 0 (ttl c)).
    + split; [lia|]. split; [lia|]. split; [|done].
      intros Hz. exists head, it. rewrite Hq. split; [done|]. split; [done|].
      apply Bz. lia.
    + split; [lia|]. split; [lia|]. split; [|done].
      intros Hz. exists head, it. rewrite Hq. split; [done|]. split; [done|].
      by apply Bz.
Qed.

(** On a consistent store the sweep always finds a sleep duration, and
    never a negative one; with a global TTL set it sleeps no longer than
    that. It sleeps for zero only when the head of the index is due at
    this very instant. Falling asleep records the wake instant. *)
Theorem sleepTime_bounds (now : Time) c :
  store_consistent c ->
  exists d, sleepTime now c = Ok d /\ 0 <= d /\
    (0 < ttl c -> d <= ttl c) /\
    (d = 0 -> exists (head : addr) it,
       priorityQueue c !! 0%nat = Some head /\ heap c !! head = Some it /\
       ExpireAt it = now) /\
    fallAsleep now c = Ok (set_expirationTime (now + d) c, d).
Proof. apply sleepTime_total. Qed.

(** The head of an index in heap order holds the earliest deadline, so the
    sweep does not sleep past any deadline of the index by more than the
    microsecond it sleeps when the head is overdue. *)
Theorem sleepTime_before_deadlines (now : Time) c (a : addr) it :
  store_consistent c -> store_ordered c ->
  a ∈ priorityQueue c -> heap c !! a = Some it -> ExpireAt it <> 0 ->
  exists d, sleepTime now c = Ok d /\
    d <= Z.max (ExpireAt it - now) Microsecond.
Proof.
  intros [T M] O [k Hk]%list_elem_of_lookup Hit Hne.
  pose proof (lookup_lt_Some _ _ _ Hk) as Lk.
  destruct (tracked_slot (the_pq c) 0 T) as (h & ith & Hh & _ & Hith & _ & Dh);
    [unfold Len; cbn; lia|].
  cbn [the_pq items mem] in Hh, Hith. change (Z.to_nat 0) with 0%nat in Hh.
  destruct (sleepTime_head now c h ith Hh Hith) as (base & E & B0 & Bd & _).
  eexists. split; [exact E|].
  assert (Hle : leT (ExpireAt ith) (ExpireAt it)).
  { rewrite <- Dh.
    replace (ExpireAt it) with (deadline (the_pq c) (Z.of_nat k)).
    - apply (heap_ordered_head (the_pq c) (Len (the_pq c))); [done|].
      unfold Len. cbn. lia.
    - rewrite (expiry_deadline (the_pq c) k a Hk). unfold expiry. cbn.
      by rewrite Hit. }
  unfold leT, lessT, IsZero, Before in Hle.
  destruct (Z.eqb_spec (ExpireAt it) 0); [done|].
  destruct (Z.eqb_spec (ExpireAt ith) 0); [done|].
  specialize (Bd ltac:(done)). destruct (0 <? ttl c); lia.
Qed.

End StoreLifecycle.

(** * The eviction pass *)

Section Sweep.

Context {V : Type}.
Implicit Types (it : Item V) (pq : pqueue V) (c : Cache V).

Lemma vetoed_ext c c' it it' :
  checkExpireCallback c' = checkExpireCallback c ->
  key it' = key it -> Data it' = Data it -> vetoed c' it' = vetoed c it.
Proof. unfold vetoed. by intros -> -> ->. Qed.

Lemma expired_ext (now : Time) it it' :
  TTL it' = TTL it -> ExpireAt it' = ExpireAt it ->
  expired now it' = expired now it.
Proof. unfold expired. by intros -> ->. Qed.

Lemma same_config_refl c : same_config c c.
Proof. by split. Qed.

Lemma same_config_trans c1 c2 c3 :
  same_config c1 c2 -> same_config c2 c3 -> same_config c1 c3.
Proof. intros [] []. split; congruence. Qed.

Lemma same_setup_trans c1 c2 c3 :
  same_setup c1 c2 -> same_setup c2 c3 -> same_setup c1 c3.
Proof.
  intros [] []. split; try congruence.
  intros b. by rewrite ss_index_elem1, ss_index_elem0.
Qed.

Lemma never_vetoes_config c c' :
  checkExpireCallback c' = checkExpireCallback c ->
  never_vetoes c -> never_vetoes c'.
Proof. intros H N it. rewrite <- (N it). by apply vetoed_ext. Qed.

Lemma always_vetoes_config c c' :
  checkExpireCallback c' = checkExpireCallback c ->
  always_vetoes c -> always_vetoes c'.
Proof. intros H N it. rewrite <- (N it). by apply vetoed_ext. Qed.

Lemma swept_refl (now : Time) c : swept now c c.
Proof.
  split.
  - apply same_config_refl.
  - done.
  - done.
  - lia.
  - done.
  - intros a it H. exists it. do 4 (split; [done|]). by left.
  - intros k a H1 H2. congruence.
  - exists []. split; [by rewrite app_nil_r|]. split; [constructor|].
    destruct (expireCallback c); [cbn; lia|done].
  - done.
Qed.

(** An entry that has expired after part of a pass had expired before it,
    with the same key and data. *)
Lemma swept_back (now : Time) c c' (b : addr) it' :
  swept now c c' -> heap c' !! b = Some it' -> expired now it' = true ->
  exists it, heap c !! b = Some it /\ key it = key it' /\ Data it = Data it' /\
    expired now it = true /\ vetoed c it = vetoed c' it'.
Proof.
  intros S Hb He.
  destruct (lookup_lt_is_Some_2 (heap c) b) as [it Hit].
  { rewrite <- (swp_heap_length _ _ _ S). by apply lookup_lt_Some in Hb. }
  destruct (swp_payload _ _ _ S b it Hit) as (it2 & Hit2 & Hk & Hd & Ht & Hx).
  assert (it2 = it') as -> by congruence.
  exists it. split; [done|]. split; [done|]. split; [done|]. split.
  - destruct Hx as [Hx|(Hx & _)]; [|done].
    rewrite <- He. symmetry. by apply expired_ext.
  - symmetry. apply vetoed_ext; [apply S|done|done].
Qed.

Lemma evicted_back (now : Time) c c' (b : addr) (k : string) (d : V) :
  swept now c c' -> evicted now c' b k d -> evicted now c b k d.
Proof.
  intros S (Hin & it' & Hit' & Hk & Hd & He & Hv).
  destruct (swept_back now c c' b it' S Hit' He) as (it & Hit & Hk2 & Hd2 & He2 & Hv2).
  split; [by apply (swp_index _ _ _ S)|].
  exists it. repeat split; try done; congruence.
Qed.

Lemma swept_trans (now : Time) c1 c2 c3 :
  swept now c1 c2 -> swept now c2 c3 -> swept now c1 c3.
Proof.
  intros S1 S2. split.
  - eapply same_config_trans; [apply S1|apply S2].
  - intros k a H. by apply (swp_map _ _ _ S1), (swp_map _ _ _ S2).
  - intros b H. by apply (swp_index _ _ _ S1), (swp_index _ _ _ S2).
  - pose proof (swp_index_length _ _ _ S1).
    pose proof (swp_index_length _ _ _ S2). lia.
  - rewrite (swp_heap_length _ _ _ S2). apply S1.
  - intros a it Hit.
    destruct (swp_payload _ _ _ S1 a it Hit) as (it2 & Hit2 & Hk2 & Hd2 & Ht2 & Hx2).
    destruct (swp_payload _ _ _ S2 a it2 Hit2) as (it3 & Hit3 & Hk3 & Hd3 & Ht3 & Hx3).
    exists it3. split; [done|]. split; [congruence|]. split; [congruence|].
    split; [congruence|].
    destruct Hx3 as [Hx3|(He3 & Hv3 & Hx3)].
    + destruct Hx2 as [Hx2|(He2 & Hv2 & Hx2)]; [left; congruence|].
      right. split; [done|]. split; [done|]. congruence.
    + right. destruct Hx2 as [Hx2|(He2 & Hv2 & Hx2)].
      * split; [|split].
        -- rewrite <- He3. symmetry. by apply expired_ext.
        -- rewrite <- Hv3. symmetry. apply vetoed_ext; [apply S1|done|done].
        -- congruence.
      * split; [done|]. split; [done|]. congruence.
  - intros k a H1 H3.
    destruct (cache_items c2 !! k) as [a2|] eqn:H2.
    + destruct (swp_gone _ _ _ S2 k a2 H2 H3) as (b & d & Ev & Hb).
      exists b, d. split; [|done]. by eapply evicted_back.
    + destruct (swp_gone _ _ _ S1 k a H1 H2) as (b & d & Ev & Hb).
      exists b, d. split; [done|]. intros Hin. apply Hb.
      by apply (swp_index _ _ _ S2).
  - destruct (swp_events _ _ _ S1) as (es1 & E1 & F1 & L1).
    destruct (swp_events _ _ _ S2) as (es2 & E2 & F2 & L2).
    exists (es1 ++ es2). split; [by rewrite E2, E1, app_assoc|].
    split.
    + apply Forall_app. split; [done|].
      eapply Forall_impl; [exact F2|]. cbn.
      intros e (b & k & d & -> & Ev). exists b, k, d. split; [done|].
      by eapply evicted_back.
    + rewrite (sc_expireCallback _ _ (swp_config _ _ _ S1)) in L2.
      destruct (expireCallback c1).
      * rewrite length_app. lia.
      * by rewrite L1, L2.
  - intros O. by apply (swp_ordered _ _ _ S2), (swp_ordered _ _ _ S1).
Qed.

Lemma head_unexpired_empty (now : Time) c :
  (Len (the_pq c) =? 0) = true -> head_unexpired now c.
Proof.
  intros H%Z.eqb_eq. unfold head_unexpired, Len in *. cbn [the_pq items] in H.
  destruct (priorityQueue c); [done|]. cbn [length] in H. lia.
Qed.

Lemma expired_positive (now : Time) it : expired now it = true -> 0 < TTL it.
Proof. unfold expired. destruct (Z.leb_spec (TTL it) 0); [done|lia]. Qed.

(** One turn of the pass on an entry the veto callback keeps. *)
Lemma swept_keep (now : Time) c (a : addr) it :
  store_consistent c -> a ∈ priorityQueue c -> heap c !! a = Some it ->
  expired now it = true -> vetoed c it = true ->
  exists pq',
    update (the_pq (set_heap (<[a := touch now it]> (heap c)) c)) a = Ok pq' /\
    store_consistent (keep_entry now c a it pq') /\
    swept now c (keep_entry now c a it pq') /\
    same_setup c (keep_entry now c a it pq').
Proof.
  intros SC Ha Hit He Hv.
  pose proof (touch_queueIndex now it) as Tq.
  assert (Tk : key (touch now it) = key it) by (unfold touch; by case_match).
  assert (Td : Data (touch now it) = Data it) by (unfold touch; by case_match).
  assert (Tt : TTL (touch now it) = TTL it) by (unfold touch; by case_match).
  destruct (store_consistent_update c a it (touch now it) SC Ha Hit Tq Tk)
    as (pq' & E & R & SC' & SS & Ord).
  exists pq'. split; [done|]. split; [done|]. split; [|done].
  pose proof (lookup_lt_Some _ _ _ Hit) as La.
  unfold keep_entry. split.
  - by split.
  - done.
  - intros b. apply (re_elem _ _ R).
  - cbn. rewrite (re_length _ _ R). done.
  - cbn. rewrite (re_mem_length _ _ R). cbn. by rewrite length_insert.
  - intros b itb Hb. cbn [with_pq heap].
    destruct (decide (b = a)) as [->|Hne].
    + assert (itb = it) as -> by congruence.
      destruct (re_payload _ _ R a (touch now it))
        as (it' & Hit' & Hk' & Hd' & Ht' & He').
      { cbn [mem]. by apply list_lookup_insert_eq. }
      exists it'. split; [done|]. split; [congruence|]. split; [congruence|].
      split; [congruence|]. right. split; [done|]. split; [done|].
      rewrite He'. unfold touch, Add.
      pose proof (expired_positive now it He).
      destruct (Z.ltb_spec 0 (TTL it)); [done|lia].
    + destruct (re_payload _ _ R b itb) as (it' & Hit' & Hk' & Hd' & Ht' & He').
      { cbn [mem]. by rewrite list_lookup_insert_ne. }
      exists it'. split; [done|]. split; [done|]. split; [done|].
      split; [done|]. by left.
  - intros k b H1 H2. cbn in H2. congruence.
  - exists []. split; [cbn; by rewrite app_nil_r|]. split; [constructor|].
    destruct (expireCallback c); [|done]. cbn. rewrite (re_length _ _ R).
    cbn. lia.
  - exact Ord.
Qed.

(** One turn of the pass on an entry the veto callback lets go. *)
Lemma swept_evict (now : Time) c (a : addr) (pos : nat) it :
  store_consistent c -> priorityQueue c !! pos = Some a ->
  heap c !! a = Some it ->
  expired now it = true -> vetoed c it = false ->
  exists pq',
    remove (the_pq c) a = Ok pq' /\
    store_consistent (evict_entry c it pq') /\
    swept now c (evict_entry c it pq') /\
    Len (the_pq (evict_entry c it pq')) = Len (the_pq c) - 1.
Proof.
  intros SC Hpos Hit He Hv. pose proof SC as [T M].
  destruct (remove_spec (the_pq c) a pos T Hpos) as (pq' & E & Dr & O).
  exists pq'. split; [done|].
  assert (Ha : a ∈ priorityQueue c) by eauto using list_elem_of_lookup_2.
  assert (H2 : heap (evict_entry c it pq') = mem pq' /\
               priorityQueue (evict_entry c it pq') = items pq' /\
               cache_items (evict_entry c it pq')
                 = delete (key it) (cache_items c) /\
               same_config c (evict_entry c it pq') /\
               events (evict_entry c it pq') = events c ++
                 (if expireCallback c
                  then [ExpireCallback (key it) (Data it)] else [])).
  { unfold evict_entry. cbn [with_pq set_cache_items expireCallback].
    destruct (expireCallback c) eqn:Hcb; cbn; rewrite ?app_nil_r;
      repeat split; cbn; congruence. }
  destruct H2 as (H2h & H2q & H2m & H2c & H2e).
  assert (Hev : evicted now c a (key it) (Data it)).
  { split; [done|]. by exists it. }
  split; [|split].
  - split.
    + unfold the_pq. rewrite H2h, H2q.
      pose proof (dr_tracked _ _ _ Dr). by destruct pq'.
    + intros k' b Hb. rewrite H2h, H2q. rewrite H2m in Hb.
      apply lookup_delete_Some in Hb as [Hne Hb].
      destruct (M _ _ Hb) as (Hbin & itb & Hitb & Hkb).
      destruct (dr_payload _ _ _ Dr b itb Hitb) as (itb' & Hitb' & Hkb' & _).
      split.
      * apply (dr_elem _ _ _ Dr). split; [done|]. intros ->. congruence.
      * exists itb'. split; [done|]. congruence.
  - split.
    + done.
    + intros k b. rewrite H2m. by intros [_ H]%lookup_delete_Some.
    + intros b. rewrite H2q. intros Hb. by apply (dr_elem _ _ _ Dr) in Hb as [Hb _].
    + rewrite H2q. pose proof (dr_length _ _ _ Dr). cbn in *. lia.
    + rewrite H2h. apply (dr_mem_length _ _ _ Dr).
    + intros b itb Hb. rewrite H2h.
      destruct (dr_payload _ _ _ Dr b itb Hb) as (it' & Hit' & Hk' & Hd' & Ht' & He').
      exists it'. do 4 (split; [done|]). by left.
    + intros k b H1. rewrite H2m. intros H2.
      assert (k = key it) as ->.
      { destruct (decide (key it = k)) as [<-|Hne]; [done|].
        rewrite lookup_delete_ne in H2 by done. congruence. }
      exists a, (Data it). split; [done|]. rewrite H2q. intros Hin.
      apply (dr_elem _ _ _ Dr) in Hin. tauto.
    + eexists. split; [exact H2e|]. split.
      * destruct (expireCallback c); [|constructor].
        constructor; [|constructor]. by exists a, (key it), (Data it).
      * rewrite H2q. pose proof (dr_length _ _ _ Dr). cbn in *.
        destruct (expireCallback c); [cbn; lia|done].
    + intros Oc. unfold store_ordered, the_pq. rewrite H2h, H2q.
      replace (mkPQ (mem pq') (items pq')) with pq' by (by destruct pq').
      by apply O.
  - unfold Len. cbn [the_pq items]. rewrite H2q.
    pose proof (dr_length _ _ _ Dr). cbn in *. lia.
Qed.

(** The scan of the eviction pass, from cursor [i]. It faults only by
    reading the index out of range, and not at all when it starts at the
    head under a veto callback that lets every entry go (or none), or
    under one that keeps every entry. *)
Lemma evict_loop_swept (now : Time) (fuel : nat) : forall c (i : Z),
  store_consistent c -> 0 <= i ->
  (Z.to_nat (Len (the_pq c) - i) < fuel)%nat ->
  ((i = 0 /\ never_vetoes c) \/ always_vetoes c -> i < Len (the_pq c)) ->
  match evict_loop fuel now c i with
  | Ok c' => store_consistent c' /\ swept now c c' /\
             (i = 0 -> never_vetoes c -> head_unexpired now c') /\
             (always_vetoes c -> same_setup c c')
  | Panic p => p = IndexOutOfRange /\
               ~ ((i = 0 /\ never_vetoes c) \/ always_vetoes c)
  | OutOfFuel => False
  end.
Proof.
  induction fuel as [|fuel IH]; intros c i SC Hi Hf Hcalm; [lia|].
  pose proof SC as [T M]. cbn [evict_loop].
  destruct (Z.le_gt_cases (Len (the_pq c)) i) as [Hout|Hin].
  { rewrite index_out by (right; exact Hout). cbn [bind]. split; [done|].
    intros Hc. specialize (Hcalm Hc). lia. }
  destruct (tracked_slot (the_pq c) i T) as (a & it & Hpos & Hidx & Hit & _);
    [lia|].
  cbn [the_pq items mem] in Hpos, Hidx, Hit.
  rewrite Hidx. cbn [bind]. unfold deref at 1. rewrite Hit. cbn [bind].
  destruct (expired now it) eqn:Hexp; cbn [negb].
  2:{ split; [done|]. split; [apply swept_refl|]. split.
      - intros -> _. unfold head_unexpired. change (Z.to_nat 0) with 0%nat in Hpos.
        destruct (priorityQueue c) as [|a' q]; [done|].
        injection Hpos as ->. by exists it.
      - intros _. apply same_setup_refl. }
  assert (Ha : a ∈ priorityQueue c) by eauto using list_elem_of_lookup_2.
  change (match checkExpireCallback c with
          | Some check => negb (check (key it) (Data it))
          | None => false
          end) with (vetoed c it).
  destruct (vetoed c it) eqn:Hv.
  - destruct (swept_keep now c a it SC Ha Hit Hexp Hv)
      as (pq' & -> & SC' & S' & SS').
    cbn [bind]. fold (keep_entry now c a it pq').
    set (c' := keep_entry now c a it pq') in *.
    assert (HL : Len (the_pq c') = Len (the_pq c)).
    { unfold Len. cbn [the_pq items]. by rewrite (ss_index_length _ _ SS'). }
    assert (Hcfg : checkExpireCallback c' = checkExpireCallback c)
      by apply SS'.
    destruct (i + 1 =? Len (the_pq c')) eqn:Hend.
    + split; [done|]. split; [done|]. split; [|done].
      intros _ Hnv. rewrite Hnv in Hv. done.
    + specialize (IH c' (i + 1) SC' ltac:(lia) ltac:(lia) ltac:(lia)).
      destruct (evict_loop fuel now c' (i + 1)) as [c''|p|]; [| |done].
      * destruct IH as (SC'' & S'' & _ & Hal). split; [done|].
        split; [by eapply swept_trans|]. split.
        -- intros _ Hnv. rewrite Hnv in Hv. done.
        -- intros Hav. eapply same_setup_trans; [done|].
           apply Hal. by eapply always_vetoes_config.
      * destruct IH as [-> Hn]. split; [done|].
        intros [[_ Hnv]|Hav]; [rewrite Hnv in Hv; done|].
        apply Hn. right. by eapply always_vetoes_config.
  - destruct (swept_evict now c a (Z.to_nat i) it SC Hpos Hit Hexp Hv)
      as (pq' & -> & SC2 & S2 & HL).
    cbn [bind].
    change (if expireCallback
                 (set_cache_items (delete (key it) (cache_items (with_pq pq' c)))
                    (with_pq pq' c))
            then emit (ExpireCallback (key it) (Data it))
                   (set_cache_items (delete (key it) (cache_items (with_pq pq' c)))
                      (with_pq pq' c))
            else set_cache_items (delete (key it) (cache_items (with_pq pq' c)))
                   (with_pq pq' c))
      with (evict_entry c it pq').
    set (c2 := evict_entry c it pq') in *.
    assert (Hcfg : checkExpireCallback c2 = checkExpireCallback c)
      by apply S2.
    destruct (Len (the_pq c2) =? 0) eqn:Hend.
    + split; [done|]. split; [done|]. split.
      * intros _ _. by apply head_unexpired_empty.
      * intros Hav. rewrite Hav in Hv. done.
    + assert (Hpre : (i = 0 /\ never_vetoes c2) \/ always_vetoes c2 ->
                     i < Len (the_pq c2)).
      { intros [[-> _]|Hav].
        - unfold Len in *. lia.
        - assert (Hav' : always_vetoes c).
          { intros x. rewrite <- (Hav x). symmetry. by apply vetoed_ext. }
          rewrite Hav' in Hv. done. }
      specialize (IH c2 i SC2 Hi ltac:(lia) Hpre).
      destruct (evict_loop fuel now c2 i) as [c''|p|]; [| |done].
      * destruct IH as (SC'' & S'' & Hhd & _). split; [done|].
        split; [by eapply swept_trans|]. split.
        -- intros Hi0 Hnv. apply Hhd; [done|]. by eapply never_vetoes_config.
        -- intros Hav. rewrite Hav in Hv. done.
      * destruct IH as [-> Hn]. split; [done|].
        intros [[Hi0 Hnv]|Hav]; [|rewrite Hav in Hv; done].
        apply Hn. left. split; [done|]. by eapply never_vetoes_config.
Qed.

Lemma evictionPass_swept (now : Time) c :
  store_consistent c ->
  match evictionPass now c with
  | Ok c' => store_consistent c' /\ swept now c c' /\
             (never_vetoes c -> head_unexpired now c') /\
             (always_vetoes c -> same_setup c c')
  | Panic p => p = IndexOutOfRange /\ ~ never_vetoes c /\ ~ always_vetoes c
  | OutOfFuel => False
  end.
Proof.
  intros SC. unfold evictionPass.
  destruct (Len (the_pq c) =? 0) eqn:HL.
  - split; [done|]. split; [apply swept_refl|]. split.
    + intros _. by apply head_unexpired_empty.
    + intros _. apply same_setup_refl.
  - pose proof (evict_loop_swept now (S (length (priorityQueue c))) c 0 SC) as H.
    assert (H0 : 0 < Len (the_pq c)) by (unfold Len in *; lia).
    specialize (H ltac:(lia)
                  ltac:(unfold Len; cbn [the_pq items]; lia) (fun _ => H0)).
    destruct (evict_loop _ now c 0) as [c'|p|]; [| |done].
    + destruct H as (SC' & S' & Hhd & Hal). split; [done|]. split; [done|].
      split; [by apply Hhd|done].
    + destruct H as [-> Hn]. split; [done|]. split.
      * intros Hnv. apply Hn. by left.
      * intros Hav. apply Hn. by right.
Qed.

Lemma no_callback_never_vetoes c :
  checkExpireCallback c = None -> never_vetoes c.
Proof. intros H it. unfold vetoed. by rewrite H. Qed.

(** The eviction pass under a veto callback that lets every entry go, or
    under none: the pass never faults. It leaves a consistent store whose
    index is empty or has an unexpired head; no payload was written; the
    keys gone from the map and the expiration callbacks are those of
    entries that had expired, as [swept] tells. *)
Theorem evictionPass_without_veto (now : Time) c :
  store_consistent c -> never_vetoes c ->
  exists c', evictionPass now c = Ok c' /\
    store_consistent c' /\ head_unexpired now c' /\ swept now c c' /\
    (forall (a : addr) it, heap c !! a = Some it ->
       exists it', heap c' !! a = Some it' /\ same_payload it it').
Proof.
  intros SC Hnv. pose proof (evictionPass_swept now c SC) as H.
  destruct (evictionPass now c) as [c'|p|]; [| |done].
  - destruct H as (SC' & S' & Hhd & _). exists c'.
    split; [done|]. split; [done|]. split; [by apply Hhd|]. split; [done|].
    intros a it Hit.
    destruct (swp_payload _ _ _ S' a it Hit)
      as (it' & Hit' & Hk & Hd & Ht & [He|(_ & Hv & _)]).
    + by exists it'.
    + rewrite Hnv in Hv. done.
  - destruct H as (_ & Hn & _). done.
Qed.


(** The eviction pass in general. It never runs on for ever. When it
    ends, the store is consistent and [swept] tells what was done: only
    entries that had expired are gone, however the veto callback
    answered. Its only fault is the read of the index out of range, which
    takes a veto callback that keeps some entries and lets others go. *)
Theorem evictionPass_effects (now : Time) c :
  store_consistent c ->
  match evictionPass now c with
  | Ok c' => store_consistent c' /\ swept now c c'
  | Panic p => p = IndexOutOfRange /\ checkExpireCallback c <> None /\
               ~ never_vetoes c /\ ~ always_vetoes c
  | OutOfFuel => False
  end.
Proof.
  intros SC. pose proof (evictionPass_swept now c SC) as H.
  destruct (evictionPass now c) as [c'|p|]; [| |done].
  - destruct H as (SC' & S' & _). done.
  - destruct H as (-> & Hn & Ha). split; [done|]. split; [|done].
    intros Hc. by apply Hn, no_callback_never_vetoes.
Qed.

End Sweep.

(** * Programs over the store *)

Section Programs.

Context {V : Type}.
Implicit Types (it : Item V) (pq : pqueue V) (c : Cache V).

(** One call on a consistent store in heap order. *)
Lemma exec_step (now : Time) c (f : call) :
  store_consistent c -> store_ordered c ->
  match exec now c f with
  | Ok c' => store_consistent c' /\ store_ordered c' /\
             (installs_veto f = false -> checkExpireCallback c = None ->
              checkExpireCallback c' = None)
  | Panic p => p = IndexOutOfRange /\ f = TimerFires /\
               checkExpireCallback c <> None
  | OutOfFuel => False
  end.
Proof.
  intros SC O. destruct f; cbn [exec].
  - destruct (SetWithTTL_entry now c k data d SC)
      as (c' & a & it' & -> & SC' & _ & _ & _ & _ & _ & _ & Cf & _ & Ord & _).
    split; [done|]. split; [by apply Ord|].
    intros _ H. by rewrite (sc_checkExpireCallback _ _ Cf).
  - destruct (live_cases now c k SC) as [[_ Hk]|[_ (a & it & Ha & Hit & Hexp)]].
    + destruct (Get_absent now c k Hk) as [-> _]. cbn [bind]. done.
    + destruct (Get_present now c k a it SC Ha Hit Hexp)
        as (c' & it' & -> & SC' & _ & Cf & _ & _ & _ & _ & _ & _ & Ord & _).
      cbn [bind]. split; [done|]. split; [by apply Ord|].
      intros _ H. by rewrite (sc_checkExpireCallback _ _ Cf).
  - unfold GetTTL.
    destruct (GetItem_spec now c k SC)
      as [[-> _]|(a & it & c1 & it1 & trig & -> & _ & _ & _ & SC1 & _ & Hit1
                  & _ & Ord1 & Cf1 & _)];
      cbn [bind]; [done|].
    unfold deref. rewrite Hit1. cbn [bind].
    split; [done|]. split; [by apply Ord1|].
    intros _ H. by rewrite (sc_checkExpireCallback _ _ Cf1).
  - destruct (cache_items c !! k) as [a|] eqn:Ha.
    + destruct (Remove_effects c k a SC Ha)
        as (c' & -> & SC' & _ & Cf & _ & _ & _ & _ & Ord).
      cbn [bind]. split; [done|]. split; [by apply Ord|].
      intros _ H. by rewrite (sc_checkExpireCallback _ _ Cf).
    + unfold Remove. rewrite Ha. cbn [bind]. done.
  - split; [exact SC|]. split; [exact O|]. done.
  - split; [exact SC|]. split; [exact O|]. done.
  - split; [exact SC|]. split; [exact O|]. cbn. by destruct callback.
  - split; [exact SC|]. split; [exact O|]. done.
  - split; [exact SC|]. split; [exact O|]. done.
  - destruct (Purge_spec c) as (c' & -> & _ & _ & _ & Cf & _ & SC' & O' & _).
    split; [done|]. split; [done|].
    intros _ H. by rewrite (sc_checkExpireCallback _ _ Cf).
  - pose proof (evictionPass_swept now c SC) as H.
    destruct (evictionPass now c) as [c1|p|]; [| |done].
    + destruct H as (SC1 & S1 & _). cbn [bind].
      destruct (sleepTime_total now c1 SC1) as (d & _ & _ & _ & _ & ->).
      cbn [bind]. split; [exact SC1|].
      split; [by apply (swp_ordered _ _ _ S1)|].
      intros _ H. cbn. by rewrite (sc_checkExpireCallback _ _ (swp_config _ _ _ S1)).
    + destruct H as (-> & Hn & _). cbn [bind]. split; [done|]. split; [done|].
      intros Hc. by apply Hn, no_callback_never_vetoes.
  - destruct (fallAsleep_total now c SC) as (d & ->). cbn [bind].
    split; [exact SC|]. split; [exact O|]. done.
Qed.

Lemma exec_all_outcome (fs : list (Time * call)) : forall c,
  store_consistent c -> store_ordered c ->
  match exec_all c fs with
  | Ok c' => store_consistent c' /\ store_ordered c' /\
             (Forall (fun nf => installs_veto nf.2 = false) fs ->
              checkExpireCallback c = None -> checkExpireCallback c' = None)
  | Panic p => p = IndexOutOfRange /\
               exists fs1 now fs2 c1,
                 fs = fs1 ++ (now, TimerFires) :: fs2 /\
                 exec_all c fs1 = Ok c1 /\
                 exec now c1 TimerFires = Panic IndexOutOfRange /\
                 (checkExpireCallback c <> None \/
                  Exists (fun nf => installs_veto nf.2 = true) fs1)
  | OutOfFuel => False
  end.
Proof.
  induction fs as [|[now f] fs IH]; intros c SC O; cbn [exec_all].
  - done.
  - pose proof (exec_step now c f SC O) as H.
    destruct (exec now c f) as [c1|p|] eqn:E; [| |done]; cbn [bind].
    + destruct H as (SC1 & O1 & Hc1). specialize (IH c1 SC1 O1).
      destruct (exec_all c1 fs) as [c'|p|]; [| |done].
      * destruct IH as (SC' & O' & Hc'). split; [done|]. split; [done|].
        intros [Hf Hfs]%Forall_cons Hc. apply Hc'; [done|]. by apply Hc1.
      * destruct IH as (-> & fs1 & t & fs2 & c2 & -> & E1 & E2 & Hv).
        split; [done|]. exists ((now, f) :: fs1), t, fs2, c2.
        split; [done|]. split. { cbn [exec_all]. rewrite E. exact E1. }
        split; [done|].
        destruct Hv as [Hv|Hv]; [|right; by right].
        destruct (installs_veto f) eqn:Hf; [right; by left|].
        destruct (checkExpireCallback c) eqn:Hc; [by left|].
        destruct Hv. by apply Hc1.
    + destruct H as (-> & -> & Hc). split; [done|].
      exists [], now, fs, c. split; [done|]. split; [done|].
      split; [done|]. by left.
Qed.

(** Whatever calls a program makes on a new store, and whatever turns the
    sweep takes in between: no call runs on for ever, and every store
    reached is consistent and has its index in heap order. If the program
    has a fault, it is a timer firing that has it: the calls before it
    have all returned, the eviction pass of that firing reads the index
    out of range, and one of the calls before it has installed a veto
    callback. So the calls of the interface never fault, and a program
    that installs no veto callback has no fault at all. *)
Theorem program_outcome (now0 : Time) (fs : list (Time * @call V)) :
  exists c0 : Cache V, NewCache now0 = Ok c0 /\
    match exec_all c0 fs with
    | Ok c => store_consistent c /\ store_ordered c /\
              0 <= Count c <= Len (the_pq c)
    | Panic p => p = IndexOutOfRange /\
                 exists fs1 now fs2 c1,
                   fs = fs1 ++ (now, TimerFires) :: fs2 /\
                   exec_all c0 fs1 = Ok c1 /\
                   exec now c1 TimerFires = Panic IndexOutOfRange /\
                   Exists (fun nf => installs_veto nf.2 = true) fs1
    | OutOfFuel => False
    end.
Proof.
  destruct (NewCache_spec (V := V) now0)
    as (c0 & E & SC & O & _ & _ & _ & _ & _ & _ & _ & _ & Hc & _).
  exists c0. split; [done|].
  pose proof (exec_all_outcome fs c0 SC O) as H.
  destruct (exec_all c0 fs) as [c|p|]; [| |done].
  - destruct H as (SC' & O' & _). split; [done|]. split; [done|].
    split; [unfold Count; lia|by apply Count_le_index].
  - destruct H as (-> & fs1 & t & fs2 & c1 & Hfs & E1 & E2 & [Hv|Hv]);
      [done|].
    split; [done|]. by exists fs1, t, fs2, c1.
Qed.

End Programs.

(** * The life of a key among other calls and the turns of the sweep *)

Section KeyLifetime.

Context {V : Type}.
Implicit Types (it : Item V) (pq : pqueue V) (c : Cache V).


















End KeyLifetime.

(** * Runs of the store on concrete inputs *)

Local Open Scope string_scope.
Local Open Scope Z_scope.

(** C1, on [stale_key_store], whose key ["a"] is in the map with an
    entry that has expired: [SetWithTTL] does not replace the entry in
    place. It allocates a second entry (address 1), points the map at it,
    pushes it on the index next to the old one (address 0) and calls the
    new-item callback again. The next eviction pass removes the old entry
    and with it the key of the new one, which is then not found although
    its TTL of 50 has not run out. [SetWithTTL_live_key] and
    [SetWithTTL_fresh_entry] cover the keys the code handles as C1 says. *)
Theorem SetWithTTL_expired_key_second_entry :
  stale_key_rewrite =
    Ok (Some 0%nat, [0%nat],
        Some 1%nat, [0%nat; 1%nat],
        [mkItem "a" "v1" 5 105 0; mkItem "a" "v2" 50 250 1],
        [NewItemCallback "a" "v1"; ExpirationNotification;
         NewItemCallback "a" "v2"; ExpirationNotification],
        None, [1%nat], None, false).
Proof. vm_compute. reflexivity. Qed.

(** C2, on [veto_store] when the timer fires at instant 200: the index
    holds ["a"] (due at 105) in slot 0 and ["u"] (TTL 7, no deadline) in
    slot 1. The pass keeps ["a"] and moves the cursor to slot 1, evicts
    ["u"] there, which leaves one entry, and then reads slot 1 again: an
    index out of range. *)
Theorem evictionPass_cursor_out_of_range :
  veto_store_pass =
    (Some ([1%nat; 0%nat],
           [mkItem "u" "d" 7 0 1; mkItem "a" "d" 5 105 0]),
     Panic IndexOutOfRange).
Proof. vm_compute. reflexivity. Qed.

(** C6, on [promoted_key_reads]. The key ["u"] is written with a TTL of
    0 while no global TTL is set, so its entry has no deadline. With a
    global TTL of two hours and the extension on read switched off, the
    read at 101 finds the key and promotes its TTL to two hours without
    touching it: the entry now has a positive TTL and still no deadline.
    [expired] calls that entry expired, although its deadline is not set
    and none of its two hours has run out: the read at 102 does not find
    the key, which is still in the map. The sleep computation, like
    [Less], takes the same entry to have no deadline and sleeps for an
    hour. *)
Theorem expired_promoted_entry_without_deadline :
  promoted_key_reads =
    Ok ([mkItem "u" "d" 0 0 0], Some "d", true,
        [mkItem "u" "d" (2 * Hour) 0 0], true, true, Hour,
        None, false, Some 0%nat).
Proof. vm_compute. reflexivity. Qed.

(** The turns of the sweep set the instant the wake signal is judged by.
    After its first turn the sweep is set to wake an hour later, so a read
    that extends a deadline to before that instant sends the wake signal,
    as the write before it did; the turn the sweep takes on the signal
    sets the wake instant to the new deadline. *)
Example first_turn_then_wake_signal :
  (let* c := NewCache 50 in
   let* c := exec_all c [(50, SweepTurn); (100, CallSetWithTTL "a" "v" 5);
                         (101, CallGet "a"); (101, SweepTurn)] in
   Ok (expirationTime c, events c)) =
  Ok (106, [ExpirationNotification; ExpirationNotification]).
Proof. vm_compute. reflexivity. Qed.

(** The tests of [priority_queue_test.go], run on the embedding. *)

Example TestPriorityQueueCheckOrder :
  (let* pq := newPriorityQueue [] in
   let* pq := push_new 1000 pq
                [("key_10", 10 * Second); ("key_9", 9 * Second);
                 ("key_8", 8 * Second); ("key_7", 7 * Second);
                 ("key_6", 6 * Second); ("key_5", 5 * Second);
                 ("key_4", 4 * Second); ("key_3", 3 * Second);
                 ("key_2", 2 * Second); ("key_1", 1 * Second)] in
   let* (ks, pq) := pop_keys 10 pq in
   Ok (ks, Len pq)) =
  Ok (["key_1"; "key_2"; "key_3"; "key_4"; "key_5";
       "key_6"; "key_7"; "key_8"; "key_9"; "key_10"], 0).
Proof. vm_compute. reflexivity. Qed.

Example TestPriorityQueuePop :
  (let* pq := newPriorityQueue [] in
   let* pq := push_new 1000 pq
                [("key_0", -1); ("key_1", -1); ("key_2", -1); ("key_3", -1);
                 ("key_4", -1); ("key_5", -1); ("key_6", -1); ("key_7", -1);
                 ("key_8", -1); ("key_9", -1)] in
   let* (ks1, pq1) := pop_keys 5 pq in
   let* (ks2, pq2) := pop_keys 5 pq1 in
   let* (pq3, item) := pop pq2 in
   Ok (Len pq, length ks1, Len pq1, length ks2, Len pq2, item)) =
  Ok (10, 5%nat, 5, 5%nat, 0, None).
Proof. vm_compute. reflexivity. Qed.

Example TestPriorityQueueRemove :
  (let* pq := newPriorityQueue [] in
   let* pq := push_new 1000 pq
                [("key_0", 0 * Second); ("key_1", 1 * Second);
                 ("key_2", 2 * Second); ("key_3", 3 * Second);
                 ("key_4", 4 * Second)] in
   let* pq1 := remove pq 2%nat in
   let* (ks, pq2) := pop_keys 5 pq1 in
   Ok (Len pq, Len pq1, ks, Len pq2)) =
  Ok (5, 4, ["key_1"; "key_3"; "key_4"; "key_0"], 0).
Proof. vm_compute. reflexivity. Qed.

Example TestPriorityQueueUpdate :
  (let* pq := newPriorityQueue [] in
   let* pq := push_new 1000 pq [("key", 1 * Second)] in
   let* it := deref (mem pq) 0%nat in
   let pq := mkPQ (<[0%nat := mkItem "newKey" (Data it) (TTL it) (ExpireAt it)
                                 (queueIndex it)]> (mem pq)) (items pq) in
   let* pq := update pq 0%nat in
   let* (ks, pq1) := pop_keys 1 pq in
   Ok (Len pq, ks, Len pq1)) =
  Ok (1, ["newKey"], 0).
Proof. vm_compute. reflexivity. Qed.

(** C4 as stated fails on a sequence that pushes an entry twice: the
    entry then sits in slots 0 and 1 and records slot 1, so the index
    does not track positions. *)
Lemma push_twice_breaks_positions :
  let pq := mkPQ [mkItem "a" "v" 5 105 1] [0%nat; 0%nat] in
  run (mkPQ [due_entry] []) [OpPush 0%nat; OpPush 0%nat] = Ok pq /\
  ~ tracked pq.
Proof.
  split; [vm_compute; reflexivity|].
  intros T. destruct (T 0%nat 0%nat eq_refl) as (it & Hit & Hq).
  cbn in Hit. injection Hit as <-. discriminate Hq.
Qed.

(** C5 as stated fails twice: with a head that has no deadline and a
    global TTL of two hours the loop sleeps one hour, not the global TTL;
    and when the time until the head's deadline is zero, so not positive,
    it sleeps for zero, not for a small positive value. *)
Lemma sleepTime_not_as_stated :
  (let* c := long_ttl_store in
   let* d := sleepTime 1000 c in
   Ok (ExpireAt <$> heap c, ttl c, d)) = Ok ([0], 2 * Hour, Hour) /\
  Hour <> 2 * Hour /\
  (let* c := due_store in
   let* d := sleepTime 1500 c in
   Ok (ExpireAt <$> heap c, Until 1500 1500, d)) = Ok ([1500], 0, 0).
Proof. repeat split; try done; vm_compute; reflexivity. Qed.

(** * The theorems at work on concrete entries, indexes and stores *)

Ltac list_mem :=
  cbn; rewrite ?not_elem_of_cons, ?elem_of_cons;
  repeat split; auto using not_elem_of_nil; try lia.

Lemma two_entries_tracked : tracked two_entries.
Proof.
  intros [|[|k]] a H; cbn in H; simplify_eq; eexists; split; reflexivity.
Qed.

Lemma two_entries_ordered : heap_ordered two_entries (Len two_entries).
Proof.
  intros p c [Hp Hc] Hn. change (Len two_entries) with 2 in Hn.
  assert (p = 0) as -> by lia. assert (c = 1) as -> by lia. reflexivity.
Qed.

Lemma two_entry_store_consistent : store_consistent two_entry_store.
Proof.
  split; [exact two_entries_tracked|].
  intros k a H. cbn in H.
  apply lookup_insert_Some in H as [[<- <-]|[_ H]].
  - split; [list_mem|]. eexists. split; reflexivity.
  - apply lookup_singleton_Some in H as [<- <-].
    split; [list_mem|]. eexists. split; reflexivity.
Qed.

Lemma waiting_store_consistent : store_consistent waiting_store.
Proof.
  split.
  - intros [|k] a H; cbn in H; simplify_eq. eexists. split; reflexivity.
  - intros k a H. cbn in H. apply lookup_singleton_Some in H as [<- <-].
    split; [list_mem|]. eexists. split; reflexivity.
Qed.

Lemma touch_sets_deadline_witness :
  (0 < TTL due_entry /\
   ExpireAt (touch 200 due_entry) = 200 + TTL due_entry) /\
  (TTL idle_entry <= 0 /\ touch 200 idle_entry = idle_entry).
Proof.
  split; (split; [cbn; lia|]).
  - apply (proj1 (touch_sets_deadline 200 due_entry)). cbn. lia.
  - apply (proj2 (touch_sets_deadline 200 idle_entry)). cbn. lia.
Defined.

Lemma Less_ordering_witness :
  (index (items two_entries) 0 = Ok 0%nat /\
   mem two_entries !! 0%nat = Some due_entry /\
   index (items two_entries) 1 = Ok 1%nat /\
   mem two_entries !! 1%nat = Some idle_entry) /\
  Less two_entries 0 1 = Ok true /\ Less two_entries 1 0 = Ok false.
Proof.
  split; [repeat split|].
  apply (Less_ordering two_entries 0 1 0%nat 1%nat due_entry idle_entry
           eq_refl eq_refl eq_refl eq_refl).
  - cbn. lia.
  - reflexivity.
Defined.

Lemma sample_ops_admissible :
  admissible_run (mkPQ [due_entry; idle_entry] []) sample_ops.
Proof.
  split; [split; [list_mem|by eexists]|].
  intros pq1 H1. vm_compute in H1. injection H1 as <-.
  split; [split; [list_mem|by eexists]|].
  intros pq2 H2. vm_compute in H2. injection H2 as <-.
  split; [list_mem|].
  intros pq3 H3. vm_compute in H3. injection H3 as <-.
  split; [done|].
  intros pq4 H4. vm_compute in H4. injection H4 as <-.
  split; [list_mem|].
  intros pq5 H5. done.
Defined.

Lemma heap_invariant_after_operations_witness :
  admissible_run (mkPQ [due_entry; idle_entry] []) sample_ops /\
  exists pq, run (mkPQ [due_entry; idle_entry] []) sample_ops = Ok pq /\
    (forall (k : nat) (a : addr), items pq !! k = Some a ->
       exists it, mem pq !! a = Some it /\ queueIndex it = Z.of_nat k) /\
    (forall p c, child p c -> c < Len pq -> Less pq c p = Ok false) /\
    (forall k, 0 <= k < Len pq -> Less pq k 0 = Ok false).
Proof.
  split; [exact sample_ops_admissible|].
  apply (heap_invariant_after_operations [due_entry; idle_entry] sample_ops).
  exact sample_ops_admissible.
Defined.

Lemma pop_returns_minimum_witness :
  (tracked two_entries /\ heap_ordered two_entries (Len two_entries) /\
   0 < Len two_entries) /\
  exists pq' x, pop two_entries = Ok (pq', Some x) /\
     items two_entries !! 0%nat = Some x /\
     (forall k, 0 <= k < Len two_entries -> Less two_entries k 0 = Ok false) /\
     (forall a, a ∈ items pq' <-> a ∈ items two_entries /\ a <> x) /\
     Len pq' = Len two_entries - 1 /\
     tracked pq' /\ heap_ordered pq' (Len pq') /\
     (forall p c, child p c -> c < Len pq' -> Less pq' c p = Ok false).
Proof.
  split.
  - split; [exact two_entries_tracked|].
    split; [exact two_entries_ordered|]. reflexivity.
  - apply (proj2 (pop_returns_minimum two_entries)).
    + exact two_entries_tracked.
    + exact two_entries_ordered.
    + reflexivity.
Defined.

Lemma sleepTime_duration_witness :
  (0 < 1000 /\
   priorityQueue two_entry_store !! 0%nat = Some 0%nat /\
   heap two_entry_store !! 0%nat = Some due_entry) /\
  sleepTime 1000 two_entry_store =
    Ok (if 0 <? ttl two_entry_store
        then Z.min (if IsZero (ExpireAt due_entry) then Hour
                    else if Until 1000 (ExpireAt due_entry) <? 0
                         then Microsecond
                         else Until 1000 (ExpireAt due_entry))
                   (ttl two_entry_store)
        else (if IsZero (ExpireAt due_entry) then Hour
              else if Until 1000 (ExpireAt due_entry) <? 0
                   then Microsecond
                   else Until 1000 (ExpireAt due_entry))).
Proof.
  split; [repeat split; lia|].
  apply (proj2 (sleepTime_duration 1000 two_entry_store ltac:(lia))
           0%nat due_entry eq_refl eq_refl).
Defined.

Lemma Remove_spec_witness :
  (store_consistent two_entry_store /\
   cache_items two_entry_store !! "a" = Some 0%nat) /\
  exists c', Remove two_entry_store "a" = Ok (c', true) /\
     cache_items c' = delete "a" (cache_items two_entry_store) /\
     cache_items c' !! "a" = None /\
     (0%nat ∉ priorityQueue c') /\
     (forall b, b ∈ priorityQueue c' <->
                b ∈ priorityQueue two_entry_store /\ b <> 0%nat) /\
     events c' = events two_entry_store /\
     store_consistent c'.
Proof.
  split; [split; [exact two_entry_store_consistent|reflexivity]|].
  apply (proj2 (Remove_spec two_entry_store "a")
           two_entry_store_consistent 0%nat eq_refl).
Defined.

Lemma GetTTL_not_read_only_witness :
  (store_consistent waiting_store /\
   cache_items waiting_store !! "w" = Some 0%nat /\
   heap waiting_store !! 0%nat = Some waiting_entry /\
   expired 101 waiting_entry = false /\
   eligible waiting_store waiting_entry = true) /\
  exists c' it',
    GetTTL 101 waiting_store "w" = Ok (c', TTL it', true) /\
    heap c' !! 0%nat = Some it' /\
    TTL it' = 7 /\ ExpireAt it' = 108.
Proof.
  split; [split; [exact waiting_store_consistent|repeat split]|].
  destruct (GetTTL_not_read_only 101 waiting_store "w" 0%nat waiting_entry
              waiting_store_consistent eq_refl eq_refl eq_refl eq_refl)
    as (c' & it' & E & Hit & Ht & _ & He & _).
  exists c', it'. repeat split; try done.
  cbn in He. rewrite He, Ht. reflexivity.
Defined.

(** * The further theorems at work *)

Lemma one_entry_tracked : tracked one_entry.
Proof.
  intros [|k] a H; cbn in H; simplify_eq. eexists. split; reflexivity.
Qed.

Lemma one_entry_ordered : heap_ordered one_entry (Len one_entry).
Proof.
  intros p c [Hp Hc] Hn. change (Len one_entry) with 1 in Hn. lia.
Qed.

Lemma two_entry_store_ordered : store_ordered two_entry_store.
Proof. exact two_entries_ordered. Qed.


Lemma Less_strict_weak_order_witness :
  (tracked two_entries /\ 0 <= 0 < Len two_entries /\
   0 <= 1 < Len two_entries) /\
  Less two_entries 0 0 = Ok false /\
  (Less two_entries 0 1 = Ok true -> Less two_entries 1 0 = Ok false).
Proof.
  split; [split; [exact two_entries_tracked|unfold Len; cbn; lia]|].
  destruct (Less_strict_weak_order two_entries 0 1 1 two_entries_tracked)
    as (H1 & H2 & _); [unfold Len; cbn; lia..|].
  split; [exact H1|exact H2].
Defined.

Lemma update_unchanged_witness :
  (tracked two_entries /\ heap_ordered two_entries (Len two_entries) /\
   0%nat ∈ items two_entries) /\
  update two_entries 0%nat = Ok two_entries.
Proof.
  split.
  - split; [exact two_entries_tracked|]. split; [exact two_entries_ordered|].
    list_mem.
  - apply (update_unchanged two_entries 0%nat two_entries_tracked
             two_entries_ordered). list_mem.
Defined.

Lemma push_adds_entry_witness :
  (tracked one_entry /\ heap_ordered one_entry (Len one_entry) /\
   (1%nat ∉ items one_entry) /\ mem one_entry !! 1%nat = Some idle_entry) /\
  exists pq', push one_entry 1%nat = Ok pq' /\ Len pq' = Len one_entry + 1 /\
    tracked pq' /\ heap_ordered pq' (Len pq').
Proof.
  split.
  - split; [exact one_entry_tracked|]. split; [exact one_entry_ordered|].
    split; [list_mem|reflexivity].
  - destruct (push_adds_entry one_entry 1%nat idle_entry one_entry_tracked
                one_entry_ordered) as (pq' & E & L & _ & T & O & _);
      [list_mem|reflexivity|].
    exists pq'. split; [exact E|]. split; [exact L|]. split; [exact T|exact O].
Defined.

Lemma remove_drops_entry_witness :
  (tracked two_entries /\ heap_ordered two_entries (Len two_entries) /\
   0%nat ∈ items two_entries) /\
  exists pq' it', remove two_entries 0%nat = Ok pq' /\
    Len pq' = Len two_entries - 1 /\
    mem pq' !! 0%nat = Some it' /\ queueIndex it' = -1.
Proof.
  split.
  - split; [exact two_entries_tracked|]. split; [exact two_entries_ordered|].
    list_mem.
  - destruct (remove_drops_entry two_entries 0%nat two_entries_tracked
                two_entries_ordered) as (pq' & it' & E & L & _ & _ & _ & _ & M & Q);
      [list_mem|].
    exists pq', it'. split; [exact E|]. split; [exact L|].
    split; [exact M|exact Q].
Defined.

Lemma popped_entry_is_stale_witness :
  (tracked two_entries /\ items two_entries !! 0%nat = Some 0%nat) /\
  exists pq', pop two_entries = Ok (pq', Some 0%nat) /\
    update pq' 0%nat = Ok pq' /\
    remove pq' 0%nat = Panic IndexOutOfRange.
Proof.
  split; [split; [exact two_entries_tracked|reflexivity]|].
  destruct (popped_entry_is_stale two_entries 0%nat two_entries_tracked eq_refl)
    as (pq' & it' & E & _ & _ & _ & U & R).
  exists pq'. split; [exact E|]. split; [exact U|exact R].
Defined.

Lemma update_after_write_witness :
  (tracked two_entries /\ heap_ordered two_entries (Len two_entries) /\
   0%nat ∈ items two_entries) /\
  exists pq1 pq' it',
    write_ExpireAt two_entries 0%nat 300 = Ok pq1 /\
    update pq1 0%nat = Ok pq' /\
    tracked pq' /\ heap_ordered pq' (Len pq') /\
    mem pq' !! 0%nat = Some it' /\ ExpireAt it' = 300.
Proof.
  split.
  - split; [exact two_entries_tracked|]. split; [exact two_entries_ordered|].
    list_mem.
  - destruct (update_after_write two_entries 0%nat 300 two_entries_tracked
                two_entries_ordered)
      as (pq1 & pq' & it' & W & U & _ & _ & T & O & _ & M & E & _);
      [list_mem|].
    exists pq1, pq', it'. split; [exact W|]. split; [exact U|].
    split; [exact T|]. split; [exact O|]. split; [exact M|exact E].
Defined.

Lemma drain_sorted_witness :
  (tracked two_entries /\ heap_ordered two_entries (Len two_entries)) /\
  exists l pq', drain 3 two_entries = Ok (l, pq') /\
    items pq' = [] /\ l ≡ₚ items two_entries.
Proof.
  split; [split; [exact two_entries_tracked|exact two_entries_ordered]|].
  destruct (drain_sorted two_entries two_entries_tracked two_entries_ordered)
    as (l & pq' & E & H1 & H2 & _).
  exists l, pq'. split; [exact E|]. split; [exact H1|exact H2].
Defined.

Lemma read_miss_leaves_store_witness :
  (cache_items two_entry_store !! "a" = Some 0%nat /\
   heap two_entry_store !! 0%nat = Some due_entry /\
   expired 200 due_entry = true) /\
  Get 200 two_entry_store "a" = Ok (two_entry_store, None, false) /\
  GetTTL 200 two_entry_store "a" = Ok (two_entry_store, 0, false).
Proof.
  split; [repeat split|].
  apply (read_miss_leaves_store 200 two_entry_store "a").
  right. exists 0%nat, due_entry. repeat split.
Defined.


Lemma SetWithTTL_other_keys_witness :
  (store_consistent two_entry_store /\ "a" <> "k") /\
  exists c', SetWithTTL 100 two_entry_store "k" "w" 10 = Ok c' /\
    cache_items c' !! "a" = cache_items two_entry_store !! "a" /\
    exists c1 c2 v found,
      Get 100 two_entry_store "a" = Ok (c1, v, found) /\
      Get 100 c' "a" = Ok (c2, v, found).
Proof.
  split; [split; [exact two_entry_store_consistent|discriminate]|].
  destruct (SetWithTTL_other_keys 100 100 two_entry_store "k" "a" "w" 10
              two_entry_store_consistent ltac:(discriminate))
    as (c' & E & M & _ & G).
  exists c'. split; [exact E|]. split; [exact M|exact G].
Defined.

Lemma Remove_then_Get_witness :
  store_consistent two_entry_store /\
  exists c', Remove two_entry_store "a" = Ok (c', true) /\
    Get 100 c' "a" = Ok (c', None, false) /\
    Remove c' "a" = Ok (c', false).
Proof.
  split; [exact two_entry_store_consistent|].
  destruct (Remove_then_Get 100 two_entry_store "a" two_entry_store_consistent)
    as (c' & E & _ & _ & _ & G & R & _).
  exists c'. split; [exact E|]. split; [exact G|exact R].
Defined.

Lemma Count_bookkeeping_witness :
  store_consistent two_entry_store /\
  0 <= Count two_entry_store <= Len (the_pq two_entry_store) /\
  (exists c', SetWithTTL 100 two_entry_store "k" "w" 10 = Ok c' /\
     Count c' = Count two_entry_store + 1) /\
  (exists c', Remove two_entry_store "a" = Ok (c', true) /\
     Count c' = Count two_entry_store - 1).
Proof.
  split; [exact two_entry_store_consistent|].
  split; [|split].
  - apply (Count_bookkeeping 100 two_entry_store "k" "w" 10
             two_entry_store_consistent).
  - destruct (Count_bookkeeping 100 two_entry_store "k" "w" 10
                two_entry_store_consistent) as (_ & (c' & E & C) & _).
    exists c'. split; [exact E|exact C].
  - destruct (Count_bookkeeping 100 two_entry_store "a" "w" 10
                two_entry_store_consistent) as (_ & _ & (c' & f & E & F & C)).
    exists c'. subst f. split; [exact E|exact C].
Defined.


Lemma sleepTime_bounds_witness :
  store_consistent two_entry_store /\
  exists d, sleepTime 100 two_entry_store = Ok d /\ 0 <= d /\
    (0 < ttl two_entry_store -> d <= ttl two_entry_store).
Proof.
  split; [exact two_entry_store_consistent|].
  destruct (sleepTime_bounds 100 two_entry_store two_entry_store_consistent)
    as (d & E & H0 & Ht & _).
  exists d. split; [exact E|]. split; [exact H0|exact Ht].
Defined.

Lemma sleepTime_before_deadlines_witness :
  (store_consistent two_entry_store /\ store_ordered two_entry_store /\
   0%nat ∈ priorityQueue two_entry_store /\
   heap two_entry_store !! 0%nat = Some due_entry /\
   ExpireAt due_entry <> 0) /\
  exists d, sleepTime 100 two_entry_store = Ok d /\
    d <= Z.max (ExpireAt due_entry - 100) Microsecond.
Proof.
  split.
  - split; [exact two_entry_store_consistent|].
    split; [exact two_entry_store_ordered|].
    split; [list_mem|]. split; [reflexivity|discriminate].
  - apply (sleepTime_before_deadlines 100 two_entry_store 0%nat due_entry
             two_entry_store_consistent two_entry_store_ordered);
      [list_mem|reflexivity|discriminate].
Defined.

Lemma evictionPass_without_veto_witness :
  (store_consistent two_entry_store /\ never_vetoes two_entry_store) /\
  exists c', evictionPass 200 two_entry_store = Ok c' /\
    store_consistent c' /\ head_unexpired 200 c' /\
    swept 200 two_entry_store c'.
Proof.
  split; [split; [exact two_entry_store_consistent|intros it; reflexivity]|].
  destruct (evictionPass_without_veto 200 two_entry_store
              two_entry_store_consistent (fun it => eq_refl))
    as (c' & E & SC & H & S & _).
  exists c'. split; [exact E|]. split; [exact SC|]. split; [exact H|exact S].
Defined.


Lemma evictionPass_effects_witness :
  store_consistent two_entry_store /\
  match evictionPass 200 two_entry_store with
  | Ok c' => store_consistent c' /\ swept 200 two_entry_store c'
  | Panic p => p = IndexOutOfRange /\
               checkExpireCallback two_entry_store <> None /\
               ~ never_vetoes two_entry_store /\
               ~ always_vetoes two_entry_store
  | OutOfFuel => False
  end.
Proof.
  split; [exact two_entry_store_consistent|].
  apply (evictionPass_effects 200 two_entry_store two_entry_store_consistent).
Defined.







